(** * Helen Keller Activation Network: the activation-graph engine

    A shallow embedding of the engine of [HelenKellerActivationNetwork]
    (node store, resonance matcher, spreading activation, Hebbian
    plasticity, coherence metric, persistence codec) and the properties
    its specification states about it.

    Modelling conventions.
    - A JavaScript [number] is a real number.  Rounding, NaN and the
      infinities of IEEE-754 are outside this part of the model, with one
      exception: the quotient computed by [cosineSimilarity] is an
      [option], [None] standing for the NaN that an out-of-range read or a
      zero norm yields.  What is proved over the reals holds of the
      program up to rounding.  The bounds and comparisons of the
      plasticity and persistence properties are stated so that rounding
      does not decide them: a bound that a result can attain after
      rounding is closed, and a strict comparison is claimed away from the
      values at which rounding makes both sides equal.
    - A JavaScript [Map] is an association list in insertion order with
      unique keys; [JsMap.set] overwrites in place or appends.
    - A reference to a node object is the key under which the store holds
      it, which is the node's id: the store holds every node under its own
      id ([wf_network], an invariant of the engine), never removes or
      re-keys a node, and is the only owner of node objects, so reading or
      writing a field through a reference is a lookup or an update in the
      store, and reading [node.id] gives the reference itself.
    - [Date.now()] and the id generator of [createNode] are oracles carried
      by the world state; every call consumes one reading.
    - The embedding and completion services are outside the model:
      [learn] and [think] take the embedding the service returned, and
      [think] takes the completion service as a function from model name
      and prompt to what the call comes to.
    - A plain object used as a dictionary is the list of its own
      properties in the order [Object.entries] and [JSON.stringify]
      enumerate them ([JsObject]): array indices first, in ascending
      order, then the other keys in the order of their creation.  An
      assignment under the key "__proto__" reaches the prototype setter
      and creates no property.  The document in the file is such a list.
    - The arithmetic of the weight updates is given a second time on
      binary64 values ([Double]), with the operations in the order the
      source evaluates them; there, what rounding does to a bound or to a
      strict comparison is computed.  [Math.tanh], which ECMAScript leaves
      to the implementation except at a few arguments, is a parameter
      there. *)

From Stdlib Require Import Reals Lra Lia String Ascii NArith List Bool Arith.
From Stdlib Require PrimFloat SpecFloat FloatOps.
Import ListNotations.

Set Warnings "-inexact-float".

Local Open Scope R_scope.

(** ** Numbers *)

Definition number := R.

(** [x > y] as the branch condition the code evaluates. *)
Definition gtb (x y : number) : bool := if Rlt_dec y x then true else false.

(** [x < y]. *)
Definition ltb (x y : number) : bool := if Rlt_dec x y then true else false.

(** ** JavaScript [Map<string, V>]: insertion-ordered, unique keys *)

Module JsMap.
Section Ops.
Context {V : Type}.

Definition t := list (string * V).

Definition empty : t := [].

Fixpoint get (m : t) (k : string) : option V :=
  match m with
  | [] => None
  | (k', v) :: rest => if String.eqb k' k then Some v else get rest k
  end.

Definition has (m : t) (k : string) : bool :=
  match get m k with Some _ => true | None => false end.

(** An existing key keeps its position; a new key goes last. *)
Fixpoint set (m : t) (k : string) (v : V) : t :=
  match m with
  | [] => [(k, v)]
  | (k', v') :: rest =>
      if String.eqb k' k then (k', v) :: rest else (k', v') :: set rest k v
  end.

Definition keys (m : t) : list string := map fst m.

Definition values (m : t) : list V := map snd m.

Definition size (m : t) : nat := List.length m.

(** Apply [f] to the value stored under [k], if any: the effect of
    mutating the object a reference points to. *)
Fixpoint modify (m : t) (k : string) (f : V -> V) : t :=
  match m with
  | [] => []
  | (k', v) :: rest =>
      if String.eqb k' k then (k', f v) :: rest else (k', v) :: modify rest k f
  end.

End Ops.
Arguments t : clear implicits.
End JsMap.

(** ** Plain objects used as dictionaries

    [saveNetwork] collects the nodes in a plain object.  The object is the
    list of its own properties in enumeration order. *)

Module JsObject.

Definition digit (c : ascii) : option N :=
  let n := N_of_ascii c in
  if ((48 <=? n) && (n <=? 57))%N then Some (n - 48)%N else None.

Fixpoint digits (s : string) (acc : N) : option N :=
  match s with
  | EmptyString => Some acc
  | String c rest =>
      match digit c with
      | Some d => digits rest (10 * acc + d)%N
      | None => None
      end
  end.

(** An array index is the canonical decimal numeral (no sign, no leading
    zero) of an integer from 0 to 2^32 - 2. *)
Definition arrayIndex (k : string) : option N :=
  match k with
  | EmptyString => None
  | String c rest =>
      match digit c, rest with
      | Some 0%N, EmptyString => Some 0%N
      | Some 0%N, String _ _ => None
      | _, _ =>
          match digits k 0 with
          | Some n => if (n <? 4294967295)%N then Some n else None
          | None => None
          end
      end
  end.

Section Ops.
Context {V : Type}.

(** A new property under the array index [i] goes before the first
    property that is not a smaller array index. *)
Fixpoint insertIndex (i : N) (k : string) (v : V) (o : JsMap.t V)
  : JsMap.t V :=
  match o with
  | [] => [(k, v)]
  | (k', v') :: rest =>
      match arrayIndex k' with
      | Some j =>
          if (j <? i)%N then (k', v') :: insertIndex i k v rest
          else (k, v) :: o
      | None => (k, v) :: o
      end
  end.

(** [o[k] = v] on an object whose prototype is [Object.prototype] when the
    assignment is made or has been replaced by a node record: under
    "__proto__" the assignment sets the prototype and the object keeps its
    properties; an existing property is overwritten where it is; a new
    one is placed by its kind of key. *)
Definition assign (o : JsMap.t V) (k : string) (v : V) : JsMap.t V :=
  if String.eqb k "__proto__" then o
  else if JsMap.has o k then JsMap.set o k v
  else match arrayIndex k with
       | Some i => insertIndex i k v o
       | None => JsMap.set o k v
       end.

End Ops.
End JsObject.

(** ** Data model (types.ts) *)

Definition Float32Array := list number.

Module NodeConnection.
Record t := mk {
  weight : number;
  lastFired : number;
  plasticityRate : number
}.

Definition set_weight (c : t) (x : number) : t :=
  mk x (lastFired c) (plasticityRate c).

Definition set_lastFired (c : t) (x : number) : t :=
  mk (weight c) x (plasticityRate c).
End NodeConnection.

Module ActivationNode.
Record t := mk {
  id : string;
  potential : number;
  connections : JsMap.t NodeConnection.t;
  decay : number;
  threshold : number;
  refractoryPeriod : number;
  lastFired : number;
  embedding : option Float32Array;
  semanticContent : option string
}.

Definition set_potential (x : number) (n : t) : t :=
  mk (id n) x (connections n) (decay n) (threshold n) (refractoryPeriod n)
     (lastFired n) (embedding n) (semanticContent n).

Definition set_lastFired (x : number) (n : t) : t :=
  mk (id n) (potential n) (connections n) (decay n) (threshold n)
     (refractoryPeriod n) x (embedding n) (semanticContent n).

Definition set_connections (m : JsMap.t NodeConnection.t) (n : t) : t :=
  mk (id n) (potential n) m (decay n) (threshold n) (refractoryPeriod n)
     (lastFired n) (embedding n) (semanticContent n).
End ActivationNode.

Module ActivationParams.
Record t := mk {
  spread : number;
  threshold : number;
  decay : number
}.
End ActivationParams.

(** The two regimes [think] uses. *)
Definition broad : ActivationParams.t := ActivationParams.mk 0.8 0.3 0.9.
Definition focused : ActivationParams.t := ActivationParams.mk 0.2 0.7 0.1.

(** ** The persisted record

    The object [saveNetwork] hands to [JSON.stringify], and what
    [JSON.parse] gives back to [loadNetwork]: one property per node id;
    [None] is JSON [null].  Property names are ordinary names, as the ids
    [createNode] generates are, so that the properties keep their
    insertion order. *)

Module NodeData.
Record t := mk {
  potential : number;
  decay : number;
  threshold : number;
  refractoryPeriod : number;
  lastFired : number;
  connections : list (string * NodeConnection.t);
  embedding : option (list number);
  semanticContent : option string
}.
End NodeData.

(** One property of the document.  [Unbuildable] is a value from which the
    loop of [loadNetwork] cannot build a node ([null], or [connections]
    that is not an iterable of pairs): building it throws a TypeError. *)
Inductive Entry :=
| Shaped (nodeData : NodeData.t)
| Unbuildable.

Definition NetworkData := JsMap.t Entry.

(** The content of the file at [networkPath]: text [JSON.parse] rejects,
    or the text of a document. *)
Inductive FileContent :=
| Unparsable (text : string)
| Document (data : NetworkData).

(** ** The network instance and its environment *)

Definition Network := JsMap.t ActivationNode.t.

Record World := mkWorld {
  network : Network;
  coherenceScore : number;
  chaosThreshold : number;
  (** the file at [networkPath], if it exists *)
  disk : option FileContent;
  (** number of [fs.writeFileSync] calls so far *)
  writes : nat;
  (** number of oracle readings consumed so far *)
  ticks : nat;
  (** the value of the k-th [Date.now()] reading *)
  clock : nat -> number;
  (** the id [createNode] builds from the k-th reading *)
  nodeId : nat -> string
}.

Definition set_network (net : Network) (w : World) : World :=
  mkWorld net (coherenceScore w) (chaosThreshold w) (disk w) (writes w)
          (ticks w) (clock w) (nodeId w).

Definition set_coherence (cs ct : number) (w : World) : World :=
  mkWorld (network w) cs ct (disk w) (writes w) (ticks w) (clock w) (nodeId w).

Definition tick (w : World) : World :=
  mkWorld (network w) (coherenceScore w) (chaosThreshold w) (disk w) (writes w)
          (S (ticks w)) (clock w) (nodeId w).

Definition Date_now (w : World) : number * World := (clock w (ticks w), tick w).

(** [alpha] is never reassigned. *)
Definition alpha : number := 1.

(** A fresh instance: the field initialisers of the class. *)
Definition newInstance (d : option FileContent) (clk : nat -> number)
    (ids : nat -> string) : World :=
  mkWorld JsMap.empty 0 1.2 d 0 0 clk ids.

(** Mutation of the node a reference points to. *)
Definition update (r : string) (f : ActivationNode.t -> ActivationNode.t)
    (w : World) : World :=
  set_network (JsMap.modify (network w) r f) w.

(** The store invariant: unique ids, every node stored under its own id,
    every connection map with unique keys. *)
Definition wf_network (net : Network) : Prop :=
  NoDup (JsMap.keys net) /\
  forall k n, In (k, n) net ->
    ActivationNode.id n = k /\ NoDup (JsMap.keys (ActivationNode.connections n)).

(** ** Resonance matcher *)

Fixpoint sums (a b : Float32Array) (acc : number * number * number)
  : option (number * number * number) :=
  match a with
  | [] => Some acc
  | x :: a' =>
      match b with
      | [] => None (* b[i] is undefined: every sum becomes NaN *)
      | y :: b' =>
          let '(dotProduct, normA, normB) := acc in
          sums a' b' (dotProduct + x * y, normA + x * x, normB + y * y)
      end
  end.

(** [None] is NaN: a read past the end of [b], or 0/0 when a norm is zero
    (the dot product is then zero as well). *)
Definition cosineSimilarity (a b : Float32Array) : option number :=
  match sums a b (0, 0, 0) with
  | None => None
  | Some (dotProduct, normA, normB) =>
      let d := sqrt normA * sqrt normB in
      if Req_dec_T d 0 then None else Some (dotProduct / d)
  end.

(** The object literal of [createNode]. *)
Definition createdNode (id : string) (embedding : Float32Array)
    (semanticContent : option string) : ActivationNode.t :=
  ActivationNode.mk id 1.0 JsMap.empty 0.9 0.5 100 0 (Some embedding)
                    semanticContent.

Definition createNode (embedding : Float32Array) (semanticContent : option string)
    (w : World) : string * World :=
  let id := nodeId w (ticks w) in
  let node := createdNode id embedding semanticContent in
  (id, tick (set_network (JsMap.set (network w) id node) w)).

(** [NaN > threshold] is false. *)
Definition resonates (embedding : Float32Array) (node : ActivationNode.t)
  : option number :=
  match ActivationNode.embedding node with
  | None => None
  | Some e =>
      match cosineSimilarity embedding e with
      | Some similarity => if gtb similarity 0.7 then Some similarity else None
      | None => None
      end
  end.

(** The loop over [network.values()]: the store after the potentials are
    overwritten, and the references pushed. *)
Fixpoint resonantScan (embedding : Float32Array) (entries : Network)
  : Network * list string :=
  match entries with
  | [] => ([], [])
  | (k, node) :: rest =>
      let '(rest', resonantNodes) := resonantScan embedding rest in
      match resonates embedding node with
      | Some similarity =>
          ((k, ActivationNode.set_potential similarity node) :: rest',
           k :: resonantNodes)
      | None => ((k, node) :: rest', resonantNodes)
      end
  end.

Definition findResonantNodes (embedding : Float32Array)
    (originalText : option string) (w : World) : list string * World :=
  let '(net', resonantNodes) := resonantScan embedding (network w) in
  let w' := set_network net' w in
  match resonantNodes with
  | [] =>
      let '(newNode, w'') := createNode embedding originalText w' in
      ([newNode], w'')
  | _ => (resonantNodes, w')
  end.

(** ** Metrics: coherence *)

Definition connectionBetween (net : Network) (a b : string)
  : option NodeConnection.t :=
  match JsMap.get net a with
  | Some n => JsMap.get (ActivationNode.connections n) b
  | None => None
  end.

Fixpoint coherenceLoop (net : Network) (path : list string)
    (totalStrength : number) (connections : nat) : number * nat :=
  match path with
  | a :: (b :: _) as rest =>
      match connectionBetween net a b with
      | Some connection =>
          coherenceLoop net rest
            (totalStrength + Rabs (NodeConnection.weight connection))
            (S connections)
      | None => coherenceLoop net rest totalStrength connections
      end
  | _ => (totalStrength, connections)
  end.

Definition calculateCoherence (net : Network) (path : list string) : number :=
  if (List.length path <? 2)%nat then 1.0
  else
    let '(totalStrength, connections) := coherenceLoop net path 0 0 in
    if (0 <? connections)%nat then totalStrength / INR connections else 0.

Definition updateCoherenceMetrics (path : list string) (w : World) : World :=
  if (List.length path <? 2)%nat then w
  else
    let instantCoherence := calculateCoherence (network w) path in
    let cs := 0.9 * coherenceScore w + 0.1 * instantCoherence in
    let ct :=
      if ltb cs 0.5 && gtb (chaosThreshold w) 1.0
      then chaosThreshold w * 0.99 else chaosThreshold w in
    set_coherence cs ct w.

(** ** Propagation engine *)

Definition Set_has (s : list string) (x : string) : bool :=
  existsb (String.eqb x) s.

(** The three local collections of [propagateActivation]. *)
Record Front := mkFront {
  visited : list string;
  wavefront : list string;
  activatedPath : list string
}.

(** One iteration of the inner [for] over the connections of [current]. *)
Definition spreadTo (params : ActivationParams.t) (isEdgeOfChaos : bool)
    (now : number) (current : string) (st : World * Front)
    (entry : string * NodeConnection.t) : World * Front :=
  let '(w, fr) := st in
  let '(connectedId, connection) := entry in
  if Set_has (visited fr) connectedId then st
  else
    match JsMap.get (network w) connectedId, JsMap.get (network w) current with
    | Some connectedNode, Some cur =>
        let baseActivation :=
          ActivationNode.potential cur * NodeConnection.weight connection
          * ActivationParams.spread params in
        let alignmentBonus :=
          if isEdgeOfChaos then alpha * tanh baseActivation else 0 in
        let activation := baseActivation + alignmentBonus in
        let p := ActivationNode.potential connectedNode + activation in
        let w1 := update connectedId (ActivationNode.set_potential p) w in
        if gtb p (ActivationParams.threshold params) then
          let w2 := update connectedId (ActivationNode.set_lastFired now) w1 in
          let fr' :=
            mkFront (visited fr ++ [connectedId])
                    (wavefront fr ++ [connectedId])
                    (activatedPath fr ++ [connectedId]) in
          (updateCoherenceMetrics (activatedPath fr') w2, fr')
        else (w1, fr)
    | _, _ => st
    end.

(** [current.potential *= params.decay]. *)
Definition decayed (params : ActivationParams.t) (n : ActivationNode.t)
  : ActivationNode.t :=
  ActivationNode.set_potential
    (ActivationNode.potential n * ActivationParams.decay params) n.

(** The body of the [while] loop for the node just shifted off the
    wavefront. *)
Definition visit (params : ActivationParams.t) (isEdgeOfChaos : bool)
    (current : string) (w : World) (fr : Front) : World * Front :=
  let w1 := update current (decayed params) w in
  let '(now, w2) := Date_now w1 in
  match JsMap.get (network w2) current with
  | Some cur =>
      if ltb (now - ActivationNode.lastFired cur)
             (ActivationNode.refractoryPeriod cur)
      then (w2, fr)
      else
        fold_left (spreadTo params isEdgeOfChaos now current)
                  (ActivationNode.connections cur) (w2, fr)
  | None => (w2, fr)
  end.

(** The [while] loop; [fuel] bounds the number of iterations. *)
Fixpoint propagateLoop (fuel : nat) (params : ActivationParams.t)
    (isEdgeOfChaos : bool) (w : World) (fr : Front) : option (World * Front) :=
  match wavefront fr with
  | [] => Some (w, fr)
  | current :: rest =>
      match fuel with
      | O => None
      | S fuel' =>
          let '(w', fr') :=
            visit params isEdgeOfChaos current w
                  (mkFront (visited fr) rest (activatedPath fr)) in
          propagateLoop fuel' params isEdgeOfChaos w' fr'
      end
  end.

(** Computed once, before the loop. *)
Definition isEdgeOfChaos (w : World) : bool :=
  gtb (chaosThreshold w) 1.0 && ltb (chaosThreshold w) 1.5.

Definition defaultParams : ActivationParams.t := ActivationParams.mk 0.5 0.5 0.8.

(** Every node enters the wavefront at most once after the seeds, so the
    loop runs at most [length startNodes + size network] times. *)
Definition propagateActivation (startNodes : list string)
    (params : ActivationParams.t) (w : World) : option (list string * World) :=
  match
    propagateLoop (List.length startNodes + JsMap.size (network w)) params
                  (isEdgeOfChaos w) w (mkFront startNodes startNodes startNodes)
  with
  | Some (w', fr) => Some (activatedPath fr, w')
  | None => None
  end.

(** ** Plasticity updater *)

Definition newConnection (now : number) : NodeConnection.t :=
  NodeConnection.mk 0.1 now 0.1.

Definition setConnection (a b : string) (c : NodeConnection.t) (w : World)
  : World :=
  update a (fun n =>
    ActivationNode.set_connections
      (JsMap.set (ActivationNode.connections n) b c) n) w.

(** [connections.get(id)], creating and storing the default connection
    when there is none. *)
Definition getOrCreate (a b : string) (w : World) : NodeConnection.t * World :=
  match connectionBetween (network w) a b with
  | Some connection => (connection, w)
  | None =>
      let '(now, w1) := Date_now w in
      let connection := newConnection now in
      (connection, setConnection a b connection w1)
  end.

Definition potentialOf (w : World) (r : string) : number :=
  match JsMap.get (network w) r with
  | Some n => ActivationNode.potential n
  | None => 0
  end.

(** The body of the Hebbian loop for the pair [(current, next)]. *)
Definition strengthenPair (current next : string) (w : World) : World :=
  let '(connection, w1) := getOrCreate current next w in
  let strengthening :=
    NodeConnection.plasticityRate connection * potentialOf w1 current
    * potentialOf w1 next in
  let '(now, w2) := Date_now w1 in
  let w3 :=
    setConnection current next
      (NodeConnection.mk
         (tanh (NodeConnection.weight connection + strengthening))
         now (NodeConnection.plasticityRate connection))
      w2 in
  let '(reverseConnection, w4) := getOrCreate next current w3 in
  setConnection next current
    (NodeConnection.set_weight reverseConnection
       (tanh (NodeConnection.weight reverseConnection + strengthening * 0.7)))
    w4.

Fixpoint hebbian (activatedPath : list string) (w : World) : World :=
  match activatedPath with
  | current :: (next :: _) as rest => hebbian rest (strengthenPair current next w)
  | _ => w
  end.

(** What the anti-Hebbian pass does to the connection stored under
    [connId]. *)
Definition weakened (activatedPath : list string) (connId : string)
    (conn : NodeConnection.t) : NodeConnection.t :=
  if Set_has activatedPath connId then conn
  else NodeConnection.set_weight conn (NodeConnection.weight conn * 0.99).

Definition weaken (activatedPath : list string)
    (entry : string * NodeConnection.t) : string * NodeConnection.t :=
  let '(connId, conn) := entry in (connId, weakened activatedPath connId conn).

(** The inner loop of the anti-Hebbian pass, for one path node. *)
Definition weakenUnused (activatedPath : list string) (node : string) (w : World)
  : World :=
  update node (fun n =>
    ActivationNode.set_connections
      (map (weaken activatedPath) (ActivationNode.connections n)) n) w.

Definition antiHebbian (activatedPath : list string) (w : World) : World :=
  fold_left (fun w node => weakenUnused activatedPath node w) activatedPath w.

Definition strengthenPath (activatedPath : list string) (w : World) : World :=
  antiHebbian activatedPath (hebbian activatedPath w).

(** ** Persistence codec *)

Definition encodeNode (node : ActivationNode.t) : NodeData.t :=
  NodeData.mk
    (ActivationNode.potential node) (ActivationNode.decay node)
    (ActivationNode.threshold node) (ActivationNode.refractoryPeriod node)
    (ActivationNode.lastFired node)
    (ActivationNode.connections node)
    (ActivationNode.embedding node)
    (match ActivationNode.semanticContent node with
     | Some s => if String.eqb s EmptyString then None else Some s
     | None => None
     end).

(** The loop filling the plain object [networkData]. *)
Definition encodeNetwork (net : Network) : NetworkData :=
  fold_left
    (fun data '(id, node) => JsObject.assign data id (Shaped (encodeNode node)))
    net JsMap.empty.

Definition saveNetwork (w : World) : World :=
  mkWorld (network w) (coherenceScore w) (chaosThreshold w)
          (Some (Document (encodeNetwork (network w)))) (S (writes w))
          (ticks w) (clock w) (nodeId w).

(** [new Map(entries)]. *)
Definition Map_of (entries : list (string * NodeConnection.t))
  : JsMap.t NodeConnection.t :=
  fold_left (fun m '(k, c) => JsMap.set m k c) entries JsMap.empty.

Definition decodeNode (id : string) (nodeData : NodeData.t) : ActivationNode.t :=
  ActivationNode.mk id
    (NodeData.potential nodeData)
    (Map_of (NodeData.connections nodeData))
    (NodeData.decay nodeData) (NodeData.threshold nodeData)
    (NodeData.refractoryPeriod nodeData) (NodeData.lastFired nodeData)
    (NodeData.embedding nodeData)
    (match NodeData.semanticContent nodeData with
     | Some s => if String.eqb s EmptyString then None else Some s
     | None => None
     end).

Inductive Exn :=
| ENOENT       (* fs.readFileSync: no such file *)
| SyntaxError  (* JSON.parse *)
| TypeError.   (* building a node from an unbuildable entry *)

(** The loop over [Object.entries(data)]: the store it has filled when it
    ends or throws, and what it threw. *)
Fixpoint decodeInto (net : Network) (data : NetworkData)
  : Network * option Exn :=
  match data with
  | [] => (net, None)
  | (id, Shaped nodeData) :: rest =>
      decodeInto (JsMap.set net id (decodeNode id nodeData)) rest
  | (id, Unbuildable) :: _ => (net, Some TypeError)
  end.

(** How a call ends, and the state it leaves behind. *)
Inductive Outcome :=
| Returns (w : World)
| Throws (e : Exn) (w : World).

Definition try_catch (body : Outcome) (handler : Exn -> World -> Outcome)
  : Outcome :=
  match body with
  | Returns w => Returns w
  | Throws e w => handler e w
  end.

Definition andThen (first : Outcome) (next : World -> Outcome) : Outcome :=
  match first with
  | Returns w => next w
  | Throws e w => Throws e w
  end.

(** The [try] block of [loadNetwork]. *)
Definition loadNetwork_try (w : World) : Outcome :=
  match disk w with
  | None => Throws ENOENT w
  | Some (Unparsable _) => Throws SyntaxError w
  | Some (Document data) =>
      let '(net, thrown) := decodeInto (network w) data in
      match thrown with
      | None => Returns (set_network net w)
      | Some e => Throws e (set_network net w)
      end
  end.

(** The [catch] clause only logs. *)
Definition loadNetwork (w : World) : Outcome :=
  try_catch (loadNetwork_try w) (fun _ w' => Returns w').

Definition existsSync (w : World) : bool :=
  match disk w with Some _ => true | None => false end.

(** The persistence part of [initialize]; creating the client and
    recording the model names touches neither the store nor the file. *)
Definition initialize (w : World) : Outcome :=
  andThen (if existsSync w then loadNetwork w else Returns w)
          (fun w' => Returns w').

(** ** Orchestration: [learn]

    On an initialised instance.  [embedding] is what the embedding service
    returned for [experience]; a failing service call throws before the
    store is touched. *)
Definition learn (experience : string) (embedding : Float32Array) (w : World)
  : World :=
  let '(resonantNodes, w1) := findResonantNodes embedding (Some experience) w in
  let w2 := strengthenPath resonantNodes w1 in
  if (JsMap.size (network w2) mod 10 =? 0)%nat then saveNetwork w2 else w2.

(** ** Specification-level notions *)

(** The forward connections between consecutive path nodes that exist. *)
Fixpoint consecutiveEdges (net : Network) (path : list string)
  : list NodeConnection.t :=
  match path with
  | a :: (b :: _) as rest =>
      match connectionBetween net a b with
      | Some c => c :: consecutiveEdges net rest
      | None => consecutiveEdges net rest
      end
  | _ => []
  end.

Definition sumAbsWeight (cs : list NodeConnection.t) : number :=
  fold_right (fun c acc => Rabs (NodeConnection.weight c) + acc) 0 cs.

Definition meanAbsWeight (cs : list NodeConnection.t) : number :=
  sumAbsWeight cs / INR (List.length cs).

(** ** Sample stores *)

(** A node as [createNode] makes it, with the given potential and
    connections. *)
Definition sampleNode (id : string) (potential : number)
    (connections : JsMap.t NodeConnection.t) (embedding : Float32Array)
  : ActivationNode.t :=
  ActivationNode.mk id potential connections 0.9 0.5 100 0 (Some embedding)
                    (Some id).

Definition net_a_to_b : Network :=
  [ ("a"%string,
     sampleNode "a" 1 [("b"%string, NodeConnection.mk 0.5 0 0.1)] [1; 0]);
    ("b"%string, sampleNode "b" 1 [] [0; 1]) ].

(** An id that the plain object of [saveNetwork] keeps where the store
    has it: neither "__proto__" nor an array index.  The ids [createNode]
    builds, which begin with "node_", are such. *)
Definition plain_id (k : string) : Prop :=
  k <> "__proto__"%string /\ JsObject.arrayIndex k = None.

Definition plain_ids (net : Network) : Prop :=
  forall k, In k (JsMap.keys net) -> plain_id k.

(** A store as a hand-written file can leave it: one node under
    "__proto__" and two under array indices out of order. *)
Definition net_odd_ids : Network :=
  [ ("b"%string, sampleNode "b" 1 [] [0; 1]);
    ("__proto__"%string, sampleNode "__proto__" 1 [] [1; 0]);
    ("7"%string, sampleNode "7" 1 [] [1; 1]);
    ("3"%string, sampleNode "3" 1 [] [1; 2]) ].

(** A fresh instance started on the file [saveNetwork] wrote. *)
Definition reload (w : World) : Outcome :=
  initialize (newInstance (disk (saveNetwork w)) (clock w) (nodeId w)).

(** What a reload does to [semanticContent]. *)
Definition dropEmpty (s : option string) : option string :=
  match s with
  | Some t => if String.eqb t EmptyString then None else Some t
  | None => None
  end.

(** The node a reload gives back for a stored node. *)
Definition reloaded (n : ActivationNode.t) : ActivationNode.t :=
  ActivationNode.mk (ActivationNode.id n) (ActivationNode.potential n)
    (ActivationNode.connections n) (ActivationNode.decay n)
    (ActivationNode.threshold n) (ActivationNode.refractoryPeriod n)
    (ActivationNode.lastFired n) (ActivationNode.embedding n)
    (dropEmpty (ActivationNode.semanticContent n)).



Definition sampleClock : nat -> number := fun k => 1000 + INR k.

Definition sampleIds : nat -> string :=
  fun k => String.append "node_" (String (Ascii.ascii_of_nat (97 + k)) "").

Definition freshWorld : World := newInstance None sampleClock sampleIds.


Definition world_a_to_b : World :=
  mkWorld net_a_to_b 0 1.2 None 0 0 sampleClock sampleIds.

Definition world_odd_ids : World :=
  mkWorld net_odd_ids 0 1.2 None 0 0 sampleClock sampleIds.

(** What the matcher does to a stored node. *)
Definition rescored (embedding : Float32Array) (n : ActivationNode.t)
  : ActivationNode.t :=
  match resonates embedding n with
  | Some similarity => ActivationNode.set_potential similarity n
  | None => n
  end.

(** Everything of the instance but the nodes' contents and the oracle
    position: what neither matching, nor propagation, nor plasticity
    touches. *)
Definition same_shell (w w' : World) : Prop :=
  JsMap.keys (network w') = JsMap.keys (network w) /\
  disk w' = disk w /\ writes w' = writes w /\
  clock w' = clock w /\ nodeId w' = nodeId w.

(** The test at the end of [learn]. *)
Definition saveDue (w : World) : bool :=
  (JsMap.size (network w) mod 10 =? 0)%nat.

(** ** A run of [learn] calls *)

Definition callSaves (experience : string) (embedding : Float32Array)
    (w : World) : bool :=
  negb (writes (learn experience embedding w) =? writes w)%nat.

(** For each call of the run, whether it wrote the file. *)
Fixpoint learnAll (calls : list (string * Float32Array)) (w : World)
  : list bool :=
  match calls with
  | [] => []
  | (experience, embedding) :: rest =>
      callSaves experience embedding w
      :: learnAll rest (learn experience embedding w)
  end.

(** The cadence the specification states: call number 10, 20, ... and
    no other writes the file. *)
Definition every_tenth (n : nat) : list bool :=
  map (fun i => (S i mod 10 =? 0)%nat) (seq 0 n).

Definition save_cadence (calls : list (string * Float32Array)) (w : World)
  : Prop :=
  learnAll calls w = every_tenth (List.length calls).

(** Ten mutually orthogonal embeddings and the texts they stand for. *)
Definition axis (i : nat) : Float32Array :=
  map (fun j => if (j =? i)%nat then 1 else 0) (seq 0 10).

Definition conceptName (i : nat) : string :=
  String.append "concept " (String (Ascii.ascii_of_nat (48 + i)) "").

Definition tenConcepts : list (string * Float32Array) :=
  map (fun i => (conceptName i, axis i)) (seq 0 10).

(** Ten new concepts, then the first one once more. *)
Definition elevenCalls : list (string * Float32Array) :=
  tenConcepts ++ [(conceptName 0, axis 0)].

(** The instance after the first [k] of those calls. *)
Definition storeAfter (k : nat) : World :=
  let net :=
    map (fun i => (sampleIds i,
                   createdNode (sampleIds i) (axis i) (Some (conceptName i))))
        (seq 0 k) in
  mkWorld net 0 1.2
          (if (k =? 10)%nat then Some (Document (encodeNetwork net)) else None)
          (if (k =? 10)%nat then 1 else 0) k sampleClock sampleIds.

(** ** Frame of propagation *)

(** Two states of a node that differ at most in [potential] and
    [lastFired]. *)
Definition same_but_activation (n n' : ActivationNode.t) : Prop :=
  ActivationNode.id n' = ActivationNode.id n /\
  ActivationNode.connections n' = ActivationNode.connections n /\
  ActivationNode.decay n' = ActivationNode.decay n /\
  ActivationNode.threshold n' = ActivationNode.threshold n /\
  ActivationNode.refractoryPeriod n' = ActivationNode.refractoryPeriod n /\
  ActivationNode.embedding n' = ActivationNode.embedding n /\
  ActivationNode.semanticContent n' = ActivationNode.semanticContent n.

(** Same nodes under the same keys in the same order, each changed at most
    in [potential] and [lastFired]. *)
Definition activation_only (net net' : Network) : Prop :=
  Forall2 (fun e e' => fst e' = fst e /\ same_but_activation (snd e) (snd e'))
          net net'.

(** Keys of the store not yet visited: what can still enter the
    wavefront. *)
Definition unvisited (net : Network) (visited : list string) : nat :=
  List.length (filter (fun k => negb (Set_has visited k)) (JsMap.keys net)).

Definition budget (w : World) (fr : Front) : nat :=
  List.length (wavefront fr) + unvisited (network w) (visited fr).

(** ** Plasticity: samples and the decay statement *)

Definition net_unconnected : Network :=
  [ ("a"%string, sampleNode "a" 1 [] [1; 0]);
    ("b"%string, sampleNode "b" 1 [] [0; 1]) ].

Definition world_unconnected : World :=
  mkWorld net_unconnected 0 1.2 None 0 0 sampleClock sampleIds.




(** ** Weight bound *)

Definition weight_in_range (c : NodeConnection.t) : Prop :=
  -1 < NodeConnection.weight c < 1.

Definition weights_bounded (w : World) : Prop :=
  forall k n, In (k, n) (network w) ->
  forall t c, In (t, c) (ActivationNode.connections n) -> weight_in_range c.



(** One engine operation on the instance. *)
Inductive engineStep (w : World) : World -> Prop :=
| step_match (embedding : Float32Array) (text : option string) :
    engineStep w (snd (findResonantNodes embedding text w))
| step_propagate (startNodes : list string) (params : ActivationParams.t)
    (path : list string) (w' : World) :
    propagateActivation startNodes params w = Some (path, w') ->
    engineStep w w'
| step_strengthen (path : list string) :
    engineStep w (strengthenPath path w)
| step_learn (experience : string) (embedding : Float32Array) :
    engineStep w (learn experience embedding w)
| step_save :
    engineStep w (saveNetwork w).

(** Any finite sequence of engine operations. *)
Inductive engineRun (w : World) : World -> Prop :=
| run_nil : engineRun w w
| run_snoc (w1 w2 : World) :
    engineRun w w1 -> engineStep w1 w2 -> engineRun w w2.


(** ** Propagation over one edge *)

(** The end-to-end scenario: two nodes as [createNode] makes them, then
    [strengthenPath] on the pair, once. *)
Definition world_strengthened : World :=
  strengthenPath ["a"; "b"]%string world_unconnected.

(** The gain the specification promises for [b] when propagation is
    seeded at [a] in the broad regime. *)
Definition propagation_gain (w : World) (a b : string) : Prop :=
  forall nA nB c path w',
    JsMap.get (network w) a = Some nA ->
    JsMap.get (network w) b = Some nB ->
    connectionBetween (network w) a b = Some c ->
    ltb (clock w (ticks w) - ActivationNode.lastFired nA)
        (ActivationNode.refractoryPeriod nA) = false ->
    propagateActivation [a] broad w = Some (path, w') ->
    ActivationNode.potential nB
    + ActivationNode.potential nA * NodeConnection.weight c * 0.8
    <= potentialOf w' b.

(** ** Paths the engine builds *)

(** A path of distinct stored nodes. *)
Definition path_of_distinct_nodes (w : World) (path : list string) : Prop :=
  NoDup path /\ forall k, In k path -> In k (JsMap.keys (network w)).

(** The invariant of the propagation loop on its local collections. *)
Definition front_ok (w : World) (fr : Front) : Prop :=
  activatedPath fr = visited fr /\ path_of_distinct_nodes w (visited fr).

(** * The rest of the engine *)

(** ** Similarity *)

(** The squared norm of a vector. *)
Definition sumSquares (a : Float32Array) : number :=
  fold_right (fun x acc => x * x + acc) 0 a.

(** ** Metrics: resonance, stability, narrative *)

(** The node objects a path holds, read through the references. *)
Definition nodesAt (net : Network) (path : list string)
  : list ActivationNode.t :=
  flat_map (fun r => match JsMap.get net r with
                     | Some n => [n]
                     | None => []
                     end) path.

Definition sumPotential (nodes : list ActivationNode.t) : number :=
  fold_left (fun sum node => sum + ActivationNode.potential node) nodes 0.

(** [None] is NaN: 0/0 on an empty path, which [Math.min] hands on. *)
Definition calculateResonance (path : list ActivationNode.t) : option number :=
  match path with
  | [] => None
  | _ => Some (Rmin (sumPotential path / INR (List.length path)) 1.0)
  end.

(** The filter [now - node.lastFired < window]. *)
Definition firedWithin (window now : number) (node : ActivationNode.t) : bool :=
  ltb (now - ActivationNode.lastFired node) window.

Definition calculateStability (path : list ActivationNode.t) (w : World)
  : option number * World :=
  let '(now, w1) := Date_now w in
  let recentFirings := List.length (filter (firedWithin 1000 now) path) in
  (match path with
   | [] => None
   | _ => Some (INR recentFirings / INR (List.length path))
   end, w1).

(** The truthiness test [node => node.semanticContent]. *)
Definition hasContent (node : ActivationNode.t) : bool :=
  match ActivationNode.semanticContent node with
  | Some s => negb (String.eqb s EmptyString)
  | None => false
  end.

Definition contentOf (node : ActivationNode.t) : string :=
  match ActivationNode.semanticContent node with
  | Some s => s
  | None => EmptyString
  end.

(** The separator of the narrative: a space, the arrow U+2192 (here in
    UTF-8) and a space. *)
Definition arrow : string :=
  String (Ascii.ascii_of_nat 32)
    (String (Ascii.ascii_of_nat 226)
       (String (Ascii.ascii_of_nat 134)
          (String (Ascii.ascii_of_nat 146)
             (String (Ascii.ascii_of_nat 32) EmptyString)))).

Definition semanticParts (path : list ActivationNode.t) : list string :=
  map contentOf (filter hasContent path).

Definition narrativeOf (path : list ActivationNode.t) : string :=
  if (0 <? List.length (semanticParts path))%nat
  then String.concat arrow (semanticParts path)
  else "No semantic content available"%string.

Module ActivationPattern.
Record t := mk {
  nodes : list string;
  coherence : number;
  resonance : option number;
  stability : option number;
  narrative : string
}.
End ActivationPattern.

Definition extractPattern (activatedPath : list string) (w : World)
  : ActivationPattern.t * World :=
  let path := nodesAt (network w) activatedPath in
  let coherence := calculateCoherence (network w) activatedPath in
  let resonance := calculateResonance path in
  let '(stability, w1) := calculateStability path w in
  (ActivationPattern.mk activatedPath coherence resonance stability
                        (narrativeOf path), w1).

(** ** Metrics of the whole store *)

Definition getNetworkSize (w : World) : nat := JsMap.size (network w).

Definition calculateGlobalResonance (w : World) : number :=
  if (JsMap.size (network w) =? 0)%nat then 0
  else Rmin (sumPotential (JsMap.values (network w))
             / INR (JsMap.size (network w))) 1.0.

Definition calculateGlobalStability (w : World) : number * World :=
  if (JsMap.size (network w) =? 0)%nat then (0, w)
  else
    let '(now, w1) := Date_now w in
    let recentActivations :=
      List.length (filter (firedWithin 5000 now) (JsMap.values (network w))) in
    (INR recentActivations / INR (JsMap.size (network w)), w1).

Module Metrics.
Record t := mk { coherence : number; resonance : number; stability : number }.
End Metrics.

Definition getMetrics (w : World) : Metrics.t * World :=
  let coherence := coherenceScore w in
  let resonance := calculateGlobalResonance w in
  let '(stability, w1) := calculateGlobalStability w in
  (Metrics.mk coherence resonance stability, w1).

(** ** Orchestration: [think]

    The completion service is outside the model: a call for a model name
    and a prompt throws (with the text the thrown value prints as), or
    returns a result whose content may be absent or empty. *)
Inductive Completion :=
| Rejected (error : string)
| Completed (content : option string).

Definition LLM : Type := string -> string -> Completion.

Definition fast : string := "google/gemma-3n-e4b".
Definition reason : string := "openai/gpt-oss-20b".

Definition quoted (s : string) : string :=
  String (Ascii.ascii_of_nat 34) (s ++ String (Ascii.ascii_of_nat 34) EmptyString).

Definition promptFor (narrative : string) : string :=
  ("Based on this neural activation pathway pattern: " ++ quoted narrative
   ++ ", provide a relevant and thoughtful response. You are an advanced AI with activation-based memory responding to neural pathway patterns.")%string.

(** On an initialised instance: the answer, or the message of the error
    thrown. *)
Definition generateResponse (respond : LLM) (narrative modelName : string)
  : string + string :=
  let failed (error : string) : string + string :=
    inr ("LM Studio response generation failed for model " ++ modelName
         ++ ": " ++ error)%string in
  let empty :=
    ("Error: Model " ++ modelName ++ " returned empty response")%string in
  match respond modelName (promptFor narrative) with
  | Rejected error => failed error
  | Completed None => failed empty
  | Completed (Some content) =>
      if String.eqb content EmptyString then failed empty else inl content
  end.

(** On an initialised instance.  [embedding] is what the embedding service
    returned for [input]; a failing service call throws before the store is
    touched.  The result is the answer, or the message of the error thrown
    by [generateResponse], with the state the call leaves behind. *)
Definition think (respond : LLM) (input : string) (embedding : Float32Array)
    (w : World) : option ((string + string) * World) :=
  let '(resonantNodes, w1) := findResonantNodes embedding (Some input) w in
  match propagateActivation resonantNodes broad w1 with
  | None => None
  | Some (system1Path, w2) =>
      let '(pattern, w3) := extractPattern system1Path w2 in
      if gtb (ActivationPattern.coherence pattern) 0.7 then
        match generateResponse respond (ActivationPattern.narrative pattern)
                               fast with
        | inl response => Some (inl response, strengthenPath system1Path w3)
        | inr error => Some (inr error, w3)
        end
      else
        match propagateActivation resonantNodes focused w3 with
        | None => None
        | Some (system2Path, w4) =>
            let '(system2Pattern, w5) := extractPattern system2Path w4 in
            match generateResponse respond
                    (ActivationPattern.narrative system2Pattern) reason with
            | inl response => Some (inl response, strengthenPath system1Path w5)
            | inr error => Some (inr error, w5)
            end
        end
  end.

(** ** The public operations *)

(** One call of the public interface on an initialised instance. *)
Inductive apiStep (w : World) : World -> Prop :=
| api_learn (experience : string) (embedding : Float32Array) :
    apiStep w (learn experience embedding w)
| api_think (respond : LLM) (input : string) (embedding : Float32Array)
    (result : string + string) (w' : World) :
    think respond input embedding w = Some (result, w') ->
    apiStep w w'
| api_save :
    apiStep w (saveNetwork w)
| api_metrics :
    apiStep w (snd (getMetrics w)).

Inductive apiRun (w : World) : World -> Prop :=
| api_nil : apiRun w w
| api_snoc (w1 w2 : World) :
    apiRun w w1 -> apiStep w1 w2 -> apiRun w w2.

(** ** Invariants of the public operations *)




(** What a node is created with and no operation assigns again. *)
Definition same_identity (n n' : ActivationNode.t) : Prop :=
  ActivationNode.id n' = ActivationNode.id n /\
  ActivationNode.embedding n' = ActivationNode.embedding n /\
  ActivationNode.semanticContent n' = ActivationNode.semanticContent n /\
  ActivationNode.decay n' = ActivationNode.decay n /\
  ActivationNode.threshold n' = ActivationNode.threshold n /\
  ActivationNode.refractoryPeriod n' = ActivationNode.refractoryPeriod n.

(** The same nodes in the same order, the generator where it was or
    further. *)
Definition kept (w w' : World) : Prop :=
  nodeId w' = nodeId w /\ (ticks w <= ticks w')%nat /\
  JsMap.keys (network w') = JsMap.keys (network w) /\
  forall k n, JsMap.get (network w) k = Some n ->
    exists n', JsMap.get (network w') k = Some n' /\ same_identity n n'.

(** The store of [w] continues that of [w0]: the ids of [w0] first, in
    their order, each node with what it was created with. *)
Definition extends (w0 w : World) : Prop :=
  (exists added,
     JsMap.keys (network w) = JsMap.keys (network w0) ++ added) /\
  forall k n, JsMap.get (network w0) k = Some n ->
    exists n', JsMap.get (network w) k = Some n' /\ same_identity n n'.

(** The identifiers the generator has yet to yield are pairwise distinct
    and not in use. *)
Definition fresh_ids (w : World) : Prop :=
  (forall i j, nodeId w i = nodeId w j -> i = j) /\
  forall i, (ticks w <= i)%nat -> ~ In (nodeId w i) (JsMap.keys (network w)).

(** An identifier generator that never repeats itself: "node_", then one
    "i" per identifier already drawn. *)
Fixpoint tally (k : nat) : string :=
  match k with
  | O => EmptyString
  | S k' => String (Ascii.ascii_of_nat 105) (tally k')
  end.

Definition tallyIds : nat -> string := fun k => String.append "node_" (tally k).

Definition tallyWorld : World := newInstance None sampleClock tallyIds.



(** ** Where activation can go *)

(** Some stored node has a connection to [x]. *)
Definition is_target (net : Network) (x : string) : Prop :=
  exists r n, In (r, n) net /\ In x (JsMap.keys (ActivationNode.connections n)).

(** The seeds decayed one after the other, one reading of the clock
    each. *)
Definition decaySeeds (params : ActivationParams.t) (seeds : list string)
    (w : World) : World :=
  fold_left (fun w r => tick (update r (decayed params) w)) seeds w.

(** ** What plasticity touches *)

(** The same node with a connection map that kept its entries' keys, in
    their order, and may have gained some. *)
Definition rewired (n n' : ActivationNode.t) : Prop :=
  n' = ActivationNode.set_connections (ActivationNode.connections n') n /\
  exists added,
    JsMap.keys (ActivationNode.connections n')
    = JsMap.keys (ActivationNode.connections n) ++ added.

Definition connections_only (w w' : World) : Prop :=
  JsMap.keys (network w') = JsMap.keys (network w) /\
  (forall k n, JsMap.get (network w) k = Some n ->
     exists n', JsMap.get (network w') k = Some n' /\ rewired n n') /\
  coherenceScore w' = coherenceScore w /\
  chaosThreshold w' = chaosThreshold w /\
  disk w' = disk w /\ writes w' = writes w.

(** Two nodes connected both ways. *)
Definition net_both_ways : Network :=
  [ ("a"%string,
     sampleNode "a" 1 [("b"%string, NodeConnection.mk 0.5 0 0.1)] [1; 0]);
    ("b"%string,
     sampleNode "b" 1 [("a"%string, NodeConnection.mk 0.3 7 0.2)] [0; 1]) ].

Definition world_both_ways : World :=
  mkWorld net_both_ways 0 1.2 None 0 0 sampleClock sampleIds.

(** The two connected nodes after learning a text whose embedding is that
    of the first: the matcher sets the potential of "a", the path is
    ["a"], and the decay pass reaches the connection from "a" to "b". *)
Definition world_relearned : World := learn "x" [1; 0] world_both_ways.


(** A completion service that answers every prompt with the name of the
    model asked. *)
Definition parrot : LLM := fun modelName _ => Completed (Some modelName).

(** ** The public methods with their service calls, and the command line
    entry *)

(** The embedding service: the vector for a text, or the text the value
    it throws prints as. *)
Definition Embedder : Type := string -> Float32Array + string.

Inductive TaskType := ForLearn | ForThink | ForCluster.

(** On an initialised instance. *)
Definition embedText (embed : Embedder) (text : string) (taskType : TaskType)
  : Float32Array + string :=
  let prefixedText :=
    match taskType with
    | ForLearn => ("search_document: " ++ text)%string
    | ForThink => ("search_query: " ++ text)%string
    | ForCluster => ("clustering: " ++ text)%string
    end in
  match embed prefixedText with
  | inl embedding => inl embedding
  | inr error =>
      inr ("LM Studio embedding generation failed: " ++ error)%string
  end.

(** What a rejected promise carries. *)
Inductive Failure :=
| ErrorMessage (message : string)
| Raised (e : Exn).

(** How an asynchronous call settles, and the state it leaves behind. *)
Inductive Settled (A : Type) :=
| Resolves (value : A) (w : World)
| Rejects (failure : Failure) (w : World).

Arguments Resolves {A} value w.
Arguments Rejects {A} failure w.

Module Helen.

(** [learn(experience)] on an initialised instance. *)
Definition learn (embed : Embedder) (experience : string) (w : World)
  : Settled unit :=
  match embedText embed experience ForLearn with
  | inr message => Rejects (ErrorMessage message) w
  | inl embedding => Resolves tt (learn experience embedding w)
  end.

(** [think(input)] on an initialised instance. *)
Definition think (embed : Embedder) (respond : LLM) (input : string)
    (w : World) : option (Settled string) :=
  match embedText embed input ForThink with
  | inr message => Some (Rejects (ErrorMessage message) w)
  | inl embedding =>
      match think respond input embedding w with
      | None => None
      | Some (inl response, w') => Some (Resolves response w')
      | Some (inr message, w') => Some (Rejects (ErrorMessage message) w')
      end
  end.

End Helen.

(** [runCommand(command, argument)] in a process that finds the file
    content [d]; what goes to the console is not modelled. *)
Definition runCommand (embed : Embedder) (respond : LLM)
    (command argument : string) (d : option FileContent)
    (clk : nat -> number) (ids : nat -> string) : option (Settled unit) :=
  match initialize (newInstance d clk ids) with
  | Throws e helen => Some (Rejects (Raised e) helen)
  | Returns helen =>
      if String.eqb command "learn" then
        match Helen.learn embed argument helen with
        | Rejects failure helen' => Some (Rejects failure helen')
        | Resolves _ helen' => Some (Resolves tt (saveNetwork helen'))
        end
      else if String.eqb command "think" then
        match Helen.think embed respond argument helen with
        | None => None
        | Some (Rejects failure helen') => Some (Rejects failure helen')
        | Some (Resolves _ helen') => Some (Resolves tt (saveNetwork helen'))
        end
      else Some (Resolves tt (saveNetwork helen))
  end.

(** ** The graph stays closed *)

(** Every connection leads to a stored node other than its source. *)
Definition closed (w : World) : Prop :=
  forall k n, In (k, n) (network w) ->
  forall t, In t (JsMap.keys (ActivationNode.connections n)) ->
    In t (JsMap.keys (network w)) /\ t <> k.

(** Well formed and closed. *)
Definition sound (w : World) : Prop := wf_network (network w) /\ closed w.

(** ** Firing *)

(** Every node waiting in the wavefront has been marked visited, and the
    path is the visited list. *)
Definition front_sane (fr : Front) : Prop :=
  activatedPath fr = visited fr /\
  forall x, In x (wavefront fr) -> Set_has (visited fr) x = true.

(** The node [n] is [n0] with, at most, another potential that is not
    above [threshold]. *)
Definition below_threshold (threshold : number) (n0 n : ActivationNode.t)
  : Prop :=
  n = n0 \/
  (n = ActivationNode.set_potential (ActivationNode.potential n) n0 /\
   ActivationNode.potential n <= threshold).

(** * The weight updates on binary64 values

    The three assignments [strengthenPath] makes to a weight, on IEEE-754
    binary64 values, each operation rounding to nearest as JavaScript
    does. *)

Module Double.
Import PrimFloat.
Local Open Scope float_scope.

(** The weight and the plasticity rate of a connection as
    [strengthenPath] creates it. *)
Definition createdWeight : float := 0.1.

Definition createdRate : float := 0.1.

(** [connection.plasticityRate * current.potential * next.potential] *)
Definition strengthening (plasticityRate current next : float) : float :=
  plasticityRate * current * next.

(** [Math.tanh(connection.weight + strengthening)] *)
Definition forward (Math_tanh : float -> float) (weight s : float) : float :=
  Math_tanh (weight + s).

(** [Math.tanh(reverseConnection.weight + strengthening * 0.7)] *)
Definition reverse (Math_tanh : float -> float) (weight s : float) : float :=
  Math_tanh (weight + s * 0.7).

(** [conn.weight *= 0.99] *)
Definition weakened (weight : float) : float := weight * 0.99.


(** [x < y] on binary64 values; false when either is NaN. *)
Definition lt (x y : float) : Prop :=
  SpecFloat.SFltb (FloatOps.Prim2SF x) (FloatOps.Prim2SF y) = true.


(** The forward weight of a connection created between two nodes of
    potentials [current] and [next] and strengthened in the same call. *)
Definition firstForward (Math_tanh : float -> float) (current next : float)
  : float :=
  forward Math_tanh createdWeight (strengthening createdRate current next).

Definition firstReverse (Math_tanh : float -> float) (current next : float)
  : float :=
  reverse Math_tanh createdWeight (strengthening createdRate current next).


(** For a positive [strengthening], the reverse weight gains strictly less
    over the creation default than the forward weight. *)
Definition reverse_gains_less (Math_tanh : float -> float)
    (current next : float) : Prop :=
  lt 0 (strengthening createdRate current next) ->
  lt (firstReverse Math_tanh current next - createdWeight)
     (firstForward Math_tanh current next - createdWeight).


Definition tinyPotential : float := 1e-9.

Definition subnormalWeight : float := 2.4e-322.

End Double.
(** * Properties *)

(** ** Numbers *)

Lemma gtb_true (x y : number) : gtb x y = true <-> y < x.
Proof. unfold gtb; destruct (Rlt_dec y x); split; intros; try easy; lra. Qed.

Lemma gtb_false (x y : number) : gtb x y = false <-> x <= y.
Proof. unfold gtb; destruct (Rlt_dec y x); split; intros; try easy; lra. Qed.

Lemma ltb_true (x y : number) : ltb x y = true <-> x < y.
Proof. unfold ltb; destruct (Rlt_dec x y); split; intros; try easy; lra. Qed.

Lemma ltb_false (x y : number) : ltb x y = false <-> y <= x.
Proof. unfold ltb; destruct (Rlt_dec x y); split; intros; try easy; lra. Qed.

(** *** The saturating nonlinearity [Math.tanh] *)

Lemma cosh_pos (x : R) : 0 < cosh x.
Proof.
  unfold cosh. pose proof (exp_pos x). pose proof (exp_pos (- x)). lra.
Qed.


Lemma tanh_increasing (x y : R) : x < y -> tanh x < tanh y.
Proof.
  intros Hxy.
  pose proof (cosh_pos x) as Hcx. pose proof (cosh_pos y) as Hcy.
  assert (Hcross : sinh x * cosh y < sinh y * cosh x).
  { pose proof (exp_pos x) as Ha. pose proof (exp_pos (- x)) as Hb.
    pose proof (exp_pos y) as Hc. pose proof (exp_pos (- y)) as Hd.
    assert (Hac : exp x < exp y) by (apply exp_increasing; lra).
    assert (Hdb : exp (- y) < exp (- x)) by (apply exp_increasing; lra).
    unfold sinh, cosh. nra. }
  unfold tanh, Rdiv.
  apply Rmult_lt_reg_r with (cosh x * cosh y); [nra|].
  replace (sinh x * / cosh x * (cosh x * cosh y)) with (sinh x * cosh y)
    by (field; lra).
  replace (sinh y * / cosh y * (cosh x * cosh y)) with (sinh y * cosh x)
    by (field; lra).
  exact Hcross.
Qed.

Lemma tanh_0 : tanh 0 = 0.
Proof.
  unfold tanh, sinh. rewrite Ropp_0, exp_0. unfold Rdiv. lra.
Qed.

Lemma tanh_pos (x : R) : 0 < x -> 0 < tanh x.
Proof. intros H. rewrite <- tanh_0. now apply tanh_increasing. Qed.

Lemma tanh_nonneg (x : R) : 0 <= x -> 0 <= tanh x.
Proof.
  intros [H | <-]; [left; now apply tanh_pos | rewrite tanh_0; lra].
Qed.

Lemma cosh_monotone (c x : R) : 0 <= c -> c <= x -> cosh c <= cosh x.
Proof.
  intros Hc Hcx. unfold cosh.
  pose proof (exp_pos c) as Ha. pose proof (exp_pos x) as Hb.
  pose proof (exp_pos (- c)) as Hia. pose proof (exp_pos (- x)) as Hib.
  assert (Ea : exp c * exp (- c) = 1) by (rewrite <- exp_plus, Rplus_opp_r; apply exp_0).
  assert (Eb : exp x * exp (- x) = 1) by (rewrite <- exp_plus, Rplus_opp_r; apply exp_0).
  assert (Hab : exp c <= exp x).
  { destruct Hcx as [H | ->]; [left; now apply exp_increasing | lra]. }
  assert (H1 : 1 <= exp c).
  { rewrite <- exp_0. destruct Hc as [H | <-]; [left; now apply exp_increasing | lra]. }
  assert (Hia1 : exp (- c) <= 1) by nra.
  assert (Hib1 : exp (- x) <= 1) by nra.
  assert (Hd : exp (- c) - exp (- x) = exp (- c) * exp (- x) * (exp x - exp c)) by nra.
  assert (Hp : exp (- c) * exp (- x) <= 1) by nra.
  nra.
Qed.

Lemma tanh_le_id (x : R) : 0 <= x -> tanh x <= x.
Proof.
  intros [Hx | <-].
  - destruct (MVT_cor2 sinh cosh 0 x Hx) as (c & Hc & Hc0 & Hcx).
    + intros; apply derivable_pt_lim_sinh.
    + rewrite sinh_0, Rminus_0_r, Rminus_0_r in Hc.
      pose proof (cosh_pos x) as Hp. pose proof (cosh_pos c) as Hpc.
      assert (Hm : cosh c <= cosh x) by (apply cosh_monotone; lra).
      unfold tanh, Rdiv.
      apply Rmult_le_reg_r with (cosh x); [exact Hp|].
      rewrite Rmult_assoc, Rinv_l, Rmult_1_r by lra.
      rewrite Hc. nra.
  - unfold tanh, sinh. rewrite Ropp_0, exp_0. unfold Rdiv. lra.
Qed.

(** ** Facts about [JsMap] *)

Module JsMapFacts.
Import JsMap.
Section Facts.
Context {V : Type}.
Implicit Types (m : JsMap.t V) (k : string) (v : V).

Lemma get_set_same m k v : get (set m k v) k = Some v.
Proof.
  induction m as [|[k' v'] m IH]; simpl.
  - now rewrite String.eqb_refl.
  - destruct (String.eqb k' k) eqn:E; simpl; rewrite E; auto.
Qed.

Lemma get_set_other m k k' v : k <> k' -> get (set m k v) k' = get m k'.
Proof.
  intros Hne. induction m as [|[k0 v0] m IH]; simpl.
  - destruct (String.eqb k k') eqn:E; auto.
    apply String.eqb_eq in E. contradiction.
  - destruct (String.eqb k0 k) eqn:E; simpl.
    + apply String.eqb_eq in E. subst k0.
      destruct (String.eqb k k') eqn:E'; auto.
      apply String.eqb_eq in E'. contradiction.
    + destruct (String.eqb k0 k'); auto.
Qed.

Lemma get_modify_same m k f :
  get (modify m k f) k = option_map f (get m k).
Proof.
  induction m as [|[k' v'] m IH]; simpl; auto.
  destruct (String.eqb k' k) eqn:E; simpl; rewrite E; auto.
Qed.

Lemma get_modify_other m k k' f :
  k <> k' -> get (modify m k f) k' = get m k'.
Proof.
  intros Hne. induction m as [|[k0 v0] m IH]; simpl; auto.
  destruct (String.eqb k0 k) eqn:E; simpl.
  - apply String.eqb_eq in E. subst k0.
    destruct (String.eqb k k') eqn:E'; auto.
    apply String.eqb_eq in E'. contradiction.
  - destruct (String.eqb k0 k'); auto.
Qed.

Lemma keys_modify m k f : keys (modify m k f) = keys m.
Proof.
  induction m as [|[k' v'] m IH]; simpl; auto.
  destruct (String.eqb k' k); simpl; auto. f_equal. exact IH.
Qed.

Lemma get_In_keys m k v : get m k = Some v -> In k (keys m).
Proof.
  induction m as [|[k' v'] m IH]; simpl; [discriminate|].
  destruct (String.eqb k' k) eqn:E.
  - apply String.eqb_eq in E. auto.
  - intros H. right. now apply IH.
Qed.

Lemma get_None_keys m k : get m k = None <-> ~ In k (keys m).
Proof.
  induction m as [|[k' v'] m IH]; simpl.
  - tauto.
  - destruct (String.eqb k' k) eqn:E.
    + apply String.eqb_eq in E. split; [discriminate | intros H; exfalso; auto].
    + apply String.eqb_neq in E. rewrite IH. tauto.
Qed.

Lemma In_keys_get m k : In k (keys m) -> exists v, get m k = Some v.
Proof.
  intros H. destruct (get m k) eqn:E; eauto.
  apply get_None_keys in E. contradiction.
Qed.

Lemma keys_set_in m k v : In k (keys m) -> keys (set m k v) = keys m.
Proof.
  induction m as [|[k' v'] m IH]; simpl; [tauto|].
  destruct (String.eqb k' k) eqn:E; simpl; auto.
  apply String.eqb_neq in E. intros [H | H]; [contradiction|].
  f_equal. now apply IH.
Qed.

Lemma keys_set_new m k v : ~ In k (keys m) -> keys (set m k v) = keys m ++ [k].
Proof.
  induction m as [|[k' v'] m IH]; simpl; auto.
  intros H. destruct (String.eqb k' k) eqn:E.
  - apply String.eqb_eq in E. exfalso; auto.
  - simpl. f_equal. apply IH. tauto.
Qed.

Lemma set_new m k v : ~ In k (keys m) -> set m k v = m ++ [(k, v)].
Proof.
  induction m as [|[k' v'] m IH]; simpl; auto.
  intros H. destruct (String.eqb k' k) eqn:E.
  - apply String.eqb_eq in E. exfalso; auto.
  - f_equal. apply IH. tauto.
Qed.

Lemma get_In m k v : get m k = Some v -> In (k, v) m.
Proof.
  induction m as [|[k' v'] m IH]; simpl; [discriminate|].
  destruct (String.eqb k' k) eqn:E.
  - apply String.eqb_eq in E. intros [= ->]. subst. auto.
  - auto.
Qed.

Lemma In_get m k v : NoDup (keys m) -> In (k, v) m -> get m k = Some v.
Proof.
  induction m as [|[k' v'] m IH]; simpl; [tauto|].
  intros Hnd [H | H].
  - injection H as -> ->. now rewrite String.eqb_refl.
  - inversion Hnd as [|? ? Hnot Hnd']; subst.
    destruct (String.eqb k' k) eqn:E.
    + apply String.eqb_eq in E. subst k'. exfalso. apply Hnot.
      change k with (fst (k, v)). now apply in_map.
    + now apply IH.
Qed.

Lemma NoDup_keys_set m k v : NoDup (keys m) -> NoDup (keys (set m k v)).
Proof.
  intros Hnd. destruct (in_dec string_dec k (keys m)) as [Hin | Hout].
  - now rewrite keys_set_in.
  - rewrite keys_set_new by assumption.
    apply NoDup_app; [assumption | constructor; [simpl; tauto | constructor] |].
    intros x Hx [<- | []]. contradiction.
Qed.

End Facts.
End JsMapFacts.

(** ** Facts about [JsObject] *)

Module JsObjectFacts.
Import JsMap JsObject.
Section Facts.
Context {V : Type}.
Implicit Types (o : JsMap.t V) (k : string) (v : V).


Lemma has_true o k : has o k = true -> In k (keys o).
Proof.
  unfold has. destruct (get o k) eqn:E; [|discriminate].
  intros _. exact (JsMapFacts.get_In_keys _ _ _ E).
Qed.

Lemma In_keys_insertIndex i o k v x :
  In x (keys (insertIndex i k v o)) <-> x = k \/ In x (keys o).
Proof.
  induction o as [|[k' v'] o IH]; simpl.
  - intuition congruence.
  - destruct (arrayIndex k') as [j|]; [destruct (j <? i)%N|]; simpl;
      rewrite ?IH; intuition congruence.
Qed.







Lemma assign_proto o v : assign o "__proto__" v = o.
Proof. reflexivity. Qed.

Lemma assign_plain o k v :
  k <> "__proto__"%string -> arrayIndex k = None -> assign o k v = set o k v.
Proof.
  intros Hp Ha. unfold assign. apply String.eqb_neq in Hp. rewrite Hp, Ha.
  now destruct (has o k).
Qed.


Lemma In_keys_assign o k v x :
  In x (keys (assign o k v)) <->
  In x (keys o) \/ (x = k /\ k <> "__proto__"%string).
Proof.
  unfold assign. destruct (String.eqb k "__proto__") eqn:Hp.
  - apply String.eqb_eq in Hp. tauto.
  - apply String.eqb_neq in Hp.
    assert (Hset : In x (keys (set o k v)) <->
                   In x (keys o) \/ (x = k /\ k <> "__proto__"%string)).
    { destruct (in_dec string_dec k (keys o)) as [Hin | Hout].
      - rewrite JsMapFacts.keys_set_in by assumption.
        split; [tauto | intros [H | [-> _]]; assumption].
      - rewrite JsMapFacts.keys_set_new by assumption.
        rewrite in_app_iff. simpl. intuition congruence. }
    destruct (has o k) eqn:H; [exact Hset|].
    destruct (arrayIndex k); [|exact Hset].
    rewrite In_keys_insertIndex. tauto.
Qed.


End Facts.

(** The object a loop of assignments builds from a list of entries. *)
Section Built.
Context {A B : Type} (f : string -> A -> B).



Lemma In_keys_built (l : list (string * A)) (acc : JsMap.t B) (x : string) :
  In x (keys (fold_left (fun o '(y, a) => assign o y (f y a)) l acc)) <->
  In x (keys acc) \/ (In x (keys l) /\ x <> "__proto__"%string).
Proof.
  revert acc. induction l as [|[k0 a0] l IH]; intros acc; simpl.
  - tauto.
  - rewrite IH, In_keys_assign. intuition congruence.
Qed.

Lemma built_plain (l : list (string * A)) (acc : JsMap.t B) :
  (forall x, In x (keys l) ->
     x <> "__proto__"%string /\ arrayIndex x = None) ->
  fold_left (fun o '(x, a) => assign o x (f x a)) l acc =
  fold_left (fun o '(x, a) => set o x (f x a)) l acc.
Proof.
  revert acc. induction l as [|[k0 a0] l IH]; intros acc Hp; simpl; auto.
  destruct (Hp k0) as [H1 H2]; [simpl; auto|].
  rewrite assign_plain by assumption. apply IH.
  intros x Hx. apply Hp. simpl. auto.
Qed.


End Built.
End JsObjectFacts.

(** ** Coherence metric *)

Lemma coherenceLoop_edges (net : Network) (path : list string)
    (total : number) (n : nat) :
  coherenceLoop net path total n =
  (total + sumAbsWeight (consecutiveEdges net path),
   (n + List.length (consecutiveEdges net path))%nat).
Proof.
  revert total n.
  induction path as [|a rest IH]; intros total n; simpl.
  - f_equal; [lra | lia].
  - destruct rest as [|b rest'].
    + simpl. f_equal; [lra | lia].
    + destruct (connectionBetween net a b) as [c|].
      * rewrite IH. simpl. f_equal; [lra | lia].
      * apply IH.
Qed.

Lemma sumAbsWeight_nonneg (cs : list NodeConnection.t) : 0 <= sumAbsWeight cs.
Proof.
  induction cs as [|c cs IH]; simpl; [lra|].
  pose proof (Rabs_pos (NodeConnection.weight c)). lra.
Qed.

Lemma sumAbsWeight_le_length (cs : list NodeConnection.t) :
  (forall c, In c cs -> -1 < NodeConnection.weight c < 1) ->
  sumAbsWeight cs <= INR (List.length cs).
Proof.
  induction cs as [|c cs IH]; intros Hb.
  - simpl. lra.
  - change (sumAbsWeight (c :: cs))
      with (Rabs (NodeConnection.weight c) + sumAbsWeight cs).
    change (List.length (c :: cs)) with (S (List.length cs)).
    rewrite S_INR.
    assert (Rabs (NodeConnection.weight c) < 1)
      by (apply Rabs_def1; apply Hb; now left).
    assert (sumAbsWeight cs <= INR (List.length cs))
      by (apply IH; intros; apply Hb; now right).
    lra.
Qed.

Lemma calculateCoherence_long (net : Network) (path : list string) :
  (2 <= List.length path)%nat ->
  calculateCoherence net path =
  match consecutiveEdges net path with
  | [] => 0
  | cs => meanAbsWeight cs
  end.
Proof.
  intros Hlen. unfold calculateCoherence.
  destruct (Nat.ltb_spec (List.length path) 2) as [Hlt | _]; [lia|].
  rewrite coherenceLoop_edges.
  destruct (consecutiveEdges net path) as [|c cs] eqn:E.
  - reflexivity.
  - change (0 <? 0 + List.length (c :: cs))%nat with true. cbv iota.
    unfold meanAbsWeight. rewrite Rplus_0_l. reflexivity.
Qed.

(** C7. [calculateCoherence] is 1.0 on a path of fewer than two nodes; on a
    longer path it is the mean absolute weight of the forward connections
    between consecutive path nodes that exist, 0 when there is none; and
    it lies in [0, 1] when those weights lie in (-1, 1). *)
Theorem calculateCoherence_spec (net : Network) (path : list string) :
  ((List.length path < 2)%nat -> calculateCoherence net path = 1) /\
  ((2 <= List.length path)%nat ->
     consecutiveEdges net path <> [] ->
     calculateCoherence net path = meanAbsWeight (consecutiveEdges net path)) /\
  ((2 <= List.length path)%nat ->
     consecutiveEdges net path = [] -> calculateCoherence net path = 0) /\
  ((2 <= List.length path)%nat ->
     (forall c, In c (consecutiveEdges net path) ->
                -1 < NodeConnection.weight c < 1) ->
     0 <= calculateCoherence net path <= 1).
Proof.
  repeat split.
  - intros Hlt. unfold calculateCoherence.
    destruct (Nat.ltb_spec (List.length path) 2); [lra | lia].
  - intros Hlen Hne. rewrite calculateCoherence_long by assumption.
    destruct (consecutiveEdges net path); [contradiction | reflexivity].
  - intros Hlen He. rewrite calculateCoherence_long by assumption.
    now rewrite He.
  - rewrite calculateCoherence_long by assumption.
    destruct (consecutiveEdges net path) as [|c cs]; [lra|].
    unfold meanAbsWeight. apply Rmult_le_pos.
    + apply sumAbsWeight_nonneg.
    + left. apply Rinv_0_lt_compat. apply lt_0_INR. simpl. lia.
  - rewrite calculateCoherence_long by assumption.
    destruct (consecutiveEdges net path) as [|c cs] eqn:E; [lra|].
    unfold meanAbsWeight.
    assert (Hpos : 0 < INR (List.length (c :: cs)))
      by (apply lt_0_INR; simpl; lia).
    apply Rmult_le_reg_r with (INR (List.length (c :: cs))); [exact Hpos|].
    unfold Rdiv. rewrite Rmult_assoc, Rinv_l, Rmult_1_r, Rmult_1_l by lra.
    apply sumAbsWeight_le_length. assumption.
Qed.

Lemma calculateCoherence_spec_witness :
  calculateCoherence net_a_to_b ["a"%string] = 1 /\
  calculateCoherence net_a_to_b ["a"%string; "b"%string] =
    meanAbsWeight [NodeConnection.mk 0.5 0 0.1] /\
  calculateCoherence net_a_to_b ["b"%string; "a"%string] = 0 /\
  0 <= calculateCoherence net_a_to_b ["a"%string; "b"%string] <= 1.
Proof.
  pose proof (calculateCoherence_spec net_a_to_b ["a"%string]) as [H1 _].
  pose proof (calculateCoherence_spec net_a_to_b ["a"%string; "b"%string])
    as (_ & H2 & _ & H4).
  pose proof (calculateCoherence_spec net_a_to_b ["b"%string; "a"%string])
    as (_ & _ & H3 & _).
  split; [apply H1; simpl; lia|].
  split; [apply H2; [simpl; lia | simpl; discriminate]|].
  split; [apply H3; [simpl; lia | reflexivity]|].
  apply H4; [simpl; lia|].
  simpl. intros c [<- | []]. simpl. lra.
Defined.

(** ** Persistence codec *)

Section FoldSet.
Context {A B : Type} (g : string -> A -> B).

Lemma fold_set_fresh (l : list (string * A)) (acc : JsMap.t B) :
  NoDup (JsMap.keys acc ++ JsMap.keys l) ->
  fold_left (fun m '(k, a) => JsMap.set m k (g k a)) l acc =
  acc ++ map (fun '(k, a) => (k, g k a)) l.
Proof.
  revert acc. induction l as [|[k a] l IH]; intros acc Hnd; simpl.
  - now rewrite app_nil_r.
  - simpl in Hnd.
    assert (Hout : ~ In k (JsMap.keys acc)).
    { intros Hin. apply NoDup_remove_2 in Hnd. apply Hnd.
      apply in_or_app. now left. }
    rewrite JsMapFacts.set_new by assumption.
    rewrite IH.
    + rewrite <- app_assoc. reflexivity.
    + unfold JsMap.keys in *. rewrite map_app. simpl.
      rewrite <- app_assoc. exact Hnd.
Qed.

End FoldSet.

Lemma encodeNetwork_map (net : Network) :
  NoDup (JsMap.keys net) -> plain_ids net ->
  encodeNetwork net = map (fun '(k, n) => (k, Shaped (encodeNode n))) net.
Proof.
  intros Hnd Hplain. unfold encodeNetwork.
  rewrite (JsObjectFacts.built_plain (fun _ n => Shaped (encodeNode n)))
    by exact Hplain.
  apply (fold_set_fresh (fun _ n => Shaped (encodeNode n)) net JsMap.empty).
  exact Hnd.
Qed.


Lemma decodeInto_shaped (l : list (string * NodeData.t)) (acc : Network) :
  NoDup (JsMap.keys acc ++ JsMap.keys l) ->
  decodeInto acc (map (fun '(k, d) => (k, Shaped d)) l) =
  (acc ++ map (fun '(k, d) => (k, decodeNode k d)) l, None).
Proof.
  revert acc. induction l as [|[k d] l IH]; intros acc Hnd; simpl.
  - now rewrite app_nil_r.
  - simpl in Hnd.
    assert (Hout : ~ In k (JsMap.keys acc)).
    { intros Hin. apply NoDup_remove_2 in Hnd. apply Hnd.
      apply in_or_app. now left. }
    rewrite JsMapFacts.set_new by assumption.
    rewrite IH.
    + rewrite <- app_assoc. reflexivity.
    + unfold JsMap.keys in *. rewrite map_app. simpl.
      rewrite <- app_assoc. exact Hnd.
Qed.

Lemma Map_of_entries (entries : list (string * NodeConnection.t)) :
  NoDup (JsMap.keys entries) -> Map_of entries = entries.
Proof.
  intros Hnd. unfold Map_of.
  rewrite (fold_set_fresh (fun _ c => c) entries JsMap.empty) by exact Hnd.
  simpl. rewrite <- (map_id entries) at 2. apply map_ext. now intros [k c].
Qed.

Lemma dropEmpty_idem (s : option string) : dropEmpty (dropEmpty s) = dropEmpty s.
Proof.
  destruct s as [t|]; simpl; auto.
  destruct (String.eqb t EmptyString) eqn:E; simpl; auto. now rewrite E.
Qed.

Lemma decode_encode (k : string) (n : ActivationNode.t) :
  ActivationNode.id n = k ->
  NoDup (JsMap.keys (ActivationNode.connections n)) ->
  decodeNode k (encodeNode n) = reloaded n.
Proof.
  intros Hid Hnd. unfold decodeNode, encodeNode, reloaded. simpl.
  rewrite Map_of_entries by assumption.
  fold (dropEmpty (ActivationNode.semanticContent n)).
  fold (dropEmpty (dropEmpty (ActivationNode.semanticContent n))).
  rewrite dropEmpty_idem. now rewrite Hid.
Qed.

Lemma keys_map_snd {A B : Type} (f : string -> A -> B) (l : list (string * A)) :
  JsMap.keys (map (fun '(k, a) => (k, f k a)) l) = JsMap.keys l.
Proof.
  unfold JsMap.keys. rewrite map_map. apply map_ext. now intros [k a].
Qed.

Lemma get_map_snd {A B : Type} (f : string -> A -> B) (l : list (string * A))
    (k : string) :
  JsMap.get (map (fun '(k, a) => (k, f k a)) l) k =
  option_map (f k) (JsMap.get l k).
Proof.
  induction l as [|[k' a] l IH]; simpl; auto.
  destruct (String.eqb k' k) eqn:E; auto.
  apply String.eqb_eq in E. now subst.
Qed.

Lemma reload_network (w : World) :
  wf_network (network w) -> plain_ids (network w) ->
  exists w', reload w = Returns w' /\
    network w' = map (fun '(k, n) => (k, reloaded n)) (network w).
Proof.
  intros [Hnd Hwf] Hplain.
  unfold reload, initialize, loadNetwork, loadNetwork_try.
  cbn [disk saveNetwork newInstance existsSync network].
  rewrite encodeNetwork_map by assumption.
  replace (map (fun '(k, n) => (k, Shaped (encodeNode n))) (network w))
    with (map (fun '(k, d) => (k, Shaped d))
              (map (fun '(k, n) => (k, encodeNode n)) (network w)))
    by (rewrite map_map; apply map_ext; now intros [k n]).
  rewrite decodeInto_shaped.
  - eexists. split; [reflexivity|]. simpl.
    rewrite map_map. apply map_ext_in. intros [k n] Hin.
    destruct (Hwf k n Hin) as [Hid Hc]. now rewrite decode_encode.
  - simpl. now rewrite (keys_map_snd (fun _ n => encodeNode n)).
Qed.

(** The file has an entry for every node but one stored under
    "__proto__". *)
Lemma In_keys_encodeNetwork (net : Network) (k : string) :
  In k (JsMap.keys (encodeNetwork net)) <->
  In k (JsMap.keys net) /\ k <> "__proto__"%string.
Proof.
  unfold encodeNetwork.
  rewrite (JsObjectFacts.In_keys_built (fun _ n => Shaped (encodeNode n))).
  simpl. tauto.
Qed.

(** What the plain object does to ids that [createNode] never builds: the
    node under "__proto__" is not written, and array indices come first,
    in ascending order. *)
Remark encodeNetwork_odd_ids :
  JsMap.keys (encodeNetwork net_odd_ids) = ["3"; "7"; "b"]%string.
Proof. reflexivity. Qed.



Lemma wf_net_a_to_b : wf_network net_a_to_b.
Proof.
  split.
  - simpl. repeat constructor; simpl; intuition discriminate.
  - intros k n [H | [H | []]]; injection H as <- <-; simpl; split; auto;
      repeat constructor; simpl; tauto.
Qed.

Lemma plain_net_a_to_b : plain_ids net_a_to_b.
Proof.
  intros k [<- | [<- | []]]; split; (discriminate || reflexivity).
Qed.


(** Outside the scope of the amended statement: a node stored under
    "__proto__" is lost by a save and reload, and nodes stored under array
    indices come back ahead of the others. *)
Remark reload_odd_ids :
  exists w', reload world_odd_ids = Returns w' /\
    JsMap.keys (network w') = ["3"; "7"; "b"]%string.
Proof. eexists. split; reflexivity. Qed.



(** C8. [initialize] never throws; when the file is missing or its content
    does not parse, a fresh instance is left with an empty store. *)
Theorem initialize_recovers (d : option FileContent) (clk : nat -> number)
    (ids : nat -> string) :
  (forall w, exists w', loadNetwork w = Returns w') /\
  (forall w, exists w', initialize w = Returns w') /\
  ((d = None \/ exists text, d = Some (Unparsable text)) ->
   exists w', initialize (newInstance d clk ids) = Returns w' /\
              network w' = JsMap.empty).
Proof.
  assert (Hload : forall w, exists w', loadNetwork w = Returns w').
  { intros w. unfold loadNetwork, loadNetwork_try.
    destruct (disk w) as [[text | data]|]; simpl; eauto.
    destruct (decodeInto (network w) data) as [net [e|]]; simpl; eauto. }
  split; [exact Hload|]. split.
  - intros w. unfold initialize.
    destruct (existsSync w); [|simpl; eauto].
    destruct (Hload w) as [w' ->]. simpl. eauto.
  - intros [-> | [text ->]]; eexists; split; reflexivity.
Qed.

(** When the loop throws on an unbuildable entry, the nodes built before
    it stay in the store. *)
Remark initialize_keeps_loaded_prefix (k k' : string) (nodeData : NodeData.t)
    (rest : NetworkData) (clk : nat -> number) (ids : nat -> string) :
  exists w',
    initialize
      (newInstance
         (Some (Document ((k, Shaped nodeData) :: (k', Unbuildable) :: rest)))
         clk ids) = Returns w' /\
    network w' = [(k, decodeNode k nodeData)].
Proof. eexists. split; reflexivity. Qed.

Lemma initialize_recovers_witness :
  (exists w', initialize (newInstance None sampleClock sampleIds) = Returns w' /\
              network w' = JsMap.empty) /\
  (exists w', initialize
                (newInstance (Some (Unparsable "{ not json")) sampleClock sampleIds)
              = Returns w' /\
              network w' = JsMap.empty).
Proof.
  split.
  - apply (initialize_recovers None sampleClock sampleIds). now left.
  - apply (initialize_recovers (Some (Unparsable "{ not json")) sampleClock
                               sampleIds).
    right. now exists "{ not json"%string.
Defined.

(** ** Resonance matcher *)

Lemma resonates_Some (embedding : Float32Array) (n : ActivationNode.t)
    (s : number) :
  resonates embedding n = Some s <->
  exists e, ActivationNode.embedding n = Some e /\
            cosineSimilarity embedding e = Some s /\ 0.7 < s.
Proof.
  unfold resonates. destruct (ActivationNode.embedding n) as [e|].
  - destruct (cosineSimilarity embedding e) as [s'|] eqn:C.
    + destruct (gtb s' 0.7) eqn:G.
      * apply gtb_true in G. split.
        -- intros [= <-]. exists e. auto.
        -- intros (e' & [= <-] & Hc & _). congruence.
      * apply gtb_false in G. split; [discriminate|].
        intros (e' & [= <-] & Hc & Hs).
        assert (s' = s) by congruence. subst. lra.
    + split; [discriminate|].
      intros (e' & [= <-] & Hc & _). congruence.
  - split; [discriminate | intros (e' & He & _); discriminate].
Qed.

Lemma resonantScan_store (embedding : Float32Array) (net : Network) :
  fst (resonantScan embedding net) =
  map (fun '(k, n) => (k, rescored embedding n)) net.
Proof.
  induction net as [|[k n] net IH]; simpl; auto.
  destruct (resonantScan embedding net) as [rest' res]. simpl in IH.
  unfold rescored. destruct (resonates embedding n); simpl; now rewrite IH.
Qed.

Lemma resonantScan_refs (embedding : Float32Array) (net : Network) (k : string) :
  In k (snd (resonantScan embedding net)) <->
  exists n s, In (k, n) net /\ resonates embedding n = Some s.
Proof.
  induction net as [|[k0 n0] net IH]; simpl.
  - split; [tauto | intros (n & s & [] & _)].
  - destruct (resonantScan embedding net) as [rest' res]. simpl in IH.
    destruct (resonates embedding n0) as [s0|] eqn:R; simpl.
    + rewrite IH. split.
      * intros [<- | (n & s & Hin & Hr)]; eauto 6.
      * intros (n & s & [[= <- <-] | Hin] & Hr); eauto 6.
    + rewrite IH. split.
      * intros (n & s & Hin & Hr). eauto 6.
      * intros (n & s & [[= <- <-] | Hin] & Hr); [congruence | eauto 6].
Qed.

Lemma resonantScan_none (embedding : Float32Array) (net : Network) :
  (forall k n, In (k, n) net -> resonates embedding n = None) ->
  resonantScan embedding net = (net, []).
Proof.
  induction net as [|[k n] net IH]; intros Hno; simpl; auto.
  rewrite IH by (intros; eapply Hno; right; eassumption).
  now rewrite (Hno k n (or_introl eq_refl)).
Qed.

Lemma findResonantNodes_hit (embedding : Float32Array) (text : option string)
    (w : World) :
  snd (resonantScan embedding (network w)) <> [] ->
  findResonantNodes embedding text w =
  (snd (resonantScan embedding (network w)),
   set_network (fst (resonantScan embedding (network w))) w).
Proof.
  unfold findResonantNodes.
  destruct (resonantScan embedding (network w)) as [net' res]. simpl.
  destruct res; [contradiction | reflexivity].
Qed.

Lemma findResonantNodes_miss (embedding : Float32Array) (text : option string)
    (w : World) :
  snd (resonantScan embedding (network w)) = [] ->
  findResonantNodes embedding text w =
  ([nodeId w (ticks w)],
   tick (set_network
           (JsMap.set (fst (resonantScan embedding (network w)))
                      (nodeId w (ticks w))
                      (createdNode (nodeId w (ticks w)) embedding text))
           w)).
Proof.
  unfold findResonantNodes.
  destruct (resonantScan embedding (network w)) as [net' res]. simpl.
  intros ->. reflexivity.
Qed.

(** C3. [findResonantNodes] returns at least one node; every stored node
    whose embedding has cosine similarity above 0.7 with the query is in
    the result with its potential set to that similarity; and when no
    stored node exceeds 0.7 the store gains exactly one node, with
    potential 1.0, the query vector as embedding and the given text as
    semanticContent, which is the only result.  The id the generator
    yields is taken to be unused. *)
Theorem findResonantNodes_contract (embedding : Float32Array)
    (text : option string) (w : World) :
  NoDup (JsMap.keys (network w)) ->
  let resonantNodes := fst (findResonantNodes embedding text w) in
  let w' := snd (findResonantNodes embedding text w) in
  resonantNodes <> [] /\
  (forall k n e s,
      JsMap.get (network w) k = Some n ->
      ActivationNode.embedding n = Some e ->
      cosineSimilarity embedding e = Some s -> 0.7 < s ->
      In k resonantNodes /\
      JsMap.get (network w') k = Some (ActivationNode.set_potential s n)) /\
  ((forall k n e s,
      JsMap.get (network w) k = Some n ->
      ActivationNode.embedding n = Some e ->
      cosineSimilarity embedding e = Some s -> s <= 0.7) ->
   ~ In (nodeId w (ticks w)) (JsMap.keys (network w)) ->
   exists newNode,
     resonantNodes = [ActivationNode.id newNode] /\
     network w' = network w ++ [(ActivationNode.id newNode, newNode)] /\
     ActivationNode.potential newNode = 1.0 /\
     ActivationNode.embedding newNode = Some embedding /\
     ActivationNode.semanticContent newNode = text).
Proof.
  intros Hnd resonantNodes w'. subst resonantNodes w'.
  split; [|split].
  - destruct (snd (resonantScan embedding (network w))) eqn:E.
    + rewrite findResonantNodes_miss by assumption. simpl. discriminate.
    + rewrite findResonantNodes_hit by (rewrite E; discriminate).
      simpl. rewrite E. discriminate.
  - intros k n e s Hget He Hcos Hs.
    assert (Hres : resonates embedding n = Some s)
      by (apply resonates_Some; eauto).
    assert (Hin : In k (snd (resonantScan embedding (network w)))).
    { apply resonantScan_refs. exists n, s. split; [|exact Hres].
      now apply JsMapFacts.get_In. }
    rewrite findResonantNodes_hit by (intros E; rewrite E in Hin; exact Hin).
    simpl. split; [exact Hin|].
    rewrite resonantScan_store.
    rewrite (get_map_snd (fun _ n => rescored embedding n)), Hget. simpl.
    unfold rescored. now rewrite Hres.
  - intros Hno Hfresh.
    assert (Hnone : forall k n, In (k, n) (network w) ->
                                resonates embedding n = None).
    { intros k n Hin. destruct (resonates embedding n) as [s|] eqn:R; auto.
      apply resonates_Some in R. destruct R as (e & He & Hcos & Hs).
      apply JsMapFacts.In_get in Hin; [|exact Hnd].
      pose proof (Hno k n e s Hin He Hcos). lra. }
    pose proof (resonantScan_none embedding (network w) Hnone) as Hscan.
    rewrite findResonantNodes_miss by now rewrite Hscan.
    rewrite Hscan. simpl.
    exists (createdNode (nodeId w (ticks w)) embedding text). simpl.
    rewrite JsMapFacts.set_new by assumption. repeat split.
Qed.

Lemma cosineSimilarity_unit_norms (a b : Float32Array) (d na nb d' : number) :
  sums a b (0, 0, 0) = Some (d, na, nb) ->
  na = 1 -> nb = 1 -> d = d' ->
  cosineSimilarity a b = Some d'.
Proof.
  intros Hs -> -> ->. unfold cosineSimilarity. rewrite Hs.
  rewrite sqrt_1. destruct (Req_dec_T (1 * 1) 0) as [H | _]; [lra|].
  f_equal. field.
Qed.

Ltac cosine_of_units :=
  eapply cosineSimilarity_unit_norms;
    [simpl; reflexivity | lra | lra | simpl; lra].

Lemma findResonantNodes_contract_witness :
  (In "a"%string (fst (findResonantNodes [1; 0] None world_a_to_b))) /\
  (exists newNode,
     fst (findResonantNodes [-1; 0] (Some "x"%string) world_a_to_b)
       = [ActivationNode.id newNode] /\
     ActivationNode.potential newNode = 1.0).
Proof.
  assert (Hnd : NoDup (JsMap.keys (network world_a_to_b)))
    by apply wf_net_a_to_b.
  split.
  - destruct (findResonantNodes_contract [1; 0] None world_a_to_b Hnd)
      as (_ & Hhit & _).
    apply (Hhit "a"%string
             (sampleNode "a" 1 [("b"%string, NodeConnection.mk 0.5 0 0.1)] [1; 0])
             [1; 0] 1); [reflexivity | reflexivity | cosine_of_units | lra].
  - destruct (findResonantNodes_contract [-1; 0] (Some "x"%string)
                world_a_to_b Hnd) as (_ & _ & Hmiss).
    destruct Hmiss as (newNode & Hres & _ & Hpot & _).
    + intros k n e s Hget He Hcos. apply JsMapFacts.get_In in Hget.
      destruct Hget as [H | [H | []]]; injection H as <- <-;
        simpl in He; injection He as <-.
      * assert (Hc : cosineSimilarity [-1; 0] [1; 0] = Some (-1))
          by cosine_of_units.
        rewrite Hc in Hcos. injection Hcos as <-. lra.
      * assert (Hc : cosineSimilarity [-1; 0] [0; 1] = Some 0)
          by cosine_of_units.
        rewrite Hc in Hcos. injection Hcos as <-. lra.
    + simpl. intuition discriminate.
    + exists newNode. split; assumption.
Defined.

(** ** What the engine leaves alone *)

Lemma same_shell_refl (w : World) : same_shell w w.
Proof. repeat split. Qed.

Lemma same_shell_trans (w1 w2 w3 : World) :
  same_shell w1 w2 -> same_shell w2 w3 -> same_shell w1 w3.
Proof.
  intros (A1 & A2 & A3 & A4 & A5) (B1 & B2 & B3 & B4 & B5).
  repeat split; congruence.
Qed.

Lemma same_shell_update (r : string) (f : ActivationNode.t -> ActivationNode.t)
    (w : World) : same_shell w (update r f w).
Proof. repeat split. simpl. apply JsMapFacts.keys_modify. Qed.

Lemma same_shell_tick (w : World) : same_shell w (tick w).
Proof. repeat split. Qed.

Lemma same_shell_set_coherence (cs ct : number) (w : World) :
  same_shell w (set_coherence cs ct w).
Proof. repeat split. Qed.

Lemma same_shell_getOrCreate (a b : string) (w : World) :
  same_shell w (snd (getOrCreate a b w)).
Proof.
  unfold getOrCreate. destruct (connectionBetween (network w) a b); simpl.
  - apply same_shell_refl.
  - unfold setConnection.
    eapply same_shell_trans; [apply same_shell_tick | apply same_shell_update].
Qed.

Lemma same_shell_strengthenPair (a b : string) (w : World) :
  same_shell w (strengthenPair a b w).
Proof.
  unfold strengthenPair.
  pose proof (same_shell_getOrCreate a b w) as H1.
  destruct (getOrCreate a b w) as [c w1]. simpl in H1. simpl.
  match goal with
  | |- context [getOrCreate b a ?w3] =>
      pose proof (same_shell_getOrCreate b a w3) as H4;
      assert (H3 : same_shell w w3)
        by (eapply same_shell_trans;
            [exact H1
            | eapply same_shell_trans;
              [apply same_shell_tick | apply same_shell_update]]);
      destruct (getOrCreate b a w3) as [rc w4]
  end.
  simpl in H4. unfold setConnection.
  eapply same_shell_trans; [exact H3|].
  eapply same_shell_trans; [exact H4 | apply same_shell_update].
Qed.

Lemma same_shell_hebbian (path : list string) (w : World) :
  same_shell w (hebbian path w).
Proof.
  revert w. induction path as [|a rest IH]; intros w; simpl.
  - apply same_shell_refl.
  - destruct rest as [|b rest'].
    + apply same_shell_refl.
    + eapply same_shell_trans; [apply same_shell_strengthenPair | apply IH].
Qed.

Lemma same_shell_fold_weaken (path l : list string) (w : World) :
  same_shell w (fold_left (fun w node => weakenUnused path node w) l w).
Proof.
  revert w. induction l as [|a l IH]; intros w; simpl.
  - apply same_shell_refl.
  - eapply same_shell_trans; [apply same_shell_update | apply IH].
Qed.

Lemma same_shell_strengthenPath (path : list string) (w : World) :
  same_shell w (strengthenPath path w).
Proof.
  unfold strengthenPath, antiHebbian.
  eapply same_shell_trans;
    [apply same_shell_hebbian | apply same_shell_fold_weaken].
Qed.

(** ** Save cadence *)

Lemma findResonantNodes_writes (embedding : Float32Array)
    (text : option string) (w : World) :
  writes (snd (findResonantNodes embedding text w)) = writes w /\
  disk (snd (findResonantNodes embedding text w)) = disk w.
Proof.
  unfold findResonantNodes.
  destruct (resonantScan embedding (network w)) as [net' res].
  destruct res; simpl; auto.
Qed.

Lemma learn_unfold (experience : string) (embedding : Float32Array) (w : World) :
  learn experience embedding w =
  let w2 :=
    strengthenPath (fst (findResonantNodes embedding (Some experience) w))
                   (snd (findResonantNodes embedding (Some experience) w)) in
  if saveDue w2 then saveNetwork w2 else w2.
Proof.
  unfold learn.
  destruct (findResonantNodes embedding (Some experience) w) as [res w1].
  reflexivity.
Qed.

(** Up to the test at its end, [learn] leaves the file alone. *)
Lemma learn_core_shell (experience : string) (embedding : Float32Array)
    (w : World) :
  let w2 :=
    strengthenPath (fst (findResonantNodes embedding (Some experience) w))
                   (snd (findResonantNodes embedding (Some experience) w)) in
  writes w2 = writes w /\ disk w2 = disk w.
Proof.
  cbv zeta.
  destruct (findResonantNodes_writes embedding (Some experience) w)
    as [Hw Hd].
  match goal with
  | |- context [strengthenPath ?p ?w1] =>
      destruct (same_shell_strengthenPath p w1) as (_ & Hd2 & Hw2 & _)
  end.
  split; congruence.
Qed.

Lemma saveDue_saveNetwork (w : World) : saveDue (saveNetwork w) = saveDue w.
Proof. reflexivity. Qed.

(** C9, as amended.  A [learn] call writes the store to the file exactly
    when the number of nodes in the store after the call is a multiple of
    10; the count is of stored nodes, not of calls. *)
Theorem learn_saves_on_size (experience : string) (embedding : Float32Array)
    (w : World) :
  let w' := learn experience embedding w in
  (saveDue w' = true ->
     writes w' = S (writes w) /\
     disk w' = Some (Document (encodeNetwork (network w')))) /\
  (saveDue w' = false -> writes w' = writes w /\ disk w' = disk w).
Proof.
  intros w'. subst w'. rewrite learn_unfold.
  destruct (learn_core_shell experience embedding w) as [Hw Hd].
  cbv zeta in *.
  set (w2 := strengthenPath _ _) in *.
  destruct (saveDue w2) eqn:E.
  - rewrite saveDue_saveNetwork, E. split; [intros _ | discriminate].
    simpl. split; [now rewrite Hw | reflexivity].
  - rewrite E. split; [discriminate | intros _]. now split.
Qed.

Lemma modify_app_new {V : Type} (m : JsMap.t V) (k : string) (v : V)
    (f : V -> V) :
  ~ In k (JsMap.keys m) ->
  JsMap.modify (m ++ [(k, v)]) k f = m ++ [(k, f v)].
Proof.
  induction m as [|[k' v'] m IH]; simpl; intros Hout.
  - now rewrite String.eqb_refl.
  - destruct (String.eqb k' k) eqn:E.
    + apply String.eqb_eq in E. exfalso. auto.
    + f_equal. apply IH. tauto.
Qed.

(** A [learn] call whose embedding resonates with no stored node adds one
    node and leaves the rest of the store as it was. *)
Lemma learn_miss (experience : string) (embedding : Float32Array) (w : World) :
  (forall k n, In (k, n) (network w) -> resonates embedding n = None) ->
  ~ In (nodeId w (ticks w)) (JsMap.keys (network w)) ->
  learn experience embedding w =
  let w2 :=
    tick (set_network
            (network w ++
               [(nodeId w (ticks w),
                 createdNode (nodeId w (ticks w)) embedding (Some experience))])
            w) in
  if saveDue w2 then saveNetwork w2 else w2.
Proof.
  intros Hnone Hfresh. rewrite learn_unfold.
  rewrite findResonantNodes_miss
    by (now rewrite (resonantScan_none embedding (network w) Hnone)).
  rewrite (resonantScan_none embedding (network w) Hnone). simpl fst. simpl snd.
  rewrite JsMapFacts.set_new by assumption.
  unfold strengthenPath, antiHebbian, hebbian, weakenUnused, update. simpl.
  rewrite modify_app_new by assumption. reflexivity.
Qed.

Lemma cosineSimilarity_axis (i j : nat) :
  (i < 10)%nat -> (j < 10)%nat ->
  cosineSimilarity (axis i) (axis j) = Some (if (i =? j)%nat then 1 else 0).
Proof.
  intros Hi Hj. unfold axis.
  do 10 (destruct i as [|i]; [
    do 10 (destruct j as [|j]; [cosine_of_units|]); exfalso; lia |]).
  exfalso; lia.
Qed.

Lemma resonates_axis_other (i j : nat) (id : string) (text : option string) :
  (i < 10)%nat -> (j < 10)%nat -> i <> j ->
  resonates (axis i) (createdNode id (axis j) text) = None.
Proof.
  intros Hi Hj Hne. unfold resonates. simpl.
  rewrite cosineSimilarity_axis by assumption.
  destruct (Nat.eqb_spec i j) as [|_]; [contradiction|].
  assert (G : gtb 0 0.7 = false) by (apply gtb_false; lra).
  now rewrite G.
Qed.

Lemma resonates_axis_same (i : nat) (id : string) (text : option string) :
  (i < 10)%nat ->
  resonates (axis i) (createdNode id (axis i) text) = Some 1.
Proof.
  intros Hi. unfold resonates. simpl.
  rewrite cosineSimilarity_axis by assumption. rewrite Nat.eqb_refl.
  assert (G : gtb 1 0.7 = true) by (apply gtb_true; lra).
  now rewrite G.
Qed.

Ltac other_axes :=
  let k := fresh "k" in
  let n := fresh "n" in
  let H := fresh "H" in
  intros k n H; simpl in H;
  repeat (destruct H as [H | H];
          [injection H as <- <-; apply resonates_axis_other; lia|]);
  contradiction.

Lemma learn_step (k : nat) :
  (k < 10)%nat ->
  learn (conceptName k) (axis k) (storeAfter k) = storeAfter (S k).
Proof.
  intros Hk.
  do 10 (destruct k as [|k];
         [rewrite learn_miss;
          [reflexivity | other_axes | simpl; intuition discriminate]|]).
  exfalso; lia.
Qed.

Lemma callSaves_step (k : nat) :
  (k < 10)%nat ->
  callSaves (conceptName k) (axis k) (storeAfter k) = (S k =? 10)%nat.
Proof.
  intros Hk. unfold callSaves. rewrite learn_step by assumption.
  do 10 (destruct k as [|k]; [reflexivity|]). exfalso; lia.
Qed.

Lemma size_keys {V : Type} (m : JsMap.t V) :
  JsMap.size m = List.length (JsMap.keys m).
Proof. unfold JsMap.size, JsMap.keys. now rewrite length_map. Qed.

(** A [learn] call whose embedding resonates with a stored node adds no
    node. *)
Lemma learn_hit_keys (experience : string) (embedding : Float32Array)
    (w : World) (k : string) (n : ActivationNode.t) (s : number) :
  In (k, n) (network w) -> resonates embedding n = Some s ->
  JsMap.keys (network (learn experience embedding w)) = JsMap.keys (network w).
Proof.
  intros Hin Hres. rewrite learn_unfold. cbv zeta.
  assert (Hhit : In k (snd (resonantScan embedding (network w))))
    by (apply resonantScan_refs; eauto).
  rewrite findResonantNodes_hit by (intros E; rewrite E in Hhit; exact Hhit).
  simpl fst. simpl snd.
  match goal with
  | |- context [strengthenPath ?p ?w1] =>
      destruct (same_shell_strengthenPath p w1) as (Hk & _);
      assert (Hgoal : JsMap.keys (network (strengthenPath p w1))
                      = JsMap.keys (network w))
  end.
  { rewrite Hk. simpl. rewrite resonantScan_store.
    apply (keys_map_snd (fun _ n => rescored embedding n)). }
  match goal with
  | |- context [if ?b then _ else _] => destruct b
  end; exact Hgoal.
Qed.

Lemma callSaves_again :
  callSaves (conceptName 0) (axis 0) (storeAfter 10) = true.
Proof.
  unfold callSaves.
  assert (Hkeys : JsMap.keys (network (learn (conceptName 0) (axis 0)
                                             (storeAfter 10)))
                  = JsMap.keys (network (storeAfter 10))).
  { eapply learn_hit_keys with (k := sampleIds 0).
    - simpl. left. reflexivity.
    - apply resonates_axis_same. lia. }
  assert (Hdue : saveDue (learn (conceptName 0) (axis 0) (storeAfter 10)) = true).
  { unfold saveDue. rewrite size_keys, Hkeys. reflexivity. }
  rewrite learn_unfold in Hdue |- *.
  destruct (learn_core_shell (conceptName 0) (axis 0) (storeAfter 10))
    as [Hw _].
  cbv zeta in *.
  set (w2 := strengthenPath _ _) in *.
  destruct (saveDue w2) eqn:E.
  - simpl. rewrite Hw. reflexivity.
  - congruence.
Qed.

Lemma learnAll_eleven :
  learnAll elevenCalls freshWorld =
  [false; false; false; false; false; false; false; false; false; true; true].
Proof.
  change freshWorld with (storeAfter 0).
  change elevenCalls with
    [(conceptName 0, axis 0); (conceptName 1, axis 1); (conceptName 2, axis 2);
     (conceptName 3, axis 3); (conceptName 4, axis 4); (conceptName 5, axis 5);
     (conceptName 6, axis 6); (conceptName 7, axis 7); (conceptName 8, axis 8);
     (conceptName 9, axis 9); (conceptName 0, axis 0)].
  do 10 (match goal with
         | |- learnAll ((?e, ?v) :: ?rest) ?w = _ =>
             change (learnAll ((e, v) :: rest) w)
               with (callSaves e v w :: learnAll rest (learn e v w));
             rewrite callSaves_step, learn_step by lia
         end; f_equal).
  change (learnAll [(conceptName 0, axis 0)] (storeAfter 10))
    with [callSaves (conceptName 0) (axis 0) (storeAfter 10)].
  now rewrite callSaves_again.
Qed.

Lemma learn_saves_on_size_witness :
  (writes (learn "x" [1] freshWorld) = writes freshWorld /\
   disk (learn "x" [1] freshWorld) = disk freshWorld) /\
  writes (learn (conceptName 9) (axis 9) (storeAfter 9)) = 1%nat.
Proof.
  split.
  - apply (learn_saves_on_size "x" [1] freshWorld). reflexivity.
  - apply (learn_saves_on_size (conceptName 9) (axis 9) (storeAfter 9)).
    rewrite learn_step by lia. reflexivity.
Defined.

(** C9, as stated, fails.  On a fresh instance, ten calls with ten
    unrelated concepts followed by a call that repeats the first concept:
    the tenth call writes the file, and so does the eleventh, which adds
    nothing to the store and is not a tenth call. *)
Lemma save_cadence_fails : ~ save_cadence elevenCalls freshWorld.
Proof.
  unfold save_cadence. rewrite learnAll_eleven. discriminate.
Qed.

(** ** Propagation: frame and termination *)

Lemma same_but_activation_refl (n : ActivationNode.t) : same_but_activation n n.
Proof. repeat split. Qed.

Lemma same_but_activation_trans (n1 n2 n3 : ActivationNode.t) :
  same_but_activation n1 n2 -> same_but_activation n2 n3 ->
  same_but_activation n1 n3.
Proof.
  unfold same_but_activation. intuition congruence.
Qed.

Lemma activation_only_refl (net : Network) : activation_only net net.
Proof.
  induction net as [|e net IH]; constructor; auto.
  split; [reflexivity | apply same_but_activation_refl].
Qed.

Lemma activation_only_trans (n1 n2 n3 : Network) :
  activation_only n1 n2 -> activation_only n2 n3 -> activation_only n1 n3.
Proof.
  intros H12. revert n3.
  induction H12 as [|e1 e2 l1 l2 [Hk Hs] _ IH]; intros n3 H23;
    inversion H23 as [|? e3 ? l3 [Hk' Hs'] Hrest]; subst; constructor.
  - split; [congruence | eapply same_but_activation_trans; eassumption].
  - now apply IH.
Qed.

Lemma activation_only_modify (net : Network) (r : string)
    (f : ActivationNode.t -> ActivationNode.t) :
  (forall n, same_but_activation n (f n)) ->
  activation_only net (JsMap.modify net r f).
Proof.
  intros Hf. induction net as [|[k n] net IH]; simpl; [constructor|].
  destruct (String.eqb k r).
  - constructor; [split; [reflexivity | apply Hf] | apply activation_only_refl].
  - constructor; [split; [reflexivity | apply same_but_activation_refl] | exact IH].
Qed.

Lemma activation_only_keys (net net' : Network) :
  activation_only net net' -> JsMap.keys net' = JsMap.keys net.
Proof.
  induction 1 as [|e e' l l' [Hk _] _ IH]; simpl; [reflexivity|].
  now rewrite Hk, IH.
Qed.

Lemma activation_only_get (net net' : Network) (k : string)
    (n : ActivationNode.t) :
  activation_only net net' -> JsMap.get net k = Some n ->
  exists n', JsMap.get net' k = Some n' /\ same_but_activation n n'.
Proof.
  induction 1 as [|[k1 n1] [k2 n2] l l' [Hk Hs] _ IH]; simpl; [discriminate|].
  simpl in Hk, Hs. subst k2. destruct (String.eqb k1 k).
  - intros [= <-]. eauto.
  - exact IH.
Qed.

Lemma network_updateCoherenceMetrics (path : list string) (w : World) :
  network (updateCoherenceMetrics path w) = network w.
Proof.
  unfold updateCoherenceMetrics.
  destruct (List.length path <? 2)%nat; reflexivity.
Qed.

Lemma same_shell_updateCoherenceMetrics (path : list string) (w : World) :
  same_shell w (updateCoherenceMetrics path w).
Proof.
  unfold updateCoherenceMetrics.
  destruct (List.length path <? 2)%nat;
    [apply same_shell_refl | apply same_shell_set_coherence].
Qed.

Lemma spreadTo_frame (params : ActivationParams.t) (edge : bool) (now : number)
    (current : string) (w : World) (fr : Front)
    (entry : string * NodeConnection.t) :
  activation_only (network w)
    (network (fst (spreadTo params edge now current (w, fr) entry))) /\
  same_shell w (fst (spreadTo params edge now current (w, fr) entry)).
Proof.
  unfold spreadTo. destruct entry as [connectedId connection].
  destruct (Set_has (visited fr) connectedId);
    [split; [apply activation_only_refl | apply same_shell_refl]|].
  destruct (JsMap.get (network w) connectedId) as [connectedNode|];
    [|split; [apply activation_only_refl | apply same_shell_refl]].
  destruct (JsMap.get (network w) current) as [cur|];
    [|split; [apply activation_only_refl | apply same_shell_refl]].
  match goal with
  | |- context [if gtb ?p ?t then _ else _] => destruct (gtb p t)
  end; simpl fst.
  - rewrite network_updateCoherenceMetrics. split.
    + eapply activation_only_trans;
        apply activation_only_modify; intros n; repeat split.
    + eapply same_shell_trans; [apply same_shell_update|].
      eapply same_shell_trans; [apply same_shell_update|].
      apply same_shell_updateCoherenceMetrics.
  - split.
    + apply activation_only_modify; intros n; repeat split.
    + apply same_shell_update.
Qed.

Lemma fold_spreadTo_frame (params : ActivationParams.t) (edge : bool)
    (now : number) (current : string)
    (entries : list (string * NodeConnection.t)) (w : World) (fr : Front) :
  activation_only (network w)
    (network (fst (fold_left (spreadTo params edge now current) entries (w, fr))))
  /\ same_shell w
       (fst (fold_left (spreadTo params edge now current) entries (w, fr))).
Proof.
  revert w fr.
  induction entries as [|entry entries IH]; intros w fr; cbn [fold_left].
  - split; [apply activation_only_refl | apply same_shell_refl].
  - destruct (spreadTo_frame params edge now current w fr entry) as [H1 H2].
    destruct (spreadTo params edge now current (w, fr) entry) as [w1 fr1].
    simpl in H1, H2. destruct (IH w1 fr1) as [H3 H4]. split.
    + eapply activation_only_trans; eassumption.
    + eapply same_shell_trans; eassumption.
Qed.

Lemma visit_frame (params : ActivationParams.t) (edge : bool)
    (current : string) (w : World) (fr : Front) :
  activation_only (network w) (network (fst (visit params edge current w fr)))
  /\ same_shell w (fst (visit params edge current w fr)).
Proof.
  unfold visit, Date_now.
  set (w1 := update current _ w).
  assert (H1 : activation_only (network w) (network (tick w1)))
    by (apply activation_only_modify; intros n; repeat split).
  assert (S1 : same_shell w (tick w1))
    by (eapply same_shell_trans;
        [apply same_shell_update | apply same_shell_tick]).
  destruct (JsMap.get (network (tick w1)) current) as [cur|]; [|now split].
  match goal with
  | |- context [if ?b then _ else _] => destruct b
  end; [now split|].
  match goal with
  | |- context [fold_left ?f ?l (?a, ?b)] =>
      destruct (fold_spreadTo_frame params edge (clock w1 (ticks w1)) current
                                    l a b) as [H2 S2]
  end.
  split.
  - eapply activation_only_trans; eassumption.
  - eapply same_shell_trans; eassumption.
Qed.

Lemma propagateLoop_frame (fuel : nat) (params : ActivationParams.t)
    (edge : bool) (w w' : World) (fr fr' : Front) :
  propagateLoop fuel params edge w fr = Some (w', fr') ->
  activation_only (network w) (network w') /\ same_shell w w'.
Proof.
  revert w fr. induction fuel as [|fuel IH]; intros w fr; cbn [propagateLoop].
  - destruct (wavefront fr); [|discriminate].
    intros [= <- <-]. split; [apply activation_only_refl | apply same_shell_refl].
  - destruct (wavefront fr) as [|current rest].
    + intros [= <- <-].
      split; [apply activation_only_refl | apply same_shell_refl].
    + match goal with
      | |- context [visit ?p ?e ?c ?w0 ?f0] =>
          destruct (visit_frame p e c w0 f0) as [H1 S1];
          destruct (visit p e c w0 f0) as [w1 fr1]
      end.
      simpl in H1, S1. intros H. destruct (IH _ _ H) as [H2 S2]. split.
      * eapply activation_only_trans; eassumption.
      * eapply same_shell_trans; eassumption.
Qed.

Lemma Set_has_app (v : list string) (k x : string) :
  Set_has (v ++ [k]) x = Set_has v x || String.eqb x k.
Proof.
  unfold Set_has. rewrite existsb_app. simpl. now rewrite orb_false_r.
Qed.

Lemma Set_has_In (v : list string) (x : string) :
  Set_has v x = true <-> In x v.
Proof.
  unfold Set_has. rewrite existsb_exists. split.
  - intros (y & Hin & E). apply String.eqb_eq in E. now subst.
  - intros Hin. exists x. split; [exact Hin | apply String.eqb_refl].
Qed.

Lemma filter_unvisited_le (v : list string) (k : string) (l : list string) :
  (List.length (filter (fun x => negb (Set_has (v ++ [k]) x)) l)
   <= List.length (filter (fun x => negb (Set_has v x)) l))%nat.
Proof.
  induction l as [|x l IH]; simpl; [lia|].
  rewrite Set_has_app.
  destruct (Set_has v x); simpl; [exact IH|].
  destruct (String.eqb x k); simpl; lia.
Qed.

Lemma filter_unvisited_lt (v : list string) (k : string) (l : list string) :
  In k l -> Set_has v k = false ->
  (List.length (filter (fun x => negb (Set_has (v ++ [k]) x)) l)
   < List.length (filter (fun x => negb (Set_has v x)) l))%nat.
Proof.
  intros Hin Hv. induction l as [|x l IH]; simpl; [contradiction|].
  rewrite Set_has_app. destruct Hin as [-> | Hin].
  - rewrite Hv, String.eqb_refl. simpl.
    pose proof (filter_unvisited_le v k l). lia.
  - specialize (IH Hin).
    destruct (Set_has v x); simpl; [exact IH|].
    destruct (String.eqb x k); simpl; lia.
Qed.

Lemma unvisited_same_keys (net net' : Network) (v : list string) :
  JsMap.keys net' = JsMap.keys net -> unvisited net' v = unvisited net v.
Proof. unfold unvisited. now intros ->. Qed.

Lemma spreadTo_budget (params : ActivationParams.t) (edge : bool) (now : number)
    (current : string) (w : World) (fr : Front)
    (entry : string * NodeConnection.t) :
  (budget (fst (spreadTo params edge now current (w, fr) entry))
          (snd (spreadTo params edge now current (w, fr) entry))
   <= budget w fr)%nat.
Proof.
  pose proof (spreadTo_frame params edge now current w fr entry) as [_ Hs].
  destruct Hs as (Hkeys & _). revert Hkeys.
  unfold spreadTo. destruct entry as [connectedId connection].
  destruct (Set_has (visited fr) connectedId) eqn:Hv; [simpl; lia|].
  destruct (JsMap.get (network w) connectedId) as [connectedNode|] eqn:Hget;
    [|simpl; lia].
  destruct (JsMap.get (network w) current) as [cur|]; [|simpl; lia].
  match goal with
  | |- context [if gtb ?p ?t then _ else _] => destruct (gtb p t)
  end; cbn [fst snd]; intros Hkeys; unfold budget;
    rewrite (unvisited_same_keys _ _ _ Hkeys); [|lia].
  cbn [wavefront visited]. rewrite length_app. simpl List.length.
  unfold unvisited.
  pose proof (filter_unvisited_lt (visited fr) connectedId
                (JsMap.keys (network w))
                (JsMapFacts.get_In_keys _ _ _ Hget) Hv).
  lia.
Qed.

Lemma fold_spreadTo_budget (params : ActivationParams.t) (edge : bool)
    (now : number) (current : string)
    (entries : list (string * NodeConnection.t)) (w : World) (fr : Front) :
  (budget (fst (fold_left (spreadTo params edge now current) entries (w, fr)))
          (snd (fold_left (spreadTo params edge now current) entries (w, fr)))
   <= budget w fr)%nat.
Proof.
  revert w fr.
  induction entries as [|entry entries IH]; intros w fr; cbn [fold_left].
  - simpl. lia.
  - pose proof (spreadTo_budget params edge now current w fr entry) as H1.
    destruct (spreadTo params edge now current (w, fr) entry) as [w1 fr1].
    simpl in H1. specialize (IH w1 fr1). lia.
Qed.

Lemma visit_budget (params : ActivationParams.t) (edge : bool)
    (current : string) (w : World) (fr : Front) :
  (budget (fst (visit params edge current w fr))
          (snd (visit params edge current w fr))
   <= budget w fr)%nat.
Proof.
  unfold visit, Date_now.
  set (w1 := update current _ w).
  assert (Hb : budget (tick w1) fr = budget w fr).
  { unfold budget. f_equal. apply unvisited_same_keys. simpl.
    apply JsMapFacts.keys_modify. }
  destruct (JsMap.get (network (tick w1)) current) as [cur|];
    [|cbn [fst snd]; lia].
  match goal with
  | |- context [if ?b then _ else _] => destruct b
  end; [cbn [fst snd]; lia|].
  match goal with
  | |- context [fold_left ?f ?l (?a, ?b)] =>
      pose proof (fold_spreadTo_budget params edge (clock w1 (ticks w1))
                    current l a b)
  end.
  lia.
Qed.

Lemma propagateLoop_total (fuel : nat) (params : ActivationParams.t)
    (edge : bool) (w : World) (fr : Front) :
  (budget w fr <= fuel)%nat ->
  exists w' fr', propagateLoop fuel params edge w fr = Some (w', fr').
Proof.
  revert w fr. induction fuel as [|fuel IH]; intros w fr Hb;
    cbn [propagateLoop]; unfold budget in Hb;
    destruct (wavefront fr) as [|current rest] eqn:Hw; eauto;
    simpl in Hb; [lia|].
  pose proof (visit_budget params edge current w
                (mkFront (visited fr) rest (activatedPath fr))) as Hv.
  destruct (visit params edge current w
              (mkFront (visited fr) rest (activatedPath fr))) as [w1 fr1].
  simpl in Hv. apply IH. unfold budget in Hv. simpl in Hv.
  unfold budget. lia.
Qed.

Lemma propagateActivation_total (startNodes : list string)
    (params : ActivationParams.t) (w : World) :
  exists path w', propagateActivation startNodes params w = Some (path, w').
Proof.
  unfold propagateActivation.
  match goal with
  | |- context [propagateLoop ?fuel ?p ?e ?w0 ?fr0] =>
      destruct (propagateLoop_total fuel p e w0 fr0) as (w' & fr' & ->)
  end.
  - unfold budget, unvisited. simpl.
    pose proof (filter_length_le
                  (fun k => negb (Set_has startNodes k))
                  (JsMap.keys (network w))).
    rewrite size_keys. lia.
  - eauto.
Qed.

(** C10.  [propagateActivation] returns, and the store it leaves holds the
    same nodes under the same ids in the same order, each with the same
    id, connection map (neighbours, weight, plasticityRate, lastFired),
    decay, threshold, refractoryPeriod, embedding and semanticContent:
    only [potential] and [lastFired] of nodes may differ. *)
Theorem propagateActivation_frame (startNodes : list string)
    (params : ActivationParams.t) (w : World) :
  exists path w',
    propagateActivation startNodes params w = Some (path, w') /\
    JsMap.keys (network w') = JsMap.keys (network w) /\
    forall k n, JsMap.get (network w) k = Some n ->
      exists n', JsMap.get (network w') k = Some n' /\
        ActivationNode.id n' = ActivationNode.id n /\
        ActivationNode.connections n' = ActivationNode.connections n /\
        ActivationNode.decay n' = ActivationNode.decay n /\
        ActivationNode.threshold n' = ActivationNode.threshold n /\
        ActivationNode.refractoryPeriod n' = ActivationNode.refractoryPeriod n /\
        ActivationNode.embedding n' = ActivationNode.embedding n /\
        ActivationNode.semanticContent n' = ActivationNode.semanticContent n.
Proof.
  destruct (propagateActivation_total startNodes params w) as (path & w' & H).
  exists path, w'. split; [exact H|].
  unfold propagateActivation in H.
  match type of H with
  | context [propagateLoop ?fuel ?p ?e ?w0 ?fr0] =>
      destruct (propagateLoop fuel p e w0 fr0) as [[w1 fr1]|] eqn:E;
      [|discriminate]
  end.
  injection H as _ <-.
  destruct (propagateLoop_frame _ _ _ _ _ _ _ E) as [Hframe _].
  split; [now apply activation_only_keys|].
  intros k n Hget. exact (activation_only_get _ _ _ _ Hframe Hget).
Qed.

(** ** Plasticity: what a pair update touches *)

Lemma get_update_same (r : string) (f : ActivationNode.t -> ActivationNode.t)
    (w : World) :
  JsMap.get (network (update r f w)) r = option_map f (JsMap.get (network w) r).
Proof. apply JsMapFacts.get_modify_same. Qed.

Lemma get_update_other (r k : string)
    (f : ActivationNode.t -> ActivationNode.t) (w : World) :
  r <> k -> JsMap.get (network (update r f w)) k = JsMap.get (network w) k.
Proof. apply JsMapFacts.get_modify_other. Qed.

Lemma conn_setConnection_same (a b : string) (c : NodeConnection.t) (w : World) :
  In a (JsMap.keys (network w)) ->
  connectionBetween (network (setConnection a b c w)) a b = Some c.
Proof.
  intros Hin. destruct (JsMapFacts.In_keys_get _ _ Hin) as [n Hn].
  unfold connectionBetween, setConnection.
  rewrite get_update_same, Hn. simpl. apply JsMapFacts.get_set_same.
Qed.

Lemma conn_setConnection_other (a b x y : string) (c : NodeConnection.t)
    (w : World) :
  x <> a \/ y <> b ->
  connectionBetween (network (setConnection a b c w)) x y =
  connectionBetween (network w) x y.
Proof.
  intros Hne. unfold connectionBetween, setConnection.
  destruct (string_dec a x) as [<- | Hax].
  - rewrite get_update_same.
    destruct (JsMap.get (network w) a) as [n|]; simpl; auto.
    apply JsMapFacts.get_set_other. intros ->. tauto.
  - now rewrite get_update_other.
Qed.

Lemma potentialOf_update_connections (r k : string)
    (g : ActivationNode.t -> JsMap.t NodeConnection.t) (w : World) :
  potentialOf (update r (fun n => ActivationNode.set_connections (g n) n) w) k
  = potentialOf w k.
Proof.
  unfold potentialOf. destruct (string_dec r k) as [<- | Hne].
  - rewrite get_update_same.
    destruct (JsMap.get (network w) r); reflexivity.
  - now rewrite get_update_other.
Qed.

Lemma potentialOf_setConnection (a b k : string) (c : NodeConnection.t)
    (w : World) :
  potentialOf (setConnection a b c w) k = potentialOf w k.
Proof.
  unfold setConnection.
  apply (potentialOf_update_connections a k
           (fun n => JsMap.set (ActivationNode.connections n) b c)).
Qed.

(** What [getOrCreate] returns and leaves behind. *)
Lemma getOrCreate_spec (a b : string) (w : World) :
  In a (JsMap.keys (network w)) ->
  let c := fst (getOrCreate a b w) in
  let w' := snd (getOrCreate a b w) in
  connectionBetween (network w') a b = Some c /\
  (forall x y, x <> a \/ y <> b ->
     connectionBetween (network w') x y = connectionBetween (network w) x y) /\
  (forall k, potentialOf w' k = potentialOf w k) /\
  match connectionBetween (network w) a b with
  | Some c0 => c = c0
  | None => c = newConnection (clock w (ticks w))
  end.
Proof.
  intros Hin. unfold getOrCreate, Date_now.
  destruct (connectionBetween (network w) a b) as [c0|] eqn:E; cbn [fst snd].
  - auto.
  - repeat split.
    + now apply conn_setConnection_same.
    + intros x y Hne. now rewrite conn_setConnection_other.
    + intros k. now rewrite potentialOf_setConnection.
Qed.

Lemma keys_same_shell (w w' : World) :
  same_shell w w' -> JsMap.keys (network w') = JsMap.keys (network w).
Proof. now intros (H & _). Qed.

Lemma getOrCreate_other (a b x y : string) (w : World) :
  x <> a \/ y <> b ->
  connectionBetween (network (snd (getOrCreate a b w))) x y =
  connectionBetween (network w) x y.
Proof.
  intros Hne. unfold getOrCreate, Date_now.
  destruct (connectionBetween (network w) a b); cbn [fst snd]; auto.
  now rewrite conn_setConnection_other.
Qed.

Lemma getOrCreate_potential (a b k : string) (w : World) :
  potentialOf (snd (getOrCreate a b w)) k = potentialOf w k.
Proof.
  unfold getOrCreate, Date_now.
  destruct (connectionBetween (network w) a b); cbn [fst snd]; auto.
  now rewrite potentialOf_setConnection.
Qed.

Lemma pair_neq (a b x y : string) : (x, y) <> (a, b) -> x <> a \/ y <> b.
Proof.
  intros Hne. destruct (string_dec x a) as [-> | H]; [|now left].
  right. intros ->. now apply Hne.
Qed.

Lemma strengthenPair_untouched (a b x y : string) (w : World) :
  (x, y) <> (a, b) -> (x, y) <> (b, a) ->
  connectionBetween (network (strengthenPair a b w)) x y =
  connectionBetween (network w) x y.
Proof.
  intros H1 H2. apply pair_neq in H1. apply pair_neq in H2.
  unfold strengthenPair, Date_now.
  pose proof (getOrCreate_other a b x y w H1) as E1.
  destruct (getOrCreate a b w) as [c w1]. cbn [fst snd] in E1.
  match goal with
  | |- context [getOrCreate b a ?w3] =>
      pose proof (getOrCreate_other b a x y w3 H2) as E3;
      destruct (getOrCreate b a w3) as [rc w4]
  end.
  cbn [fst snd] in E3.
  rewrite conn_setConnection_other by assumption. rewrite E3.
  rewrite conn_setConnection_other by assumption. exact E1.
Qed.

Lemma strengthenPair_potential (a b k : string) (w : World) :
  potentialOf (strengthenPair a b w) k = potentialOf w k.
Proof.
  unfold strengthenPair, Date_now.
  pose proof (getOrCreate_potential a b k w) as E1.
  destruct (getOrCreate a b w) as [c w1]. cbn [fst snd] in E1.
  match goal with
  | |- context [getOrCreate b a ?w3] =>
      pose proof (getOrCreate_potential b a k w3) as E3;
      destruct (getOrCreate b a w3) as [rc w4]
  end.
  cbn [fst snd] in E3.
  rewrite potentialOf_setConnection, E3, potentialOf_setConnection. exact E1.
Qed.

(** The two connections a pair update writes, for two distinct stored
    nodes. *)
Lemma strengthenPair_spec (a b : string) (w : World) :
  a <> b ->
  In a (JsMap.keys (network w)) -> In b (JsMap.keys (network w)) ->
  exists forward reverse now,
    (match connectionBetween (network w) a b with
     | Some c0 => forward = c0
     | None => exists t, forward = newConnection t
     end) /\
    (match connectionBetween (network w) b a with
     | Some c0 => reverse = c0
     | None => exists t, reverse = newConnection t
     end) /\
    let strengthening :=
      NodeConnection.plasticityRate forward * potentialOf w a * potentialOf w b in
    connectionBetween (network (strengthenPair a b w)) a b =
      Some (NodeConnection.mk
              (tanh (NodeConnection.weight forward + strengthening)) now
              (NodeConnection.plasticityRate forward)) /\
    connectionBetween (network (strengthenPair a b w)) b a =
      Some (NodeConnection.set_weight reverse
              (tanh (NodeConnection.weight reverse + strengthening * 0.7))).
Proof.
  intros Hab Ha Hb. unfold strengthenPair, Date_now.
  pose proof (getOrCreate_spec a b w Ha) as (_ & _ & _ & Hc).
  pose proof (getOrCreate_other a b b a w (or_introl (not_eq_sym Hab))) as Eba.
  pose proof (getOrCreate_potential a b a w) as Pa.
  pose proof (getOrCreate_potential a b b w) as Pb.
  pose proof (keys_same_shell _ _ (same_shell_getOrCreate a b w)) as K1.
  destruct (getOrCreate a b w) as [c w1]. cbn [fst snd] in *.
  rewrite Pa, Pb.
  set (strengthening :=
         NodeConnection.plasticityRate c * potentialOf w a * potentialOf w b).
  set (forward' :=
         NodeConnection.mk (tanh (NodeConnection.weight c + strengthening))
                           (clock w1 (ticks w1)) (NodeConnection.plasticityRate c)).
  set (w3 := setConnection a b forward' (tick w1)).
  assert (K3 : JsMap.keys (network w3) = JsMap.keys (network w)).
  { unfold w3, setConnection. simpl. rewrite JsMapFacts.keys_modify. exact K1. }
  assert (F3 : connectionBetween (network w3) a b = Some forward').
  { apply conn_setConnection_same. simpl. now rewrite K1. }
  assert (R3 : connectionBetween (network w3) b a
               = connectionBetween (network w) b a).
  { unfold w3. rewrite conn_setConnection_other by (left; congruence).
    exact Eba. }
  assert (Hb3 : In b (JsMap.keys (network w3))) by now rewrite K3.
  pose proof (getOrCreate_spec b a w3 Hb3) as (_ & _ & _ & Hrc).
  pose proof (getOrCreate_other b a a b w3 (or_introl Hab)) as Eab.
  pose proof (keys_same_shell _ _ (same_shell_getOrCreate b a w3)) as K4.
  destruct (getOrCreate b a w3) as [rc w4]. cbn [fst snd] in *.
  exists c, rc, (clock w1 (ticks w1)). split; [|split; [|split]].
  - destruct (connectionBetween (network w) a b); [exact Hc | eauto].
  - rewrite R3 in Hrc.
    destruct (connectionBetween (network w) b a); [exact Hrc | eauto].
  - rewrite conn_setConnection_other by (left; congruence).
    rewrite Eab. exact F3.
  - apply conn_setConnection_same. rewrite K4. exact Hb3.
Qed.

Lemma hebbian_untouched (path : list string) (x y : string) (w : World) :
  ~ In x path \/ ~ In y path ->
  connectionBetween (network (hebbian path w)) x y =
  connectionBetween (network w) x y.
Proof.
  revert w. induction path as [|a rest IH]; intros w Hout; [reflexivity|].
  destruct rest as [|b rest']; [reflexivity|].
  change (hebbian (a :: b :: rest') w)
    with (hebbian (b :: rest') (strengthenPair a b w)).
  rewrite IH by (simpl in *; tauto).
  apply strengthenPair_untouched; intros [= -> ->]; simpl in Hout; tauto.
Qed.

Lemma hebbian_potential (path : list string) (k : string) (w : World) :
  potentialOf (hebbian path w) k = potentialOf w k.
Proof.
  revert w. induction path as [|a rest IH]; intros w; [reflexivity|].
  destruct rest as [|b rest']; [reflexivity|].
  change (hebbian (a :: b :: rest') w)
    with (hebbian (b :: rest') (strengthenPair a b w)).
  rewrite IH. apply strengthenPair_potential.
Qed.

Lemma hebbian_app (pre : list string) (a : string) (rest : list string)
    (w : World) :
  hebbian (pre ++ a :: rest) w = hebbian (a :: rest) (hebbian (pre ++ [a]) w).
Proof.
  revert w. induction pre as [|p pre IH]; intros w; [reflexivity|].
  destruct pre as [|q pre'].
  - reflexivity.
  - change (hebbian ((p :: q :: pre') ++ a :: rest) w)
      with (hebbian ((q :: pre') ++ a :: rest) (strengthenPair p q w)).
    change (hebbian ((p :: q :: pre') ++ [a]) w)
      with (hebbian ((q :: pre') ++ [a]) (strengthenPair p q w)).
    apply IH.
Qed.

(** ** Plasticity: the anti-Hebbian pass *)

Lemma get_weaken (path : list string) (m : JsMap.t NodeConnection.t)
    (y : string) :
  JsMap.get (map (weaken path) m) y = option_map (weakened path y) (JsMap.get m y).
Proof.
  induction m as [|[k c] m IH]; simpl; auto.
  destruct (String.eqb k y) eqn:E; auto.
  apply String.eqb_eq in E. now subst.
Qed.

Lemma conn_weakenUnused_same (path : list string) (x y : string) (w : World) :
  connectionBetween (network (weakenUnused path x w)) x y =
  option_map (weakened path y) (connectionBetween (network w) x y).
Proof.
  unfold connectionBetween, weakenUnused. rewrite get_update_same.
  destruct (JsMap.get (network w) x) as [n|]; simpl; auto.
  apply get_weaken.
Qed.

Lemma conn_weakenUnused_other (path : list string) (node x y : string)
    (w : World) :
  node <> x ->
  connectionBetween (network (weakenUnused path node w)) x y =
  connectionBetween (network w) x y.
Proof.
  intros Hne. unfold connectionBetween, weakenUnused.
  now rewrite get_update_other.
Qed.

Lemma weakened_in_path (path : list string) (y : string) (c : NodeConnection.t) :
  In y path -> weakened path y c = c.
Proof.
  intros Hin. unfold weakened.
  now rewrite (proj2 (Set_has_In path y) Hin).
Qed.


(** The pass over the nodes [l], with the membership test against [path]. *)
Lemma fold_weaken_in_path (path l : list string) (x y : string) (w : World) :
  In y path ->
  connectionBetween
    (network (fold_left (fun w node => weakenUnused path node w) l w)) x y =
  connectionBetween (network w) x y.
Proof.
  intros Hin. revert w. induction l as [|node l IH]; intros w; simpl; auto.
  rewrite IH. destruct (string_dec node x) as [-> | Hne].
  - rewrite conn_weakenUnused_same.
    destruct (connectionBetween (network w) x y); simpl; auto.
    now rewrite weakened_in_path.
  - now apply conn_weakenUnused_other.
Qed.


Lemma antiHebbian_in_path (path : list string) (x y : string) (w : World) :
  In y path ->
  connectionBetween (network (antiHebbian path w)) x y =
  connectionBetween (network w) x y.
Proof. apply fold_weaken_in_path. Qed.

(** C5, as amended.  After [strengthenPath] on a path in which [a] is
    followed by [b], two stored nodes with no connection either way (the
    path without repeated nodes), both connections exist with
    plasticityRate 0.1; the forward weight is tanh(0.1 + delta) and the
    reverse weight is tanh(0.1 + 0.7 delta) for
    delta = 0.1 * a.potential * b.potential.  For delta of 0 or more the
    reverse weight is not above the forward weight, and for delta from
    1e-9 to 10 it gained strictly less over the creation default 0.1 than
    the forward weight. *)
Theorem strengthen_unconnected_pair (pre post : list string) (a b : string)
    (w : World) :
  NoDup (pre ++ a :: b :: post) ->
  In a (JsMap.keys (network w)) -> In b (JsMap.keys (network w)) ->
  connectionBetween (network w) a b = None ->
  connectionBetween (network w) b a = None ->
  let delta := 0.1 * potentialOf w a * potentialOf w b in
  let w' := strengthenPath (pre ++ a :: b :: post) w in
  exists forward reverse,
    connectionBetween (network w') a b = Some forward /\
    connectionBetween (network w') b a = Some reverse /\
    NodeConnection.weight forward = tanh (0.1 + delta) /\
    NodeConnection.plasticityRate forward = 0.1 /\
    NodeConnection.weight reverse = tanh (0.1 + delta * 0.7) /\
    NodeConnection.plasticityRate reverse = 0.1 /\
    (0 <= delta ->
     NodeConnection.weight reverse <= NodeConnection.weight forward) /\
    (1e-9 <= delta <= 10 ->
     NodeConnection.weight reverse - 0.1 < NodeConnection.weight forward - 0.1).
Proof.
  intros Hnd Ha Hb Hab Hba delta w'. subst w'.
  assert (Hne : a <> b).
  { intros ->. apply NoDup_remove_2 in Hnd. apply Hnd.
    apply in_or_app. right. now left. }
  assert (Hb_pre : ~ In b (pre ++ [a])).
  { intros Hin. apply in_app_or in Hin.
    replace (pre ++ a :: b :: post) with ((pre ++ [a]) ++ b :: post) in Hnd
      by (rewrite <- app_assoc; reflexivity).
    apply NoDup_remove_2 in Hnd. apply Hnd. apply in_or_app. left.
    apply in_or_app. exact Hin. }
  assert (Ha_post : ~ In a (b :: post)).
  { intros Hin. apply NoDup_remove_2 in Hnd. apply Hnd.
    apply in_or_app. now right. }
  unfold strengthenPath.
  rewrite !antiHebbian_in_path
    by (apply in_or_app; right; simpl; tauto).
  rewrite hebbian_app.
  change (hebbian (a :: b :: post) (hebbian (pre ++ [a]) w))
    with (hebbian (b :: post) (strengthenPair a b (hebbian (pre ++ [a]) w))).
  rewrite !hebbian_untouched by tauto.
  set (w0 := hebbian (pre ++ [a]) w).
  assert (K0 : JsMap.keys (network w0) = JsMap.keys (network w))
    by apply keys_same_shell, same_shell_hebbian.
  destruct (strengthenPair_spec a b w0 Hne) as
    (forward & reverse & now & Hf & Hr & Hfwd & Hrev);
    [now rewrite K0 | now rewrite K0 |].
  unfold w0 in Hf, Hr. rewrite hebbian_untouched in Hf, Hr by tauto.
  rewrite Hab in Hf. rewrite Hba in Hr.
  destruct Hf as [t ->]. destruct Hr as [t' ->].
  unfold w0 in Hfwd, Hrev. rewrite !hebbian_potential in Hfwd, Hrev.
  simpl in Hfwd, Hrev. fold delta in Hfwd, Hrev. fold w0 in Hfwd, Hrev.
  eexists. eexists. split; [exact Hfwd|]. split; [exact Hrev|].
  simpl. split; [reflexivity|]. split; [reflexivity|].
  split; [reflexivity|]. split; [reflexivity|]. split.
  - intros [Hpos | <-].
    + left. apply tanh_increasing. lra.
    + right. f_equal. lra.
  - intros [Hlo Hhi].
    assert (tanh (0.1 + delta * 0.7) < tanh (0.1 + delta))
      by (apply tanh_increasing; lra).
    lra.
Qed.

Lemma strengthen_unconnected_pair_witness :
  exists forward reverse,
    connectionBetween
      (network (strengthenPath ["a"; "b"]%string world_unconnected))
      "a" "b" = Some forward /\
    connectionBetween
      (network (strengthenPath ["a"; "b"]%string world_unconnected))
      "b" "a" = Some reverse /\
    NodeConnection.weight reverse - 0.1 < NodeConnection.weight forward - 0.1.
Proof.
  destruct (strengthen_unconnected_pair [] [] "a" "b" world_unconnected)
    as (forward & reverse & Hf & Hr & _ & _ & _ & _ & _ & Hlt).
  - simpl. repeat constructor; simpl; intuition discriminate.
  - simpl. tauto.
  - simpl. tauto.
  - reflexivity.
  - reflexivity.
  - exists forward, reverse. split; [exact Hf|]. split; [exact Hr|].
    apply Hlt. unfold potentialOf. simpl. lra.
Defined.

(** On binary64 values [x < x] never holds. *)
Lemma Double_lt_irrefl (x : PrimFloat.float) : ~ Double.lt x x.
Proof.
  unfold Double.lt, SpecFloat.SFltb, SpecFloat.SFcompare.
  destruct (FloatOps.Prim2SF x) as [[]|[]| |[] m e]; try discriminate;
    rewrite Z.compare_refl, ?Pos.compare_refl; simpl;
    rewrite ?Pos.compare_refl; discriminate.
Qed.

(** C5, as stated, fails on binary64 values.  Between two nodes of
    potential 1e-9 each, delta is 0.1 * 1e-9 * 1e-9, positive, and both
    0.1 + delta and 0.1 + delta * 0.7 round to 0.1: the two weights are
    [Math.tanh] of the same number, whatever [Math.tanh] computes, and the
    two gains are equal. *)
Lemma reverse_gain_equal_when_absorbed :
  ~ exists Math_tanh,
      Double.reverse_gains_less Math_tanh
        Double.tinyPotential Double.tinyPotential.
Proof.
  intros (Math_tanh & H).
  assert (Hpos : Double.lt PrimFloat.zero
                   (Double.strengthening Double.createdRate
                      Double.tinyPotential Double.tinyPotential))
    by (vm_compute; reflexivity).
  apply H in Hpos.
  assert (E : Double.firstReverse Math_tanh
                Double.tinyPotential Double.tinyPotential
              = Double.firstForward Math_tanh
                  Double.tinyPotential Double.tinyPotential).
  { unfold Double.firstReverse, Double.firstForward.
    unfold Double.reverse, Double.forward. f_equal. }
  rewrite E in Hpos. exact (Double_lt_irrefl _ Hpos).
Qed.




(** On binary64 values the decay leaves a weight in the lowest part of
    the subnormal range as it is: 2.4e-322 * 0.99 rounds to 2.4e-322. *)
Remark decay_absorbed_at_subnormal_weight :
  Double.weakened Double.subnormalWeight = Double.subnormalWeight /\
  Double.lt PrimFloat.zero Double.subnormalWeight.
Proof. split; [reflexivity | vm_compute; reflexivity]. Qed.

(** ** Weight bound *)

Lemma In_modify {V : Type} (m : JsMap.t V) (r k : string) (f : V -> V) (v' : V) :
  In (k, v') (JsMap.modify m r f) ->
  In (k, v') m \/ exists v, In (r, v) m /\ k = r /\ v' = f v.
Proof.
  induction m as [|[k0 v0] m IH]; simpl; [tauto|].
  destruct (String.eqb k0 r) eqn:E; simpl.
  - apply String.eqb_eq in E. subst k0.
    intros [[= <- <-] | Hin]; [right; eauto | left; now right].
  - intros [Heq | Hin]; [left; now left|].
    destruct (IH Hin) as [H | (v & H & Hk & Hv)]; [left; now right|].
    right. exists v. auto.
Qed.

Lemma In_set {V : Type} (m : JsMap.t V) (k0 k : string) (v0 v' : V) :
  In (k, v') (JsMap.set m k0 v0) -> In (k, v') m \/ (k = k0 /\ v' = v0).
Proof.
  induction m as [|[k1 v1] m IH]; simpl.
  - intros [[= <- <-] | []]. now right.
  - destruct (String.eqb k1 k0) eqn:E; simpl.
    + apply String.eqb_eq in E. subst k1.
      intros [[= <- <-] | Hin]; [now right | left; now right].
    + intros [Heq | Hin]; [left; now left|].
      destruct (IH Hin) as [H | H]; [left; now right | now right].
Qed.










Lemma activation_only_In (net net' : Network) (k : string)
    (n' : ActivationNode.t) :
  activation_only net net' -> In (k, n') net' ->
  exists n, In (k, n) net /\ same_but_activation n n'.
Proof.
  induction 1 as [|[k1 n1] [k2 n2] l l' [Hk Hs] _ IH]; simpl; [tauto|].
  simpl in Hk, Hs. subst k2. intros [[= <- <-] | Hin].
  - eauto.
  - destruct (IH Hin) as (n & Hn & Hsame). eauto.
Qed.










(** ** Propagation: a visited node is only touched by its own decay *)

Lemma spreadTo_keeps (params : ActivationParams.t) (edge : bool) (now : number)
    (current : string) (w : World) (fr : Front)
    (entry : string * NodeConnection.t) (k : string) :
  Set_has (visited fr) k = true ->
  JsMap.get (network (fst (spreadTo params edge now current (w, fr) entry))) k
    = JsMap.get (network w) k /\
  Set_has (visited (snd (spreadTo params edge now current (w, fr) entry))) k
    = true /\
  (In k (wavefront (snd (spreadTo params edge now current (w, fr) entry))) ->
   In k (wavefront fr)).
Proof.
  intros Hk. unfold spreadTo. destruct entry as [connectedId connection].
  destruct (Set_has (visited fr) connectedId) eqn:Hv; [simpl; auto|].
  assert (Hne : connectedId <> k) by (intros ->; congruence).
  destruct (JsMap.get (network w) connectedId) as [connectedNode|];
    [|simpl; auto].
  destruct (JsMap.get (network w) current) as [cur|]; [|simpl; auto].
  match goal with
  | |- context [if gtb ?p ?t then _ else _] => destruct (gtb p t)
  end; cbn [fst snd].
  - rewrite network_updateCoherenceMetrics.
    rewrite !get_update_other by assumption.
    cbn [visited wavefront]. rewrite Set_has_app, Hk. repeat split.
    intros Hin. apply in_app_or in Hin.
    destruct Hin as [Hin | [-> | []]]; [exact Hin | contradiction].
  - rewrite get_update_other by assumption. auto.
Qed.

Lemma fold_spreadTo_keeps (params : ActivationParams.t) (edge : bool)
    (now : number) (current : string)
    (entries : list (string * NodeConnection.t)) (w : World) (fr : Front)
    (k : string) :
  Set_has (visited fr) k = true ->
  let r := fold_left (spreadTo params edge now current) entries (w, fr) in
  JsMap.get (network (fst r)) k = JsMap.get (network w) k /\
  Set_has (visited (snd r)) k = true /\
  (In k (wavefront (snd r)) -> In k (wavefront fr)).
Proof.
  revert w fr.
  induction entries as [|entry entries IH]; intros w fr Hk; cbn [fold_left].
  - simpl. auto.
  - destruct (spreadTo_keeps params edge now current w fr entry k Hk)
      as (G1 & V1 & W1).
    destruct (spreadTo params edge now current (w, fr) entry) as [w1 fr1].
    cbn [fst snd] in G1, V1, W1.
    destruct (IH w1 fr1 V1) as (G2 & V2 & W2).
    cbv zeta. rewrite G2, G1. auto.
Qed.

Lemma visit_keeps (params : ActivationParams.t) (edge : bool)
    (current : string) (w : World) (fr : Front) (k : string) :
  Set_has (visited fr) k = true ->
  let r := visit params edge current w fr in
  JsMap.get (network (fst r)) k
    = JsMap.get (network (update current (decayed params) w)) k /\
  Set_has (visited (snd r)) k = true /\
  (In k (wavefront (snd r)) -> In k (wavefront fr)).
Proof.
  intros Hk. unfold visit, Date_now. cbv zeta.
  set (w1 := update current (decayed params) w).
  destruct (JsMap.get (network (tick w1)) current) as [cur|];
    [|cbn [fst snd]; auto].
  match goal with
  | |- context [if ?b then _ else _] => destruct b
  end; [cbn [fst snd]; auto|].
  match goal with
  | |- context [fold_left ?f ?l (?a, ?b)] =>
      exact (fold_spreadTo_keeps params edge (clock w1 (ticks w1)) current
                                 l a b k Hk)
  end.
Qed.

Lemma propagateLoop_keeps (fuel : nat) (params : ActivationParams.t)
    (edge : bool) (w w' : World) (fr fr' : Front) (k : string) :
  Set_has (visited fr) k = true -> ~ In k (wavefront fr) ->
  propagateLoop fuel params edge w fr = Some (w', fr') ->
  JsMap.get (network w') k = JsMap.get (network w) k.
Proof.
  revert w fr. induction fuel as [|fuel IH]; intros w fr Hk Hout;
    cbn [propagateLoop]; destruct (wavefront fr) as [|current rest] eqn:Hw;
    try discriminate; try (now intros [= <- <-]).
  assert (Hne : current <> k) by (intros ->; apply Hout; now left).
  pose proof (visit_keeps params edge current w
                (mkFront (visited fr) rest (activatedPath fr)) k Hk)
    as (G & V & W).
  destruct (visit params edge current w
              (mkFront (visited fr) rest (activatedPath fr))) as [w1 fr1].
  cbn [fst snd wavefront] in G, V, W.
  intros H. rewrite (IH w1 fr1 V) by (try exact H; intros Hin; apply Hout;
                                       right; now apply W).
  rewrite G. now apply get_update_other.
Qed.

(** ** Propagation over one edge *)

Section SingleEdge.
Variables (a b : string) (nA nB : ActivationNode.t) (c : NodeConnection.t).
Variables (params : ActivationParams.t) (w : World).
Hypothesis Hab : a <> b.
Hypothesis HA : JsMap.get (network w) a = Some nA.
Hypothesis HB : JsMap.get (network w) b = Some nB.
Hypothesis Hconn : ActivationNode.connections nA = [(b, c)].
Hypothesis Hready :
  ltb (clock w (ticks w) - ActivationNode.lastFired nA)
      (ActivationNode.refractoryPeriod nA) = false.

Let base : number :=
  ActivationNode.potential nA * ActivationParams.decay params
  * NodeConnection.weight c * ActivationParams.spread params.

Let reached : number :=
  ActivationNode.potential nB
  + (base + (if isEdgeOfChaos w then alpha * tanh base else 0)).

Let now : number := clock w (ticks w).

Let w2 : World := tick (update a (decayed params) w).

Let w3 : World := update b (ActivationNode.set_potential reached) w2.

(** The first iteration of the loop. *)
Lemma visit_seed :
  visit params (isEdgeOfChaos w) a w (mkFront [a] [] [a]) =
  if gtb reached (ActivationParams.threshold params)
  then (updateCoherenceMetrics [a; b]
          (update b (ActivationNode.set_lastFired now) w3),
        mkFront [a; b] [b] [a; b])
  else (w3, mkFront [a] [] [a]).
Proof.
  unfold visit, Date_now. fold w2.
  assert (HA2 : JsMap.get (network w2) a = Some (decayed params nA)).
  { unfold w2. change (network (tick ?x)) with (network x).
    rewrite get_update_same, HA. reflexivity. }
  assert (HB2 : JsMap.get (network w2) b = Some nB).
  { unfold w2. change (network (tick ?x)) with (network x).
    rewrite get_update_other by assumption. exact HB. }
  rewrite HA2.
  change (ActivationNode.lastFired (decayed params nA))
    with (ActivationNode.lastFired nA).
  change (ActivationNode.refractoryPeriod (decayed params nA))
    with (ActivationNode.refractoryPeriod nA).
  change (clock (update a (decayed params) w) (ticks (update a (decayed params) w)))
    with now.
  unfold now at 1. rewrite Hready.
  change (ActivationNode.connections (decayed params nA))
    with (ActivationNode.connections nA).
  rewrite Hconn. cbn [fold_left]. unfold spreadTo. cbn [visited].
  assert (Hv : Set_has [a] b = false).
  { unfold Set_has. simpl. rewrite orb_false_r. apply String.eqb_neq.
    congruence. }
  rewrite Hv, HB2, HA2.
  change (ActivationNode.potential (decayed params nA))
    with (ActivationNode.potential nA * ActivationParams.decay params).
  fold base. fold reached. fold w3. reflexivity.
Qed.

Lemma potential_w3 : potentialOf w3 b = reached.
Proof.
  unfold potentialOf, w3. rewrite get_update_same.
  unfold w2. change (network (tick ?x)) with (network x).
  rewrite get_update_other by assumption. rewrite HB. reflexivity.
Qed.

(** What propagation seeded at [a] leaves in [b]. *)
Lemma propagate_single_edge :
  exists path w',
    propagateActivation [a] params w = Some (path, w') /\
    potentialOf w' b =
      if gtb reached (ActivationParams.threshold params)
      then reached * ActivationParams.decay params else reached.
Proof.
  destruct (propagateActivation_total [a] params w) as (path & w' & H).
  exists path, w'. split; [exact H|].
  unfold propagateActivation in H.
  match type of H with
  | context [propagateLoop ?fuel ?p ?e ?w0 ?fr0] =>
      destruct (propagateLoop fuel p e w0 fr0) as [[w1 fr1]|] eqn:E;
      [|discriminate]
  end.
  injection H as _ <-.
  change (List.length [a] + JsMap.size (network w))%nat
    with (S (JsMap.size (network w))) in E.
  cbn [propagateLoop wavefront visited activatedPath] in E.
  rewrite visit_seed in E.
  destruct (gtb reached (ActivationParams.threshold params)).
  - destruct (JsMap.size (network w)) as [|fuel];
      cbn [propagateLoop wavefront visited activatedPath] in E;
      [discriminate|].
    set (w5 := updateCoherenceMetrics [a; b]
                 (update b (ActivationNode.set_lastFired now) w3)) in E.
    assert (Hv : Set_has [a; b] b = true)
      by (apply Set_has_In; simpl; tauto).
    pose proof (visit_keeps params (isEdgeOfChaos w) b w5
                  (mkFront [a; b] [] [a; b]) b Hv) as (G & V & W).
    destruct (visit params (isEdgeOfChaos w) b w5 (mkFront [a; b] [] [a; b]))
      as [w6 fr6].
    cbn [fst snd wavefront] in G, V, W.
    assert (Hkeep : JsMap.get (network w1) b = JsMap.get (network w6) b).
    { eapply propagateLoop_keeps; [exact V | | exact E].
      intros Hin. exact (W Hin). }
    unfold potentialOf. rewrite Hkeep, G, get_update_same.
    unfold w5. rewrite network_updateCoherenceMetrics, get_update_same.
    pose proof potential_w3 as P3. unfold potentialOf in P3.
    destruct (JsMap.get (network w3) b) as [n3|] eqn:E3.
    + simpl. now rewrite P3.
    + unfold w3 in E3. rewrite get_update_same in E3.
      unfold w2 in E3. change (network (tick ?x)) with (network x) in E3.
      rewrite get_update_other, HB in E3 by assumption. discriminate.
  - cbn [propagateLoop wavefront] in E.
    destruct (JsMap.size (network w)); cbn [propagateLoop wavefront] in E;
      injection E as <- _; apply potential_w3.
Qed.

End SingleEdge.

(** ** Paths the engine builds hold distinct stored nodes

    [strengthenPath] is only ever called on the result of
    [findResonantNodes] (in [learn]) or of [propagateActivation] seeded
    with such a result (in [think]). *)

Lemma resonantScan_refs_keys (embedding : Float32Array) (net : Network)
    (k : string) :
  In k (snd (resonantScan embedding net)) -> In k (JsMap.keys net).
Proof.
  intros Hin. apply resonantScan_refs in Hin.
  destruct Hin as (n & s & Hin & _).
  change k with (fst (k, n)). now apply in_map.
Qed.

Lemma resonantScan_NoDup (embedding : Float32Array) (net : Network) :
  NoDup (JsMap.keys net) -> NoDup (snd (resonantScan embedding net)).
Proof.
  induction net as [|[k n] net IH]; simpl; intros Hnd; [constructor|].
  inversion Hnd as [|? ? Hout Hnd']; subst.
  pose proof (resonantScan_refs_keys embedding net k) as Hsub.
  specialize (IH Hnd').
  destruct (resonantScan embedding net) as [rest' res]. simpl in *.
  destruct (resonates embedding n); simpl; [|exact IH].
  constructor; [|exact IH]. intros Hin. apply Hout. now apply Hsub.
Qed.

Lemma findResonantNodes_path (embedding : Float32Array) (text : option string)
    (w : World) :
  NoDup (JsMap.keys (network w)) ->
  path_of_distinct_nodes (snd (findResonantNodes embedding text w))
                         (fst (findResonantNodes embedding text w)).
Proof.
  intros Hnd.
  destruct (snd (resonantScan embedding (network w))) eqn:E.
  - rewrite findResonantNodes_miss by assumption. cbn [fst snd]. split.
    + repeat constructor. simpl. tauto.
    + intros k [<- | []]. simpl.
      eapply JsMapFacts.get_In_keys. apply JsMapFacts.get_set_same.
  - rewrite findResonantNodes_hit by (rewrite E; discriminate).
    cbn [fst snd]. split.
    + now apply resonantScan_NoDup.
    + intros k Hin. simpl. rewrite resonantScan_store.
      rewrite (keys_map_snd (fun _ n => rescored embedding n)).
      now apply (resonantScan_refs_keys embedding).
Qed.

Lemma front_ok_shell (w w' : World) (fr : Front) :
  same_shell w w' -> front_ok w fr -> front_ok w' fr.
Proof.
  intros Hs (Hp & Hnd & Hin). repeat split; auto.
  intros k Hk. rewrite (keys_same_shell _ _ Hs). auto.
Qed.

Lemma spreadTo_front_ok (params : ActivationParams.t) (edge : bool)
    (now : number) (current : string) (w : World) (fr : Front)
    (entry : string * NodeConnection.t) :
  front_ok w fr ->
  front_ok (fst (spreadTo params edge now current (w, fr) entry))
           (snd (spreadTo params edge now current (w, fr) entry)).
Proof.
  intros Hok.
  pose proof (spreadTo_frame params edge now current w fr entry) as [_ Hs].
  revert Hs. unfold spreadTo. destruct entry as [connectedId connection].
  destruct (Set_has (visited fr) connectedId) eqn:Hv; [now cbn [fst snd]|].
  destruct (JsMap.get (network w) connectedId) as [connectedNode|] eqn:Hget;
    [|now cbn [fst snd]].
  destruct (JsMap.get (network w) current) as [cur|]; [|now cbn [fst snd]].
  match goal with
  | |- context [if gtb ?p ?t then _ else _] => destruct (gtb p t)
  end; cbn [fst snd]; intros Hs.
  - destruct Hok as (Hp & Hnd & Hin).
    pose proof (keys_same_shell _ _ Hs) as Hkeys.
    repeat split; cbn [activatedPath visited] in Hkeys |- *.
    + now rewrite Hp.
    + apply NoDup_app; [exact Hnd | repeat constructor; simpl; tauto |].
      intros x Hx [Heq | []]. subst x.
      apply (proj2 (Set_has_In (visited fr) connectedId)) in Hx. congruence.
    + intros k Hk. rewrite Hkeys.
      apply in_app_or in Hk. destruct Hk as [Hk | [<- | []]]; auto.
      eapply JsMapFacts.get_In_keys. exact Hget.
  - eapply front_ok_shell; eassumption.
Qed.

Lemma fold_spreadTo_front_ok (params : ActivationParams.t) (edge : bool)
    (now : number) (current : string)
    (entries : list (string * NodeConnection.t)) (w : World) (fr : Front) :
  front_ok w fr ->
  front_ok (fst (fold_left (spreadTo params edge now current) entries (w, fr)))
           (snd (fold_left (spreadTo params edge now current) entries (w, fr))).
Proof.
  revert w fr.
  induction entries as [|entry entries IH]; intros w fr Hok; cbn [fold_left].
  - exact Hok.
  - pose proof (spreadTo_front_ok params edge now current w fr entry Hok) as H1.
    destruct (spreadTo params edge now current (w, fr) entry) as [w1 fr1].
    now apply IH.
Qed.

Lemma visit_front_ok (params : ActivationParams.t) (edge : bool)
    (current : string) (w : World) (fr : Front) :
  front_ok w fr ->
  front_ok (fst (visit params edge current w fr))
           (snd (visit params edge current w fr)).
Proof.
  intros Hok. unfold visit, Date_now.
  set (w1 := update current (decayed params) w).
  assert (H1 : front_ok (tick w1) fr).
  { eapply front_ok_shell; [|exact Hok].
    eapply same_shell_trans; [apply same_shell_update | apply same_shell_tick]. }
  destruct (JsMap.get (network (tick w1)) current) as [cur|];
    [|now cbn [fst snd]].
  match goal with
  | |- context [if ?b then _ else _] => destruct b
  end; [now cbn [fst snd]|].
  now apply fold_spreadTo_front_ok.
Qed.

Lemma propagateLoop_front_ok (fuel : nat) (params : ActivationParams.t)
    (edge : bool) (w w' : World) (fr fr' : Front) :
  front_ok w fr ->
  propagateLoop fuel params edge w fr = Some (w', fr') -> front_ok w' fr'.
Proof.
  revert w fr. induction fuel as [|fuel IH]; intros w fr Hok;
    cbn [propagateLoop]; destruct (wavefront fr) as [|current rest];
    try discriminate; try (now intros [= <- <-]).
  assert (Hok1 : front_ok w (mkFront (visited fr) rest (activatedPath fr)))
    by exact Hok.
  pose proof (visit_front_ok params edge current w _ Hok1) as H1.
  destruct (visit params edge current w
              (mkFront (visited fr) rest (activatedPath fr))) as [w1 fr1].
  now apply IH.
Qed.

(** The path [propagateActivation] returns from distinct stored seeds
    holds distinct stored nodes. *)
Lemma propagateActivation_path (startNodes : list string)
    (params : ActivationParams.t) (w w' : World) (path : list string) :
  path_of_distinct_nodes w startNodes ->
  propagateActivation startNodes params w = Some (path, w') ->
  path_of_distinct_nodes w' path.
Proof.
  intros Hseeds H. unfold propagateActivation in H.
  match type of H with
  | context [propagateLoop ?fuel ?p ?e ?w0 ?fr0] =>
      destruct (propagateLoop fuel p e w0 fr0) as [[w1 fr1]|] eqn:E;
      [|discriminate]
  end.
  injection H as <- <-.
  assert (Hok : front_ok w (mkFront startNodes startNodes startNodes))
    by (split; [reflexivity | exact Hseeds]).
  destruct (propagateLoop_front_ok _ _ _ _ _ _ _ Hok E) as (Hp & Hpath).
  now rewrite Hp.
Qed.

(** ** The store invariant holds in every state the engine reaches *)

Lemma wf_network_set (net : Network) (k : string) (n : ActivationNode.t) :
  wf_network net -> ActivationNode.id n = k ->
  NoDup (JsMap.keys (ActivationNode.connections n)) ->
  wf_network (JsMap.set net k n).
Proof.
  intros [Hnd Hall] Hid Hc. split.
  - now apply JsMapFacts.NoDup_keys_set.
  - intros k' n' Hin. apply In_set in Hin.
    destruct Hin as [Hin | [-> ->]]; auto.
Qed.

Lemma wf_network_modify (net : Network) (r : string)
    (f : ActivationNode.t -> ActivationNode.t) :
  (forall n, ActivationNode.id (f n) = ActivationNode.id n) ->
  (forall n, NoDup (JsMap.keys (ActivationNode.connections n)) ->
             NoDup (JsMap.keys (ActivationNode.connections (f n)))) ->
  wf_network net -> wf_network (JsMap.modify net r f).
Proof.
  intros Hid Hc [Hnd Hall]. split.
  - now rewrite JsMapFacts.keys_modify.
  - intros k n Hin. apply In_modify in Hin.
    destruct Hin as [Hin | (n0 & Hin & -> & ->)]; auto.
    destruct (Hall r n0 Hin) as [H1 H2]. split; [now rewrite Hid | auto].
Qed.

Lemma wf_setConnection (a b : string) (c : NodeConnection.t) (w : World) :
  wf_network (network w) -> wf_network (network (setConnection a b c w)).
Proof.
  apply wf_network_modify; intros n; simpl; auto.
  apply JsMapFacts.NoDup_keys_set.
Qed.

Lemma wf_getOrCreate (a b : string) (w : World) :
  wf_network (network w) -> wf_network (network (snd (getOrCreate a b w))).
Proof.
  intros Hwf. unfold getOrCreate, Date_now.
  destruct (connectionBetween (network w) a b); cbn [fst snd]; auto.
  now apply wf_setConnection.
Qed.

Lemma wf_strengthenPair (a b : string) (w : World) :
  wf_network (network w) -> wf_network (network (strengthenPair a b w)).
Proof.
  intros Hwf. unfold strengthenPair, Date_now.
  pose proof (wf_getOrCreate a b w Hwf) as H1.
  destruct (getOrCreate a b w) as [c w1]. cbn [fst snd] in H1.
  match goal with
  | |- context [getOrCreate b a ?w3] =>
      assert (H3 : wf_network (network w3)) by (now apply wf_setConnection);
      pose proof (wf_getOrCreate b a w3 H3) as H4;
      destruct (getOrCreate b a w3) as [rc w4]
  end.
  now apply wf_setConnection.
Qed.

Lemma wf_hebbian (path : list string) (w : World) :
  wf_network (network w) -> wf_network (network (hebbian path w)).
Proof.
  revert w. induction path as [|a rest IH]; intros w Hwf; [exact Hwf|].
  destruct rest as [|b rest']; [exact Hwf|].
  change (hebbian (a :: b :: rest') w)
    with (hebbian (b :: rest') (strengthenPair a b w)).
  apply IH. now apply wf_strengthenPair.
Qed.

Lemma keys_weaken (path : list string) (m : JsMap.t NodeConnection.t) :
  JsMap.keys (map (weaken path) m) = JsMap.keys m.
Proof.
  unfold JsMap.keys. rewrite map_map. apply map_ext. now intros [k c].
Qed.

Lemma wf_weakenUnused (path : list string) (node : string) (w : World) :
  wf_network (network w) -> wf_network (network (weakenUnused path node w)).
Proof.
  apply wf_network_modify; intros n; simpl; auto.
  now rewrite keys_weaken.
Qed.

Lemma wf_strengthenPath (path : list string) (w : World) :
  wf_network (network w) -> wf_network (network (strengthenPath path w)).
Proof.
  intros Hwf. unfold strengthenPath, antiHebbian.
  generalize path at 1. intros p.
  apply wf_hebbian with (path := path) in Hwf.
  revert Hwf. generalize (hebbian path w). clear w.
  induction path as [|node l IH]; intros w Hwf; simpl; auto.
  apply IH. now apply wf_weakenUnused.
Qed.

Lemma wf_activation_only (net net' : Network) :
  activation_only net net' -> wf_network net -> wf_network net'.
Proof.
  intros Hframe [Hnd Hall]. split.
  - now rewrite (activation_only_keys _ _ Hframe).
  - intros k n' Hin.
    destruct (activation_only_In _ _ _ _ Hframe Hin) as (n & Hn & Hsame).
    destruct (Hall k n Hn) as [H1 H2].
    destruct Hsame as (Hid & Hconn & _). split; congruence.
Qed.

Lemma wf_findResonantNodes (embedding : Float32Array) (text : option string)
    (w : World) :
  wf_network (network w) ->
  wf_network (network (snd (findResonantNodes embedding text w))).
Proof.
  intros Hwf.
  assert (Hscan : wf_network (fst (resonantScan embedding (network w)))).
  { rewrite resonantScan_store. destruct Hwf as [Hnd Hall]. split.
    - now rewrite (keys_map_snd (fun _ n => rescored embedding n)).
    - intros k n' Hin. apply in_map_iff in Hin.
      destruct Hin as ([k0 n0] & [= <- <-] & Hin0).
      destruct (Hall k0 n0 Hin0) as [H1 H2].
      unfold rescored. destruct (resonates embedding n0); auto. }
  destruct (snd (resonantScan embedding (network w))) eqn:E.
  - rewrite findResonantNodes_miss by assumption. cbn [snd]. simpl.
    apply wf_network_set; [exact Hscan | reflexivity | constructor].
  - rewrite findResonantNodes_hit by (rewrite E; discriminate). exact Hscan.
Qed.

Lemma wf_learn (experience : string) (embedding : Float32Array) (w : World) :
  wf_network (network w) ->
  wf_network (network (learn experience embedding w)).
Proof.
  intros Hwf. rewrite learn_unfold. cbv zeta.
  match goal with
  | |- context [if ?b then _ else _] => destruct b
  end; simpl; now apply wf_strengthenPath, wf_findResonantNodes.
Qed.

Lemma wf_engineStep (w w' : World) :
  engineStep w w' -> wf_network (network w) -> wf_network (network w').
Proof.
  intros [embedding text | startNodes params path w1 H | path
          | experience embedding |] Hwf.
  - now apply wf_findResonantNodes.
  - unfold propagateActivation in H.
    match type of H with
    | context [propagateLoop ?fuel ?p ?e ?w0 ?fr0] =>
        destruct (propagateLoop fuel p e w0 fr0) as [[w2 fr2]|] eqn:E;
        [|discriminate]
    end.
    injection H as _ <-.
    destruct (propagateLoop_frame _ _ _ _ _ _ _ E) as [Hframe _].
    eapply wf_activation_only; eassumption.
  - now apply wf_strengthenPath.
  - now apply wf_learn.
  - exact Hwf.
Qed.

Lemma NoDup_Map_of (entries : list (string * NodeConnection.t)) :
  NoDup (JsMap.keys (Map_of entries)).
Proof.
  unfold Map_of.
  assert (H : forall acc : JsMap.t NodeConnection.t,
             NoDup (JsMap.keys acc) ->
             NoDup (JsMap.keys
                      (fold_left (fun m '(k, c) => JsMap.set m k c) entries acc))).
  { induction entries as [|[k c] entries IH]; intros acc Hacc; simpl; auto.
    apply IH. now apply JsMapFacts.NoDup_keys_set. }
  apply H. constructor.
Qed.

Lemma wf_decodeInto (data : NetworkData) (net : Network) :
  wf_network net -> wf_network (fst (decodeInto net data)).
Proof.
  revert net.
  induction data as [|[k [d|]] data IH]; intros net Hwf; simpl; auto.
  apply IH. apply wf_network_set; [exact Hwf | reflexivity|].
  simpl. apply NoDup_Map_of.
Qed.

(** Whatever the file holds, a fresh instance starts with a well-formed
    store, and every engine operation keeps it well formed. *)
Lemma wf_network_invariant (d : option FileContent) (clk : nat -> number)
    (ids : nat -> string) (w0 w : World) :
  initialize (newInstance d clk ids) = Returns w0 ->
  engineRun w0 w -> wf_network (network w).
Proof.
  intros Hinit Hrun.
  assert (Hwf0 : wf_network (network w0)).
  { unfold initialize, loadNetwork, loadNetwork_try in Hinit.
    assert (Hempty : wf_network (@JsMap.empty ActivationNode.t))
      by (split; [constructor | intros k n []]).
    destruct d as [[text | data]|]; simpl in Hinit;
      try (injection Hinit as <-; simpl; exact Hempty).
    pose proof (wf_decodeInto data JsMap.empty Hempty) as Hdec.
    destruct (decodeInto JsMap.empty data) as [net [e|]]; simpl in Hinit;
      injection Hinit as <-; exact Hdec. }
  induction Hrun as [|w1 w2 _ IH Hstep]; [exact Hwf0|].
  eapply wf_engineStep; eassumption.
Qed.

(** ** Propagation over an edge of an arbitrary store *)

Lemma get_split {V : Type} (m : JsMap.t V) (k : string) (v : V) :
  JsMap.get m k = Some v ->
  exists pre post, m = pre ++ (k, v) :: post /\ ~ In k (JsMap.keys pre).
Proof.
  induction m as [|[k0 v0] m IH]; simpl; [discriminate|].
  destruct (String.eqb k0 k) eqn:E.
  - apply String.eqb_eq in E. subst k0. intros [= <-].
    exists [], m. split; [reflexivity | simpl; tauto].
  - apply String.eqb_neq in E. intros H.
    destruct (IH H) as (pre & post & -> & Hout).
    exists ((k0, v0) :: pre), post. split; [reflexivity|].
    simpl. intros [Heq | Hin]; [now apply E | now apply Hout].
Qed.

(** An iteration for another neighbour, or for a visited one, leaves node
    [k] alone. *)
Lemma spreadTo_aside (params : ActivationParams.t) (edge : bool) (now : number)
    (current : string) (w : World) (fr : Front)
    (entry : string * NodeConnection.t) (k : string) :
  fst entry <> k \/ Set_has (visited fr) k = true ->
  let r := spreadTo params edge now current (w, fr) entry in
  JsMap.get (network (fst r)) k = JsMap.get (network w) k /\
  Set_has (visited (snd r)) k = Set_has (visited fr) k /\
  count_occ string_dec (wavefront (snd r)) k
    = count_occ string_dec (wavefront fr) k.
Proof.
  intros Hk. cbv zeta. unfold spreadTo.
  destruct entry as [connectedId connection]. cbn [fst] in Hk.
  destruct (Set_has (visited fr) connectedId) eqn:Hv; [simpl; auto|].
  assert (Hne : connectedId <> k).
  { destruct Hk as [H | H]; [exact H | intros ->; congruence]. }
  destruct (JsMap.get (network w) connectedId) as [connectedNode|];
    [|simpl; auto].
  destruct (JsMap.get (network w) current) as [cur|]; [|simpl; auto].
  match goal with
  | |- context [if gtb ?p ?t then _ else _] => destruct (gtb p t)
  end; cbn [fst snd].
  - rewrite network_updateCoherenceMetrics.
    rewrite !get_update_other by assumption.
    cbn [visited wavefront]. rewrite Set_has_app, count_occ_app.
    assert (E : String.eqb k connectedId = false)
      by (apply String.eqb_neq; congruence).
    rewrite E, orb_false_r. simpl.
    destruct (string_dec connectedId k); [contradiction|].
    repeat split. lia.
  - rewrite get_update_other by assumption. auto.
Qed.

Lemma fold_spreadTo_aside (params : ActivationParams.t) (edge : bool)
    (now : number) (current : string)
    (entries : list (string * NodeConnection.t)) (w : World) (fr : Front)
    (k : string) :
  ~ In k (JsMap.keys entries) \/ Set_has (visited fr) k = true ->
  let r := fold_left (spreadTo params edge now current) entries (w, fr) in
  JsMap.get (network (fst r)) k = JsMap.get (network w) k /\
  Set_has (visited (snd r)) k = Set_has (visited fr) k /\
  count_occ string_dec (wavefront (snd r)) k
    = count_occ string_dec (wavefront fr) k.
Proof.
  revert w fr.
  induction entries as [|entry entries IH]; intros w fr Hk; cbn [fold_left].
  - simpl. auto.
  - assert (H1 : fst entry <> k \/ Set_has (visited fr) k = true).
    { destruct Hk as [H | H]; [left | now right].
      intros Heq. apply H. simpl. now left. }
    destruct (spreadTo_aside params edge now current w fr entry k H1)
      as (G1 & V1 & W1).
    destruct (spreadTo params edge now current (w, fr) entry) as [w1 fr1].
    cbn [fst snd] in G1, V1, W1.
    assert (H2 : ~ In k (JsMap.keys entries) \/ Set_has (visited fr1) k = true).
    { destruct Hk as [H | H]; [left | right; congruence].
      intros Hin. apply H. simpl. now right. }
    destruct (IH w1 fr1 H2) as (G2 & V2 & W2).
    cbv zeta. rewrite G2, V2, W2. auto.
Qed.

Lemma visit_aside (params : ActivationParams.t) (edge : bool)
    (current : string) (w : World) (fr : Front) (k : string) :
  Set_has (visited fr) k = true ->
  let r := visit params edge current w fr in
  JsMap.get (network (fst r)) k
    = JsMap.get (network (update current (decayed params) w)) k /\
  Set_has (visited (snd r)) k = true /\
  count_occ string_dec (wavefront (snd r)) k
    = count_occ string_dec (wavefront fr) k.
Proof.
  intros Hk. unfold visit, Date_now. cbv zeta.
  set (w1 := update current (decayed params) w).
  destruct (JsMap.get (network (tick w1)) current) as [cur|];
    [|cbn [fst snd]; auto].
  match goal with
  | |- context [if ?b then _ else _] => destruct b
  end; [cbn [fst snd]; auto|].
  match goal with
  | |- context [fold_left ?f ?l (?a, ?b)] =>
      destruct (fold_spreadTo_aside params edge (clock w1 (ticks w1)) current
                                    l a b k (or_intror Hk)) as (G & V & W)
  end.
  rewrite G, V, W, Hk. auto.
Qed.

(** A visited node that waits once in the wavefront is decayed once and
    not touched otherwise. *)
Lemma propagateLoop_decays_once (fuel : nat) (params : ActivationParams.t)
    (edge : bool) (w w' : World) (fr fr' : Front) (k : string) :
  Set_has (visited fr) k = true ->
  count_occ string_dec (wavefront fr) k = 1%nat ->
  propagateLoop fuel params edge w fr = Some (w', fr') ->
  JsMap.get (network w') k = option_map (decayed params) (JsMap.get (network w) k).
Proof.
  revert w fr. induction fuel as [|fuel IH]; intros w fr Hk Hone;
    cbn [propagateLoop]; destruct (wavefront fr) as [|current rest] eqn:Hw;
    try discriminate; try (simpl in Hone; discriminate).
  pose proof (visit_aside params edge current w
                (mkFront (visited fr) rest (activatedPath fr)) k Hk)
    as (G & V & W).
  destruct (visit params edge current w
              (mkFront (visited fr) rest (activatedPath fr))) as [w1 fr1].
  cbn [fst snd wavefront] in G, V, W. intros H.
  simpl in Hone. destruct (string_dec current k) as [-> | Hne].
  - assert (Hrest : count_occ string_dec rest k = 0%nat) by lia.
    rewrite Hrest in W.
    rewrite (propagateLoop_keeps _ _ _ _ _ _ _ k V
               (proj2 (count_occ_not_In string_dec _ _) W) H).
    rewrite G. apply get_update_same.
  - rewrite (IH w1 fr1 V) by (try exact H; congruence).
    rewrite G. now rewrite get_update_other.
Qed.

Section AnyStore.
Variables (a b : string) (nA nB : ActivationNode.t) (c : NodeConnection.t).
Variables (params : ActivationParams.t) (w : World).
Hypothesis Hab : a <> b.
Hypothesis HA : JsMap.get (network w) a = Some nA.
Hypothesis HB : JsMap.get (network w) b = Some nB.
Hypothesis Hkeys : NoDup (JsMap.keys (ActivationNode.connections nA)).
Hypothesis Hedge : JsMap.get (ActivationNode.connections nA) b = Some c.
Hypothesis Hready :
  ltb (clock w (ticks w) - ActivationNode.lastFired nA)
      (ActivationNode.refractoryPeriod nA) = false.

Let base : number :=
  ActivationNode.potential nA * ActivationParams.decay params
  * NodeConnection.weight c * ActivationParams.spread params.

Let reached : number :=
  ActivationNode.potential nB
  + (base + (if isEdgeOfChaos w then alpha * tanh base else 0)).

(** The first iteration of the loop, when [b] fires. *)
Lemma visit_seed_fires :
  gtb reached (ActivationParams.threshold params) = true ->
  let r := visit params (isEdgeOfChaos w) a w (mkFront [a] [] [a]) in
  potentialOf (fst r) b = reached /\
  Set_has (visited (snd r)) b = true /\
  count_occ string_dec (wavefront (snd r)) b = 1%nat.
Proof.
  intros Hfire. unfold visit, Date_now. cbv zeta.
  set (w2 := tick (update a (decayed params) w)).
  assert (HA2 : JsMap.get (network w2) a = Some (decayed params nA)).
  { unfold w2. change (network (tick ?x)) with (network x).
    rewrite get_update_same, HA. reflexivity. }
  assert (HB2 : JsMap.get (network w2) b = Some nB).
  { unfold w2. change (network (tick ?x)) with (network x).
    rewrite get_update_other by assumption. exact HB. }
  fold w2. rewrite HA2.
  change (ActivationNode.lastFired (decayed params nA))
    with (ActivationNode.lastFired nA).
  change (ActivationNode.refractoryPeriod (decayed params nA))
    with (ActivationNode.refractoryPeriod nA).
  change (clock (update a (decayed params) w) (ticks (update a (decayed params) w)))
    with (clock w (ticks w)).
  rewrite Hready.
  change (ActivationNode.connections (decayed params nA))
    with (ActivationNode.connections nA).
  destruct (get_split _ _ _ Hedge) as (pre & post & Hsplit & Hpre).
  assert (Hpost : ~ In b (JsMap.keys post)).
  { rewrite Hsplit in Hkeys. unfold JsMap.keys in Hkeys.
    rewrite map_app in Hkeys. simpl in Hkeys.
    apply NoDup_remove_2 in Hkeys. intros Hin. apply Hkeys.
    apply in_or_app. now right. }
  rewrite Hsplit, fold_left_app. cbn [fold_left].
  set (fr0 := mkFront [a] [] [a]).
  set (now := clock w (ticks w)).
  assert (Hva : Set_has (visited fr0) a = true)
    by (apply Set_has_In; simpl; tauto).
  assert (Hvb : Set_has (visited fr0) b = false).
  { unfold Set_has. simpl. rewrite orb_false_r. apply String.eqb_neq.
    congruence. }
  (* the neighbours before [b] *)
  destruct (fold_spreadTo_aside params (isEdgeOfChaos w) now a pre w2 fr0 b
              (or_introl Hpre)) as (Gb1 & Vb1 & Wb1).
  destruct (fold_spreadTo_aside params (isEdgeOfChaos w) now a pre w2 fr0 a
              (or_intror Hva)) as (Ga1 & Va1 & _).
  destruct (fold_left (spreadTo params (isEdgeOfChaos w) now a) pre (w2, fr0))
    as [w3 fr3].
  cbn [fst snd] in *. rewrite HB2 in Gb1. rewrite HA2 in Ga1.
  rewrite Hvb in Vb1. rewrite Hva in Va1.
  (* [b] itself *)
  assert (Hstep :
    spreadTo params (isEdgeOfChaos w) now a (w3, fr3) (b, c) =
    (updateCoherenceMetrics (activatedPath fr3 ++ [b])
       (update b (ActivationNode.set_lastFired now)
          (update b (ActivationNode.set_potential reached) w3)),
     mkFront (visited fr3 ++ [b]) (wavefront fr3 ++ [b])
             (activatedPath fr3 ++ [b]))).
  { unfold spreadTo. rewrite Vb1, Gb1, Ga1.
    change (ActivationNode.potential (decayed params nA))
      with (ActivationNode.potential nA * ActivationParams.decay params).
    fold base. fold reached. rewrite Hfire. reflexivity. }
  rewrite Hstep.
  (* the neighbours after [b] *)
  match goal with
  | |- context [fold_left ?f post (?w4, ?fr4)] =>
      assert (Hv4 : Set_has (visited fr4) b = true)
        by (cbn [visited]; rewrite Set_has_app, String.eqb_refl;
            apply orb_true_r);
      destruct (fold_spreadTo_aside params (isEdgeOfChaos w) now a post
                                    w4 fr4 b (or_intror Hv4))
        as (G5 & V5 & W5)
  end.
  cbv zeta in G5, V5, W5. unfold potentialOf. rewrite G5, V5, W5.
  rewrite network_updateCoherenceMetrics, !get_update_same, Gb1.
  cbn [wavefront visited]. rewrite count_occ_app, Wb1. simpl.
  destruct (string_dec b b) as [_ | Hx]; [|contradiction].
  rewrite Set_has_app, String.eqb_refl, orb_true_r. auto.
Qed.

(** When the activation lifts [b] over the threshold, [b] fires and ends
    the call with the value reached, decayed once. *)
Lemma propagate_edge_fires :
  gtb reached (ActivationParams.threshold params) = true ->
  exists path w',
    propagateActivation [a] params w = Some (path, w') /\
    potentialOf w' b = reached * ActivationParams.decay params.
Proof.
  intros Hfire.
  destruct (propagateActivation_total [a] params w) as (path & w' & H).
  exists path, w'. split; [exact H|].
  unfold propagateActivation in H.
  match type of H with
  | context [propagateLoop ?fuel ?p ?e ?w0 ?fr0] =>
      destruct (propagateLoop fuel p e w0 fr0) as [[w1 fr1]|] eqn:E;
      [|discriminate]
  end.
  injection H as _ <-.
  change (List.length [a] + JsMap.size (network w))%nat
    with (S (JsMap.size (network w))) in E.
  cbn [propagateLoop wavefront visited activatedPath] in E.
  destruct (visit_seed_fires Hfire) as (P & V & W).
  destruct (visit params (isEdgeOfChaos w) a w (mkFront [a] [] [a]))
    as [w5 fr5].
  cbn [fst snd] in P, V, W.
  pose proof (propagateLoop_decays_once _ _ _ _ _ _ _ b V W E) as Hfin.
  unfold potentialOf in *. rewrite Hfin.
  destruct (JsMap.get (network w5) b) as [n5|]; simpl.
  - now rewrite P.
  - rewrite <- P. symmetry. apply Rmult_0_l.
Qed.

End AnyStore.

(** C4, as amended.  Let [a] and [b] be two distinct stored nodes with a
    connection from [a] to [b], and let [a] be out of its refractory
    period when it is dequeued.  Propagation seeded at [a] in the broad
    regime returns.  With base = (a.potential * 0.9) * weight * 0.8 and
    reached = b.potential + base + bonus, where bonus is tanh(base) while
    the chaos threshold lies in (1, 1.5) and 0 otherwise: when reached
    exceeds 0.3, [b] fires and ends the call with 0.9 * reached; when it
    does not and [a] has no other connection, [b] ends the call with
    reached; and for non-negative a.potential and weight, reached is at
    least b.potential + a.potential * 0.9 * weight * 0.8. *)
Theorem broad_propagation_over_edge (a b : string)
    (nA nB : ActivationNode.t) (c : NodeConnection.t) (w : World) :
  a <> b ->
  JsMap.get (network w) a = Some nA ->
  JsMap.get (network w) b = Some nB ->
  NoDup (JsMap.keys (ActivationNode.connections nA)) ->
  JsMap.get (ActivationNode.connections nA) b = Some c ->
  ltb (clock w (ticks w) - ActivationNode.lastFired nA)
      (ActivationNode.refractoryPeriod nA) = false ->
  let base :=
    ActivationNode.potential nA * 0.9 * NodeConnection.weight c * 0.8 in
  let bonus := if isEdgeOfChaos w then tanh base else 0 in
  let reached := ActivationNode.potential nB + (base + bonus) in
  exists path w',
    propagateActivation [a] broad w = Some (path, w') /\
    (gtb reached 0.3 = true -> potentialOf w' b = reached * 0.9) /\
    (gtb reached 0.3 = false -> ActivationNode.connections nA = [(b, c)] ->
     potentialOf w' b = reached) /\
    (0 <= ActivationNode.potential nA -> 0 <= NodeConnection.weight c ->
     ActivationNode.potential nB
     + ActivationNode.potential nA * 0.9 * NodeConnection.weight c * 0.8
     <= reached).
Proof.
  intros Hab HA HB Hkeys Hedge Hready base bonus reached.
  assert (Hreached :
    reached =
    ActivationNode.potential nB
    + (ActivationNode.potential nA * ActivationParams.decay broad
       * NodeConnection.weight c * ActivationParams.spread broad
       + (if isEdgeOfChaos w
          then alpha * tanh (ActivationNode.potential nA
                             * ActivationParams.decay broad
                             * NodeConnection.weight c
                             * ActivationParams.spread broad)
          else 0))).
  { subst reached bonus base. unfold alpha.
    cbn [ActivationParams.decay ActivationParams.spread broad].
    now rewrite Rmult_1_l. }
  destruct (propagateActivation_total [a] broad w) as (path & w' & Hrun).
  exists path, w'. split; [exact Hrun|]. split; [|split].
  - intros Hfire.
    destruct (propagate_edge_fires a b nA nB c broad w Hab HA HB Hkeys Hedge
                                   Hready) as (p2 & w2 & Hrun2 & Hpot).
    + rewrite <- Hreached. exact Hfire.
    + rewrite Hrun in Hrun2. injection Hrun2 as _ <-.
      rewrite Hpot, <- Hreached. reflexivity.
  - intros Hquiet Hsingle.
    destruct (propagate_single_edge a b nA nB c broad w Hab HA HB Hsingle
                                    Hready) as (p2 & w2 & Hrun2 & Hpot).
    rewrite Hrun in Hrun2. injection Hrun2 as _ <-.
    rewrite Hpot, <- Hreached.
    change (ActivationParams.threshold broad) with 0.3.
    now rewrite Hquiet.
  - intros HpA Hw. clear Hreached.
    assert (H : 0 <= base) by (subst base; nra).
    pose proof (tanh_nonneg base H) as Ht.
    subst reached bonus. destruct (isEdgeOfChaos w); unfold base in *; lra.
Qed.

Lemma network_world_strengthened :
  network world_strengthened =
  [ ("a"%string,
     sampleNode "a" 1
       [("b"%string,
         NodeConnection.mk (tanh (0.1 + 0.1 * 1 * 1)) (sampleClock 1) 0.1)]
       [1; 0]);
    ("b"%string,
     sampleNode "b" 1
       [("a"%string,
         NodeConnection.mk (tanh (0.1 + 0.1 * 1 * 1 * 0.7)) (sampleClock 2) 0.1)]
       [0; 1]) ].
Proof. reflexivity. Qed.

Lemma isEdgeOfChaos_initial (w : World) :
  chaosThreshold w = 1.2 -> isEdgeOfChaos w = true.
Proof.
  intros E. unfold isEdgeOfChaos. rewrite E.
  assert (G : gtb 1.2 1.0 = true) by (apply gtb_true; lra).
  assert (L : ltb 1.2 1.5 = true) by (apply ltb_true; lra).
  now rewrite G, L.
Qed.

Lemma ready_world_strengthened :
  ltb (clock world_strengthened (ticks world_strengthened) - 0) 100 = false.
Proof.
  apply ltb_false. change (100 <= sampleClock 3 - 0).
  unfold sampleClock. simpl INR. lra.
Qed.

Lemma broad_propagation_over_edge_witness :
  exists path w',
    propagateActivation ["a"%string] broad world_strengthened = Some (path, w')
    /\ potentialOf w' "b"
       = (1 + (1 * 0.9 * tanh (0.1 + 0.1 * 1 * 1) * 0.8
               + (if isEdgeOfChaos world_strengthened
                  then tanh (1 * 0.9 * tanh (0.1 + 0.1 * 1 * 1) * 0.8)
                  else 0))) * 0.9
    /\ 1 + 1 * 0.9 * tanh (0.1 + 0.1 * 1 * 1) * 0.8
       <= 1 + (1 * 0.9 * tanh (0.1 + 0.1 * 1 * 1) * 0.8
               + (if isEdgeOfChaos world_strengthened
                  then tanh (1 * 0.9 * tanh (0.1 + 0.1 * 1 * 1) * 0.8)
                  else 0)).
Proof.
  destruct (broad_propagation_over_edge "a" "b"
              (sampleNode "a" 1
                 [("b"%string,
                   NodeConnection.mk (tanh (0.1 + 0.1 * 1 * 1)) (sampleClock 1) 0.1)]
                 [1; 0])
              (sampleNode "b" 1
                 [("a"%string,
                   NodeConnection.mk (tanh (0.1 + 0.1 * 1 * 1 * 0.7))
                                     (sampleClock 2) 0.1)]
                 [0; 1])
              (NodeConnection.mk (tanh (0.1 + 0.1 * 1 * 1)) (sampleClock 1) 0.1)
              world_strengthened)
    as (path & w' & Hrun & Hfires & _ & Hlow).
  - discriminate.
  - rewrite network_world_strengthened. reflexivity.
  - rewrite network_world_strengthened. reflexivity.
  - simpl. repeat constructor. simpl. tauto.
  - reflexivity.
  - exact ready_world_strengthened.
  - assert (HT : 0 <= tanh (0.1 + 0.1 * 1 * 1)) by (apply tanh_nonneg; lra).
    exists path, w'. split; [exact Hrun|]. split.
    + apply Hfires. simpl. apply gtb_true.
      rewrite (isEdgeOfChaos_initial world_strengthened eq_refl).
      assert (0 <= tanh (1 * 0.9 * tanh (0.1 + 0.1 * 1 * 1) * 0.8))
        by (apply tanh_nonneg; lra).
      lra.
    + apply Hlow; simpl; [lra | exact HT].
Defined.

(** C4, as stated, fails in the very scenario it describes.  Two nodes as
    [createNode] makes them (potential 1.0), strengthened once as the pair
    [a; b], so that the weight from [a] to [b] is tanh(0.2); propagation
    seeded at [a] in the broad regime makes [b] fire and decay, and leaves
    b.potential = 0.9 * (1 + base + tanh(base)) with
    base = 0.9 * tanh(0.2) * 0.8: a gain below 1.0 * tanh(0.2) * 0.8. *)
Lemma propagation_gain_fails :
  ~ propagation_gain world_strengthened "a" "b".
Proof.
  intros Hclaim.
  set (nA := sampleNode "a" 1
               [("b"%string,
                 NodeConnection.mk (tanh (0.1 + 0.1 * 1 * 1)) (sampleClock 1) 0.1)]
               [1; 0]).
  set (nB := sampleNode "b" 1
               [("a"%string,
                 NodeConnection.mk (tanh (0.1 + 0.1 * 1 * 1 * 0.7))
                                   (sampleClock 2) 0.1)]
               [0; 1]).
  set (c := NodeConnection.mk (tanh (0.1 + 0.1 * 1 * 1)) (sampleClock 1) 0.1).
  assert (HA : JsMap.get (network world_strengthened) "a" = Some nA)
    by (rewrite network_world_strengthened; reflexivity).
  assert (HB : JsMap.get (network world_strengthened) "b" = Some nB)
    by (rewrite network_world_strengthened; reflexivity).
  assert (Hab : "a"%string <> "b"%string) by discriminate.
  destruct (propagate_single_edge "a" "b" nA nB c broad world_strengthened
              Hab HA HB eq_refl ready_world_strengthened)
    as (path & w' & Hrun & Hpot).
  assert (Hc : connectionBetween (network world_strengthened) "a" "b" = Some c)
    by (rewrite network_world_strengthened; reflexivity).
  pose proof (Hclaim nA nB c path w' HA HB Hc ready_world_strengthened Hrun)
    as Hgain.
  rewrite Hpot in Hgain.
  rewrite (isEdgeOfChaos_initial world_strengthened eq_refl) in Hgain.
  cbn [ActivationNode.potential NodeConnection.weight nA nB c sampleNode
       ActivationParams.decay ActivationParams.spread
       ActivationParams.threshold broad] in Hgain.
  unfold alpha in Hgain.
  set (T := tanh (0.1 + 0.1 * 1 * 1)) in Hgain.
  assert (HT0 : 0 <= T) by (apply tanh_nonneg; lra).
  assert (HT1 : T <= 0.2).
  { unfold T. replace (0.1 + 0.1 * 1 * 1) with 0.2 by lra.
    apply tanh_le_id. lra. }
  set (base := 1 * 0.9 * T * 0.8) in Hgain.
  assert (Hb0 : 0 <= base) by (unfold base; lra).
  assert (Hb1 : tanh base <= base) by now apply tanh_le_id.
  assert (Hb2 : 0 <= tanh base) by now apply tanh_nonneg.
  assert (G : gtb (1 + (base + 1 * tanh base)) 0.3 = true)
    by (apply gtb_true; lra).
  rewrite G in Hgain. unfold base in *. lra.
Qed.


(** * Further properties of the engine *)

(** ** Cosine similarity *)

Lemma sums_swap (a b : Float32Array) (d na nb : number) :
  List.length a = List.length b ->
  sums b a (d, nb, na) =
  match sums a b (d, na, nb) with
  | Some (d', na', nb') => Some (d', nb', na')
  | None => None
  end.
Proof.
  revert b d na nb. induction a as [|x a IH]; intros [|y b] d na nb Hlen;
    simpl in *; try discriminate; auto.
  rewrite (Rmult_comm y x). apply IH. now injection Hlen.
Qed.

Lemma sums_self (a : Float32Array) (d na nb : number) :
  sums a a (d, na, nb) =
  Some (d + sumSquares a, na + sumSquares a, nb + sumSquares a).
Proof.
  revert d na nb. induction a as [|x a IH]; intros d na nb; simpl.
  - now rewrite !Rplus_0_r.
  - rewrite IH. f_equal. f_equal; [f_equal|]; lra.
Qed.

Lemma sumSquares_nonneg (a : Float32Array) : 0 <= sumSquares a.
Proof. induction a as [|x a IH]; simpl; [lra | nra]. Qed.

Lemma sumSquares_pos (a : Float32Array) :
  Exists (fun x => x <> 0) a -> 0 < sumSquares a.
Proof.
  induction 1 as [x a Hx | x a _ IH]; simpl.
  - pose proof (sumSquares_nonneg a). nra.
  - nra.
Qed.

Lemma sumSquares_zero (a : Float32Array) :
  Forall (fun x => x = 0) a -> sumSquares a = 0.
Proof. induction 1 as [|x a Hx _ IH]; simpl; [reflexivity | subst; lra]. Qed.

Lemma cross_term_bound (P Q T : R) :
  0 <= P -> 0 <= Q -> T * T <= P * Q -> 2 * T <= P + Q.
Proof.
  intros HP HQ HT.
  destruct (Rle_dec (2 * T) (P + Q)) as [|Hn]; [assumption | exfalso].
  apply Rnot_le_lt in Hn.
  pose proof (Rle_0_sqr (P - Q)) as Hsq. unfold Rsqr in Hsq.
  assert (H : (P + Q) * (P + Q) < (2 * T) * (2 * T)).
  { apply Rmult_le_0_lt_compat; lra. }
  nra.
Qed.

(** The accumulators of the loop keep the Cauchy-Schwarz inequality. *)
Lemma sums_cauchy_schwarz (a b : Float32Array) (d na nb d' na' nb' : number) :
  0 <= na -> 0 <= nb -> d * d <= na * nb ->
  sums a b (d, na, nb) = Some (d', na', nb') ->
  0 <= na' /\ 0 <= nb' /\ d' * d' <= na' * nb'.
Proof.
  revert b d na nb. induction a as [|x a IH]; intros [|y b] d na nb Hna Hnb Hd;
    simpl; try discriminate.
  - intros [= <- <- <-]. auto.
  - intros [= <- <- <-]. auto.
  - pose proof (Rle_0_sqr x) as Hx. pose proof (Rle_0_sqr y) as Hy.
    unfold Rsqr in Hx, Hy.
    apply IH; [lra | lra |].
    assert (Hcross : 2 * (d * (x * y)) <= na * (y * y) + nb * (x * x)).
    { apply cross_term_bound.
      - now apply Rmult_le_pos.
      - now apply Rmult_le_pos.
      - replace (d * (x * y) * (d * (x * y))) with ((d * d) * ((x * x) * (y * y))) by ring.
        replace (na * (y * y) * (nb * (x * x))) with ((na * nb) * ((x * x) * (y * y))) by ring.
        apply Rmult_le_compat_r; [now apply Rmult_le_pos | exact Hd]. }
    replace ((d + x * y) * (d + x * y))
      with (d * d + 2 * (d * (x * y)) + (x * x) * (y * y)) by ring.
    replace ((na + x * x) * (nb + y * y))
      with (na * nb + (na * (y * y) + nb * (x * x)) + (x * x) * (y * y)) by ring.
    lra.
Qed.

Lemma cosineSimilarity_of_self (a : Float32Array) :
  0 < sumSquares a -> cosineSimilarity a a = Some 1.
Proof.
  intros Hpos. unfold cosineSimilarity. rewrite sums_self, !Rplus_0_l.
  rewrite sqrt_sqrt by lra.
  destruct (Req_dec_T (sumSquares a) 0) as [H | _]; [lra|].
  f_equal. field. lra.
Qed.

(** X1. The similarity of a vector with itself is exactly 1 as soon as one
    of its components is not zero. *)
Theorem cosineSimilarity_self (a : Float32Array) :
  Exists (fun x => x <> 0) a -> cosineSimilarity a a = Some 1.
Proof.
  intros Hex. apply cosineSimilarity_of_self. now apply sumSquares_pos.
Qed.

Lemma cosineSimilarity_self_witness :
  Exists (fun x => x <> 0) [0; 2] /\ cosineSimilarity [0; 2] [0; 2] = Some 1.
Proof.
  assert (H : Exists (fun x : R => x <> 0) [0; 2]).
  { apply Exists_cons_tl, Exists_cons_hd. lra. }
  split; [exact H | exact (cosineSimilarity_self [0; 2] H)].
Defined.

(** X2. On vectors of the same length the similarity does not depend on
    the order of its two arguments, the undefined result included. *)
Theorem cosineSimilarity_sym (a b : Float32Array) :
  List.length a = List.length b ->
  cosineSimilarity a b = cosineSimilarity b a.
Proof.
  intros Hlen. unfold cosineSimilarity. rewrite (sums_swap a b) by assumption.
  unfold number.
  destruct (sums a b (0, 0, 0)) as [[[d na] nb]|]; [|reflexivity].
  rewrite (Rmult_comm (sqrt nb) (sqrt na)). reflexivity.
Qed.

Lemma cosineSimilarity_sym_witness :
  cosineSimilarity [1; 2] [3; 4] = cosineSimilarity [3; 4] [1; 2].
Proof. apply cosineSimilarity_sym. reflexivity. Defined.

(** X3. Whenever the similarity is a number, it lies between -1 and 1
    (the Cauchy-Schwarz inequality on the three sums of the loop). *)
Theorem cosineSimilarity_range (a b : Float32Array) (s : number) :
  cosineSimilarity a b = Some s -> -1 <= s <= 1.
Proof.
  unfold cosineSimilarity.
  destruct (sums a b (0, 0, 0)) as [[[d na] nb]|] eqn:Hs; [|discriminate].
  destruct (sums_cauchy_schwarz a b 0 0 0 d na nb) as (Hna & Hnb & Hd);
    [lra | lra | lra | exact Hs |].
  destruct (Req_dec_T (sqrt na * sqrt nb) 0) as [|Hnz]; [discriminate|].
  intros [= <-].
  set (D := sqrt na * sqrt nb) in *.
  assert (HD : 0 < D).
  { pose proof (sqrt_pos na). pose proof (sqrt_pos nb).
    assert (0 <= D) by (unfold D; now apply Rmult_le_pos). lra. }
  assert (HDD : D * D = na * nb).
  { unfold D.
    replace (sqrt na * sqrt nb * (sqrt na * sqrt nb))
      with ((sqrt na * sqrt na) * (sqrt nb * sqrt nb)) by ring.
    now rewrite !sqrt_sqrt. }
  assert (Hd' : d * d <= D * D) by lra.
  assert (Habs : - D <= d <= D) by nra.
  split.
  - apply Rmult_le_reg_r with D; [exact HD|].
    unfold Rdiv. rewrite Rmult_assoc, Rinv_l by lra. lra.
  - apply Rmult_le_reg_r with D; [exact HD|].
    unfold Rdiv. rewrite Rmult_assoc, Rinv_l by lra. lra.
Qed.

Lemma cosineSimilarity_range_witness : -1 <= -1 <= 1.
Proof.
  apply (cosineSimilarity_range [-1; 0] [1; 0] (-1)). cosine_of_units.
Defined.

Lemma sums_zero_right (a b : Float32Array) (d na nb d' na' nb' : number) :
  Forall (fun x => x = 0) b ->
  sums a b (d, na, nb) = Some (d', na', nb') -> nb' = nb.
Proof.
  intros Hz. revert a d na nb.
  induction Hz as [|y b Hy _ IH]; intros [|x a] d na nb; simpl;
    try discriminate.
  - now intros [= _ _ <-].
  - now intros [= _ _ <-].
  - intros H. apply IH in H. subst y. lra.
Qed.

Lemma sums_zero_left (a b : Float32Array) (d na nb d' na' nb' : number) :
  Forall (fun x => x = 0) a ->
  sums a b (d, na, nb) = Some (d', na', nb') -> na' = na.
Proof.
  intros Hz. revert b d na nb.
  induction Hz as [|x a Hx _ IH]; intros b d na nb; simpl.
  - now intros [= _ <- _].
  - destruct b as [|y b]; [discriminate|].
    intros H. apply IH in H. subst x. lra.
Qed.

Lemma cosineSimilarity_zero_left (a b : Float32Array) :
  Forall (fun x => x = 0) a -> cosineSimilarity a b = None.
Proof.
  intros Hz. unfold cosineSimilarity.
  destruct (sums a b (0, 0, 0)) as [[[d na] nb]|] eqn:Hs; [|reflexivity].
  apply sums_zero_left in Hs; [|assumption]. subst na.
  rewrite sqrt_0, Rmult_0_l.
  destruct (Req_dec_T 0 0) as [_|H]; [reflexivity | contradiction].
Qed.

Lemma cosineSimilarity_zero_right (a b : Float32Array) :
  Forall (fun x => x = 0) b -> cosineSimilarity a b = None.
Proof.
  intros Hz. unfold cosineSimilarity.
  destruct (sums a b (0, 0, 0)) as [[[d na] nb]|] eqn:Hs; [|reflexivity].
  apply sums_zero_right in Hs; [|assumption]. subst nb.
  rewrite sqrt_0, Rmult_0_r.
  destruct (Req_dec_T 0 0) as [_|H]; [reflexivity | contradiction].
Qed.

Lemma sums_short (a b : Float32Array) (acc : number * number * number) :
  (List.length b < List.length a)%nat -> sums a b acc = None.
Proof.
  revert b acc. induction a as [|x a IH]; intros [|y b] acc Hlen;
    simpl in *; try lia; try reflexivity.
  destruct acc as [[d na] nb]. apply IH. lia.
Qed.

(** X4. The similarity is not a number (NaN) when either vector is all
    zeros (the empty vector included) or when the second vector is shorter
    than the first. *)
Theorem cosineSimilarity_undefined (a b : Float32Array) :
  Forall (fun x => x = 0) a \/ Forall (fun x => x = 0) b \/
  (List.length b < List.length a)%nat ->
  cosineSimilarity a b = None.
Proof.
  intros [Ha | [Hb | Hlen]].
  - now apply cosineSimilarity_zero_left.
  - now apply cosineSimilarity_zero_right.
  - unfold cosineSimilarity. now rewrite sums_short.
Qed.

Lemma cosineSimilarity_undefined_witness :
  cosineSimilarity [1; 2] [3] = None /\ cosineSimilarity [0; 0] [3; 4] = None.
Proof.
  split.
  - apply cosineSimilarity_undefined. right. right. simpl. lia.
  - apply cosineSimilarity_undefined. left. repeat constructor.
Defined.

(** ** Matching a known or an all-zero embedding *)

(** X5. A query whose embedding is that of a stored node, and is not all
    zeros, resonates with that node: the node is in the result with its
    potential set to the similarity of the embedding with itself, which
    is above the threshold 0.7 (it is 1 in real arithmetic, and 1 up to
    rounding in the program), and nothing is created: the store keeps its
    ids and no identifier is drawn. *)
Theorem findResonantNodes_known_embedding (e : Float32Array)
    (text : option string) (w : World) (k : string) (n : ActivationNode.t) :
  JsMap.get (network w) k = Some n ->
  ActivationNode.embedding n = Some e ->
  Exists (fun x => x <> 0) e ->
  In k (fst (findResonantNodes e text w)) /\
  JsMap.keys (network (snd (findResonantNodes e text w)))
    = JsMap.keys (network w) /\
  ticks (snd (findResonantNodes e text w)) = ticks w /\
  exists similarity,
    cosineSimilarity e e = Some similarity /\ 0.7 < similarity /\
    potentialOf (snd (findResonantNodes e text w)) k = similarity.
Proof.
  intros Hget He Hnz.
  assert (Hself : cosineSimilarity e e = Some 1)
    by (apply cosineSimilarity_of_self; now apply sumSquares_pos).
  assert (Hres : resonates e n = Some 1).
  { apply resonates_Some. exists e. repeat split; [exact He | exact Hself | lra]. }
  assert (Hin : In k (snd (resonantScan e (network w)))).
  { apply resonantScan_refs. exists n, 1. split; [|exact Hres].
    now apply JsMapFacts.get_In. }
  rewrite findResonantNodes_hit by (intros E; rewrite E in Hin; contradiction).
  cbn [fst snd]. split; [exact Hin|].
  unfold potentialOf. simpl. rewrite resonantScan_store.
  rewrite (keys_map_snd (fun _ n => rescored e n)).
  rewrite (get_map_snd (fun _ n => rescored e n)), Hget. simpl.
  unfold rescored. rewrite Hres. split; [reflexivity|]. split; [reflexivity|].
  exists 1. split; [exact Hself|]. split; [lra | reflexivity].
Qed.

Lemma findResonantNodes_known_embedding_witness :
  In "b"%string (fst (findResonantNodes [0; 1] None world_a_to_b)) /\
  0.7 < potentialOf (snd (findResonantNodes [0; 1] None world_a_to_b)) "b".
Proof.
  destruct (findResonantNodes_known_embedding [0; 1] None world_a_to_b "b"
              (sampleNode "b" 1 [] [0; 1]))
    as (Hin & _ & _ & s & _ & Hs & Hpot).
  - reflexivity.
  - reflexivity.
  - apply Exists_cons_tl, Exists_cons_hd. lra.
  - split; [exact Hin|]. rewrite Hpot. exact Hs.
Defined.

(** X6. A query whose embedding is all zeros (or empty) resonates with
    nothing, whatever the store holds: no potential is overwritten and a
    node is created for it on every call, even when a node with the very
    same embedding is already stored. *)
Theorem findResonantNodes_zero_embedding (embedding : Float32Array)
    (text : option string) (w : World) :
  Forall (fun x => x = 0) embedding ->
  findResonantNodes embedding text w =
  ([nodeId w (ticks w)],
   tick (set_network
           (JsMap.set (network w) (nodeId w (ticks w))
                      (createdNode (nodeId w (ticks w)) embedding text))
           w)).
Proof.
  intros Hz.
  assert (Hscan : resonantScan embedding (network w) = (network w, [])).
  { apply resonantScan_none. intros k n _. unfold resonates.
    destruct (ActivationNode.embedding n) as [e|]; [|reflexivity].
    now rewrite cosineSimilarity_zero_left. }
  rewrite findResonantNodes_miss by now rewrite Hscan.
  now rewrite Hscan.
Qed.

Lemma findResonantNodes_zero_embedding_witness :
  fst (findResonantNodes [0; 0] None
         (snd (findResonantNodes [0; 0] None freshWorld)))
  = [sampleIds 1].
Proof.
  rewrite (findResonantNodes_zero_embedding [0; 0] None freshWorld)
    by (repeat constructor).
  rewrite findResonantNodes_zero_embedding by (repeat constructor).
  reflexivity.
Defined.

(** ** What every public operation preserves *)

Lemma extractPattern_world (path : list string) (w : World) :
  snd (extractPattern path w) = tick w.
Proof. reflexivity. Qed.

Lemma getMetrics_world (w : World) :
  snd (getMetrics w) = w \/ snd (getMetrics w) = tick w.
Proof.
  unfold getMetrics, calculateGlobalStability, Date_now.
  destruct (JsMap.size (network w) =? 0)%nat; cbn [snd]; auto.
Qed.

Lemma think_total (respond : LLM) (input : string) (embedding : Float32Array)
    (w : World) :
  exists result w', think respond input embedding w = Some (result, w').
Proof.
  unfold think.
  destruct (findResonantNodes embedding (Some input) w) as [res w1].
  destruct (propagateActivation_total res broad w1) as (p1 & w2 & ->).
  destruct (extractPattern p1 w2) as [pat w3].
  destruct (gtb (ActivationPattern.coherence pat) 0.7).
  - destruct (generateResponse respond (ActivationPattern.narrative pat) fast);
      eauto.
  - destruct (propagateActivation_total res focused w3) as (p2 & w4 & ->).
    destruct (extractPattern p2 w4) as [pat2 w5].
    destruct (generateResponse respond (ActivationPattern.narrative pat2)
                               reason); eauto.
Qed.

Section Preservation.

Variable P : World -> Prop.

Hypothesis P_match : forall embedding text w,
  P w -> P (snd (findResonantNodes embedding text w)).
Hypothesis P_broad : forall startNodes path w w',
  P w -> propagateActivation startNodes broad w = Some (path, w') -> P w'.
Hypothesis P_focused : forall startNodes path w w',
  P w -> propagateActivation startNodes focused w = Some (path, w') -> P w'.
Hypothesis P_strengthen : forall path w, P w -> P (strengthenPath path w).
Hypothesis P_save : forall w, P w -> P (saveNetwork w).
Hypothesis P_tick : forall w, P w -> P (tick w).

Lemma preserved_learn (experience : string) (embedding : Float32Array)
    (w : World) :
  P w -> P (learn experience embedding w).
Proof.
  intros HP. unfold learn.
  pose proof (P_match embedding (Some experience) w HP) as H1.
  destruct (findResonantNodes embedding (Some experience) w) as [res w1].
  cbn [snd] in H1. cbv zeta.
  destruct (JsMap.size (network (strengthenPath res w1)) mod 10 =? 0)%nat; auto.
Qed.

Lemma preserved_think (respond : LLM) (input : string)
    (embedding : Float32Array) (w w' : World) (result : string + string) :
  think respond input embedding w = Some (result, w') -> P w -> P w'.
Proof.
  unfold think. intros H HP.
  pose proof (P_match embedding (Some input) w HP) as H1.
  destruct (findResonantNodes embedding (Some input) w) as [res w1].
  cbn [snd] in H1.
  destruct (propagateActivation res broad w1) as [[p1 w2]|] eqn:E1;
    [|discriminate].
  pose proof (P_tick _ (P_broad _ _ _ _ H1 E1)) as H3.
  rewrite <- (extractPattern_world p1) in H3.
  destruct (extractPattern p1 w2) as [pat w3]. cbn [snd] in H3.
  destruct (gtb (ActivationPattern.coherence pat) 0.7).
  - destruct (generateResponse respond (ActivationPattern.narrative pat) fast);
      injection H as _ <-; auto.
  - destruct (propagateActivation res focused w3) as [[p2 w4]|] eqn:E2;
      [|discriminate].
    pose proof (P_tick _ (P_focused _ _ _ _ H3 E2)) as H5.
    rewrite <- (extractPattern_world p2) in H5.
    destruct (extractPattern p2 w4) as [pat2 w5]. cbn [snd] in H5.
    destruct (generateResponse respond (ActivationPattern.narrative pat2)
                               reason);
      injection H as _ <-; auto.
Qed.

Lemma preserved_apiStep (w w' : World) : apiStep w w' -> P w -> P w'.
Proof.
  intros [experience embedding | respond input embedding result w1 H | |] HP.
  - now apply preserved_learn.
  - eapply preserved_think; eassumption.
  - now apply P_save.
  - destruct (getMetrics_world w) as [-> | ->]; auto.
Qed.

Lemma preserved_apiRun (w0 w : World) : apiRun w0 w -> P w0 -> P w.
Proof.
  induction 1 as [|w1 w2 _ IH Hstep]; intros HP; [exact HP|].
  eapply preserved_apiStep; eauto.
Qed.

End Preservation.

(** ** Positive potentials and weights *)


























(** ** Nodes are kept for good *)

Lemma same_identity_refl (n : ActivationNode.t) : same_identity n n.
Proof. repeat split. Qed.

Lemma same_identity_trans (n1 n2 n3 : ActivationNode.t) :
  same_identity n1 n2 -> same_identity n2 n3 -> same_identity n1 n3.
Proof.
  intros (A1 & A2 & A3 & A4 & A5 & A6) (B1 & B2 & B3 & B4 & B5 & B6).
  repeat split; congruence.
Qed.

Lemma kept_refl (w : World) : kept w w.
Proof.
  repeat split; auto. intros k n Hget. exists n.
  split; [exact Hget | apply same_identity_refl].
Qed.

Lemma kept_trans (w1 w2 w3 : World) : kept w1 w2 -> kept w2 w3 -> kept w1 w3.
Proof.
  intros (A1 & A2 & A3 & A4) (B1 & B2 & B3 & B4). repeat split.
  - congruence.
  - lia.
  - congruence.
  - intros k n Hget. destruct (A4 k n Hget) as (n2 & Hget2 & Hs2).
    destruct (B4 k n2 Hget2) as (n3 & Hget3 & Hs3).
    exists n3. split; [exact Hget3 | eapply same_identity_trans; eassumption].
Qed.

Lemma kept_update (r : string) (f : ActivationNode.t -> ActivationNode.t)
    (w : World) :
  (forall n, same_identity n (f n)) -> kept w (update r f w).
Proof.
  intros Hf. repeat split; auto.
  - simpl. apply JsMapFacts.keys_modify.
  - intros k n Hget. destruct (string_dec r k) as [<- | Hne].
    + rewrite get_update_same, Hget. simpl. eauto.
    + rewrite get_update_other by assumption. exists n.
      split; [exact Hget | apply same_identity_refl].
Qed.

Lemma kept_same_network (w w' : World) :
  network w' = network w -> nodeId w' = nodeId w ->
  (ticks w <= ticks w')%nat -> kept w w'.
Proof.
  intros Hnet Hid Ht. repeat split; auto; rewrite Hnet; auto.
  intros k n Hget. exists n. split; [exact Hget | apply same_identity_refl].
Qed.

Lemma kept_tick (w : World) : kept w (tick w).
Proof. apply kept_same_network; simpl; auto. Qed.

Lemma kept_updateCoherenceMetrics (path : list string) (w : World) :
  kept w (updateCoherenceMetrics path w).
Proof.
  apply kept_same_network.
  - apply network_updateCoherenceMetrics.
  - unfold updateCoherenceMetrics.
    destruct (List.length path <? 2)%nat; reflexivity.
  - unfold updateCoherenceMetrics.
    destruct (List.length path <? 2)%nat; simpl; lia.
Qed.

Lemma kept_spreadTo (params : ActivationParams.t) (edge : bool) (now : number)
    (current : string) (w : World) (fr : Front)
    (entry : string * NodeConnection.t) :
  kept w (fst (spreadTo params edge now current (w, fr) entry)).
Proof.
  unfold spreadTo. destruct entry as [connectedId connection].
  destruct (Set_has (visited fr) connectedId); [apply kept_refl|].
  destruct (JsMap.get (network w) connectedId) as [connectedNode|];
    [|apply kept_refl].
  destruct (JsMap.get (network w) current) as [cur|]; [|apply kept_refl].
  match goal with
  | |- context [if gtb ?p ?t then _ else _] => destruct (gtb p t)
  end; cbn [fst].
  - eapply kept_trans; [|apply kept_updateCoherenceMetrics].
    eapply kept_trans; [|apply kept_update; intros n; repeat split].
    apply kept_update. intros n. repeat split.
  - apply kept_update. intros n. repeat split.
Qed.

Lemma kept_fold_spreadTo (params : ActivationParams.t) (edge : bool)
    (now : number) (current : string)
    (entries : list (string * NodeConnection.t)) (w : World) (fr : Front) :
  kept w (fst (fold_left (spreadTo params edge now current) entries (w, fr))).
Proof.
  revert w fr.
  induction entries as [|entry entries IH]; intros w fr; cbn [fold_left].
  - apply kept_refl.
  - pose proof (kept_spreadTo params edge now current w fr entry) as H1.
    destruct (spreadTo params edge now current (w, fr) entry) as [w1 fr1].
    eapply kept_trans; [exact H1 | apply IH].
Qed.

Lemma kept_visit (params : ActivationParams.t) (edge : bool)
    (current : string) (w : World) (fr : Front) :
  kept w (fst (visit params edge current w fr)).
Proof.
  unfold visit, Date_now.
  set (w1 := update current _ w).
  assert (H1 : kept w (tick w1)).
  { eapply kept_trans; [|apply kept_tick].
    apply kept_update. intros n. repeat split. }
  destruct (JsMap.get (network (tick w1)) current) as [cur|]; [|exact H1].
  match goal with
  | |- context [if ?b then _ else _] => destruct b
  end; [exact H1|].
  eapply kept_trans; [exact H1 | apply kept_fold_spreadTo].
Qed.

Lemma kept_propagateLoop (fuel : nat) (params : ActivationParams.t)
    (edge : bool) (w w' : World) (fr fr' : Front) :
  propagateLoop fuel params edge w fr = Some (w', fr') -> kept w w'.
Proof.
  revert w fr. induction fuel as [|fuel IH]; intros w fr; cbn [propagateLoop].
  - destruct (wavefront fr); [|discriminate].
    intros [= <- <-]. apply kept_refl.
  - destruct (wavefront fr) as [|current rest].
    + intros [= <- <-]. apply kept_refl.
    + match goal with
      | |- context [visit ?p ?e ?c ?w0 ?f0] =>
          pose proof (kept_visit p e c w0 f0) as H1;
          destruct (visit p e c w0 f0) as [w1 fr1]
      end.
      cbn [fst] in H1. intros H.
      eapply kept_trans; [exact H1 | exact (IH _ _ H)].
Qed.

Lemma kept_propagateActivation (startNodes : list string)
    (params : ActivationParams.t) (path : list string) (w w' : World) :
  propagateActivation startNodes params w = Some (path, w') -> kept w w'.
Proof.
  unfold propagateActivation. intros H.
  match type of H with
  | context [propagateLoop ?fuel ?p ?e ?w0 ?fr0] =>
      destruct (propagateLoop fuel p e w0 fr0) as [[w1 fr1]|] eqn:E;
      [|discriminate]
  end.
  injection H as _ <-. eapply kept_propagateLoop; eassumption.
Qed.

Lemma kept_setConnection (a b : string) (c : NodeConnection.t) (w : World) :
  kept w (setConnection a b c w).
Proof. apply kept_update. intros n. repeat split. Qed.

Lemma kept_getOrCreate (a b : string) (w : World) :
  kept w (snd (getOrCreate a b w)).
Proof.
  unfold getOrCreate, Date_now.
  destruct (connectionBetween (network w) a b); cbn [snd]; [apply kept_refl|].
  eapply kept_trans; [apply kept_tick | apply kept_setConnection].
Qed.

Lemma kept_strengthenPair (a b : string) (w : World) :
  kept w (strengthenPair a b w).
Proof.
  unfold strengthenPair, Date_now.
  pose proof (kept_getOrCreate a b w) as H1.
  destruct (getOrCreate a b w) as [c w1]. cbn [snd] in H1.
  match goal with
  | |- context [getOrCreate b a ?w3] =>
      assert (H3 : kept w w3)
        by (eapply kept_trans; [exact H1|];
            eapply kept_trans; [apply kept_tick | apply kept_setConnection]);
      pose proof (kept_getOrCreate b a w3) as H4;
      destruct (getOrCreate b a w3) as [rc w4]
  end.
  cbn [snd] in H4.
  eapply kept_trans; [exact H3|].
  eapply kept_trans; [exact H4 | apply kept_setConnection].
Qed.

Lemma kept_hebbian (path : list string) (w : World) : kept w (hebbian path w).
Proof.
  revert w. induction path as [|a rest IH]; intros w; [apply kept_refl|].
  destruct rest as [|b rest']; [apply kept_refl|].
  change (hebbian (a :: b :: rest') w)
    with (hebbian (b :: rest') (strengthenPair a b w)).
  eapply kept_trans; [apply kept_strengthenPair | apply IH].
Qed.

Lemma kept_antiHebbian (path : list string) (w : World) :
  kept w (antiHebbian path w).
Proof.
  unfold antiHebbian. generalize path at 1. intros p.
  revert w. induction path as [|node l IH]; intros w; simpl;
    [apply kept_refl|].
  eapply kept_trans; [|apply IH].
  apply kept_update. intros n. repeat split.
Qed.

Lemma kept_strengthenPath (path : list string) (w : World) :
  kept w (strengthenPath path w).
Proof.
  unfold strengthenPath.
  eapply kept_trans; [apply kept_hebbian | apply kept_antiHebbian].
Qed.

Lemma kept_saveNetwork (w : World) : kept w (saveNetwork w).
Proof. apply kept_same_network; simpl; auto. Qed.

Lemma kept_scan (embedding : Float32Array) (w : World) :
  kept w (set_network (fst (resonantScan embedding (network w))) w).
Proof.
  repeat split; auto; simpl; rewrite resonantScan_store.
  - apply (keys_map_snd (fun _ n => rescored embedding n)).
  - intros k n Hget.
    rewrite (get_map_snd (fun _ n => rescored embedding n)), Hget. simpl.
    eexists. split; [reflexivity|].
    unfold rescored. destruct (resonates embedding n); repeat split.
Qed.

Lemma fresh_kept (w w' : World) : fresh_ids w -> kept w w' -> fresh_ids w'.
Proof.
  intros [Hinj Hfresh] (Hid & Ht & Hkeys & _). split.
  - rewrite Hid. exact Hinj.
  - intros i Hi. rewrite Hid, Hkeys. apply Hfresh. lia.
Qed.

Lemma extends_kept (w0 w w' : World) :
  extends w0 w -> kept w w' -> extends w0 w'.
Proof.
  intros [[added Hadd] Hnodes] (_ & _ & Hkeys & Hget). split.
  - exists added. congruence.
  - intros k n H0. destruct (Hnodes k n H0) as (n1 & H1 & S1).
    destruct (Hget k n1 H1) as (n2 & H2 & S2).
    exists n2. split; [exact H2 | eapply same_identity_trans; eassumption].
Qed.

Lemma extends_createNode (w0 w : World) (embedding : Float32Array)
    (text : option string) :
  fresh_ids w -> extends w0 w ->
  fresh_ids (snd (createNode embedding text w)) /\
  extends w0 (snd (createNode embedding text w)).
Proof.
  intros [Hinj Hfresh] [[added Hadd] Hnodes]. unfold createNode. cbn [snd].
  assert (Hnew : ~ In (nodeId w (ticks w)) (JsMap.keys (network w)))
    by (apply Hfresh; lia).
  split; [split|split].
  - exact Hinj.
  - intros i Hi. simpl in Hi |- *.
    rewrite JsMapFacts.keys_set_new by assumption.
    intros Hin. apply in_app_or in Hin. destruct Hin as [Hin | [Heq | []]].
    + revert Hin. apply Hfresh. lia.
    + apply Hinj in Heq. lia.
  - exists (added ++ [nodeId w (ticks w)]). simpl.
    rewrite JsMapFacts.keys_set_new by assumption.
    rewrite Hadd. now rewrite app_assoc.
  - intros k n H0. destruct (Hnodes k n H0) as (n1 & H1 & S1).
    exists n1. split; [|exact S1]. simpl.
    rewrite JsMapFacts.get_set_other; [exact H1|].
    intros <-. apply Hnew. eapply JsMapFacts.get_In_keys. exact H1.
Qed.

Lemma extends_findResonantNodes (w0 w : World) (embedding : Float32Array)
    (text : option string) :
  fresh_ids w /\ extends w0 w ->
  fresh_ids (snd (findResonantNodes embedding text w)) /\
  extends w0 (snd (findResonantNodes embedding text w)).
Proof.
  intros [Hf He].
  pose proof (kept_scan embedding w) as Hk.
  pose proof (fresh_kept _ _ Hf Hk) as Hf1.
  pose proof (extends_kept _ _ _ He Hk) as He1.
  unfold findResonantNodes.
  destruct (resonantScan embedding (network w)) as [net' res]. cbn [fst] in *.
  destruct res as [|r res]; [|split; assumption].
  pose proof (extends_createNode w0 (set_network net' w) embedding text Hf1 He1)
    as H.
  destruct (createNode embedding text (set_network net' w)) as [newNode w2].
  exact H.
Qed.

Lemma extends_refl (w : World) : extends w w.
Proof.
  split.
  - exists []. now rewrite app_nil_r.
  - intros k n Hget. exists n. split; [exact Hget | apply same_identity_refl].
Qed.

(** X8. Provided the identifiers the generator yields are pairwise distinct
    and not in use, no sequence of [learn], [think], [saveNetwork] and
    [getMetrics] calls removes, reorders or replaces a node: the ids of the
    store it started from stay first, in their order, and each of these
    nodes keeps its id, embedding, semantic content, decay, threshold and
    refractory period.  The identifiers still to come stay unused. *)
Theorem api_keeps_nodes (w0 w : World) :
  fresh_ids w0 -> apiRun w0 w -> extends w0 w /\ fresh_ids w.
Proof.
  intros Hf Hrun.
  assert (H : fresh_ids w /\ extends w0 w); [|destruct H; now split].
  apply (preserved_apiRun (fun w => fresh_ids w /\ extends w0 w)) with w0;
    try exact Hrun.
  - intros embedding text w1. apply extends_findResonantNodes.
  - intros startNodes path w1 w2 [Hf1 He1] H.
    apply kept_propagateActivation in H.
    split; [eapply fresh_kept | eapply extends_kept]; eassumption.
  - intros startNodes path w1 w2 [Hf1 He1] H.
    apply kept_propagateActivation in H.
    split; [eapply fresh_kept | eapply extends_kept]; eassumption.
  - intros path w1 [Hf1 He1]. pose proof (kept_strengthenPath path w1) as H.
    split; [eapply fresh_kept | eapply extends_kept]; eassumption.
  - intros w1 [Hf1 He1]. pose proof (kept_saveNetwork w1) as H.
    split; [eapply fresh_kept | eapply extends_kept]; eassumption.
  - intros w1 [Hf1 He1]. pose proof (kept_tick w1) as H.
    split; [eapply fresh_kept | eapply extends_kept]; eassumption.
  - split; [exact Hf | apply extends_refl].
Qed.

Lemma tally_inj (i j : nat) : tally i = tally j -> i = j.
Proof.
  revert j. induction i as [|i IH]; intros [|j]; simpl; try discriminate; auto.
  intros [= H]. f_equal. now apply IH.
Qed.

Lemma fresh_ids_tallyWorld : fresh_ids tallyWorld.
Proof.
  split.
  - intros i j H. unfold tallyWorld, tallyIds in H. simpl in H.
    injection H as H. now apply tally_inj.
  - intros i _ [].
Qed.

Lemma api_keeps_nodes_witness :
  extends (learn "water" [1; 0] tallyWorld)
          (learn "fire" [0; 1] (learn "water" [1; 0] tallyWorld)).
Proof.
  apply (api_keeps_nodes (learn "water" [1; 0] tallyWorld)).
  - apply (api_keeps_nodes tallyWorld).
    + exact fresh_ids_tallyWorld.
    + eapply api_snoc; [apply api_nil | apply api_learn].
  - eapply api_snoc; [apply api_nil | apply api_learn].
Defined.

(** ** The instance metrics stay in range *)

Lemma consecutiveEdges_stored (net : Network) (path : list string)
    (c : NodeConnection.t) :
  In c (consecutiveEdges net path) ->
  exists a b, connectionBetween net a b = Some c.
Proof.
  induction path as [|a rest IH]; simpl; [tauto|].
  destruct rest as [|b rest']; [simpl; tauto|].
  destruct (connectionBetween net a b) as [c0|] eqn:E.
  - intros [<- | Hin]; eauto.
  - exact IH.
Qed.

Lemma bounded_connectionBetween (w : World) (a b : string)
    (c : NodeConnection.t) :
  weights_bounded w -> connectionBetween (network w) a b = Some c ->
  weight_in_range c.
Proof.
  intros Hb. unfold connectionBetween.
  destruct (JsMap.get (network w) a) as [n|] eqn:E; [|discriminate].
  intros Hc.
  exact (Hb a n (JsMapFacts.get_In _ _ _ E) b c (JsMapFacts.get_In _ _ _ Hc)).
Qed.

Lemma calculateCoherence_unit (w : World) (path : list string) :
  weights_bounded w -> 0 <= calculateCoherence (network w) path <= 1.
Proof.
  intros Hb.
  destruct (Nat.ltb_spec (List.length path) 2) as [Hlt | Hge].
  - unfold calculateCoherence.
    destruct (Nat.ltb_spec (List.length path) 2); [lra | lia].
  - rewrite calculateCoherence_long by assumption.
    destruct (consecutiveEdges (network w) path) as [|c cs] eqn:E; [lra|].
    unfold meanAbsWeight.
    assert (Hpos : 0 < INR (List.length (c :: cs)))
      by (apply lt_0_INR; simpl; lia).
    split.
    + apply Rmult_le_pos; [apply sumAbsWeight_nonneg|].
      left. now apply Rinv_0_lt_compat.
    + apply Rmult_le_reg_r with (INR (List.length (c :: cs))); [exact Hpos|].
      unfold Rdiv. rewrite Rmult_assoc, Rinv_l, Rmult_1_r, Rmult_1_l by lra.
      apply sumAbsWeight_le_length. intros c' Hin. rewrite <- E in Hin.
      destruct (consecutiveEdges_stored _ _ _ Hin) as (a & b & Hc).
      exact (bounded_connectionBetween w a b c' Hb Hc).
Qed.






















(** ** Where propagation goes *)

Lemma is_target_activation_only (net net' : Network) (x : string) :
  activation_only net net' -> is_target net' x -> is_target net x.
Proof.
  intros Hframe (r & n' & Hin & Hx).
  destruct (activation_only_In _ _ _ _ Hframe Hin) as (n & Hn & Hsame).
  destruct Hsame as (_ & Hconn & _). rewrite Hconn in Hx.
  exists r, n. auto.
Qed.

Lemma spreadTo_grows (params : ActivationParams.t) (edge : bool) (now : number)
    (current : string) (w : World) (fr : Front)
    (entry : string * NodeConnection.t) :
  exists added,
    activatedPath (snd (spreadTo params edge now current (w, fr) entry))
      = activatedPath fr ++ added /\
    forall x, In x added -> x = fst entry.
Proof.
  unfold spreadTo. destruct entry as [connectedId connection].
  assert (Hnil : exists added : list string,
             activatedPath fr = activatedPath fr ++ added /\
             forall x, In x added -> x = fst (connectedId, connection))
    by (exists []; split; [now rewrite app_nil_r | intros x []]).
  destruct (Set_has (visited fr) connectedId); [exact Hnil|].
  destruct (JsMap.get (network w) connectedId) as [connectedNode|];
    [|exact Hnil].
  destruct (JsMap.get (network w) current) as [cur|]; [|exact Hnil].
  match goal with
  | |- context [if gtb ?p ?t then _ else _] => destruct (gtb p t)
  end; cbn [snd]; [|exact Hnil].
  exists [connectedId]. split; [reflexivity|].
  intros x [<- | []]. reflexivity.
Qed.

Lemma fold_spreadTo_grows (params : ActivationParams.t) (edge : bool)
    (now : number) (current : string)
    (entries : list (string * NodeConnection.t)) (w : World) (fr : Front) :
  exists added,
    activatedPath
      (snd (fold_left (spreadTo params edge now current) entries (w, fr)))
      = activatedPath fr ++ added /\
    forall x, In x added -> In x (JsMap.keys entries).
Proof.
  revert w fr.
  induction entries as [|entry entries IH]; intros w fr; cbn [fold_left].
  - exists []. split; [now rewrite app_nil_r | intros x []].
  - destruct (spreadTo_grows params edge now current w fr entry)
      as (added1 & E1 & H1).
    destruct (spreadTo params edge now current (w, fr) entry) as [w1 fr1].
    cbn [snd] in E1. destruct (IH w1 fr1) as (added2 & E2 & H2).
    exists (added1 ++ added2). split.
    + now rewrite E2, E1, app_assoc.
    + intros x Hx. apply in_app_or in Hx. simpl. destruct Hx as [Hx | Hx].
      * left. symmetry. now apply H1.
      * right. now apply H2.
Qed.

Lemma visit_grows (params : ActivationParams.t) (edge : bool)
    (current : string) (w : World) (fr : Front) :
  exists added,
    activatedPath (snd (visit params edge current w fr))
      = activatedPath fr ++ added /\
    forall x, In x added -> is_target (network w) x.
Proof.
  unfold visit, Date_now.
  set (w1 := update current (decayed params) w).
  assert (Hnil : exists added : list string,
             activatedPath fr = activatedPath fr ++ added /\
             forall x, In x added -> is_target (network w) x)
    by (exists []; split; [now rewrite app_nil_r | intros x []]).
  destruct (JsMap.get (network (tick w1)) current) as [cur|] eqn:E;
    [|exact Hnil].
  match goal with
  | |- context [if ?b then _ else _] => destruct b
  end; [exact Hnil|].
  match goal with
  | |- context [fold_left ?f ?l (?a, ?b)] =>
      destruct (fold_spreadTo_grows params edge (clock w1 (ticks w1)) current
                                    l a b) as (added & Ea & Ha)
  end.
  exists added. split; [exact Ea|].
  intros x Hx.
  apply (is_target_activation_only (network w) (network (tick w1))).
  - apply activation_only_modify. intros n. repeat split.
  - exists current, cur. split; [now apply JsMapFacts.get_In | now apply Ha].
Qed.

Lemma propagateLoop_grows (fuel : nat) (params : ActivationParams.t)
    (edge : bool) (w w' : World) (fr fr' : Front) :
  propagateLoop fuel params edge w fr = Some (w', fr') ->
  exists added,
    activatedPath fr' = activatedPath fr ++ added /\
    forall x, In x added -> is_target (network w) x.
Proof.
  revert w fr. induction fuel as [|fuel IH]; intros w fr;
    cbn [propagateLoop]; destruct (wavefront fr) as [|current rest];
    try discriminate;
    try (intros [= <- <-]; exists [];
         split; [now rewrite app_nil_r | intros x []]).
  pose proof (visit_grows params edge current w
                (mkFront (visited fr) rest (activatedPath fr)))
    as (added1 & E1 & H1).
  pose proof (visit_frame params edge current w
                (mkFront (visited fr) rest (activatedPath fr))) as [Hframe _].
  destruct (visit params edge current w
              (mkFront (visited fr) rest (activatedPath fr))) as [w1 fr1].
  cbn [fst snd activatedPath] in E1, Hframe. intros H.
  destruct (IH w1 fr1 H) as (added2 & E2 & H2).
  exists (added1 ++ added2). split.
  - now rewrite E2, E1, app_assoc.
  - intros x Hx. apply in_app_or in Hx. destruct Hx as [Hx | Hx].
    + now apply H1.
    + eapply is_target_activation_only; [exact Hframe | now apply H2].
Qed.

(** X10. From distinct stored seeds, the path [propagateActivation]
    returns is the seeds, in their order, followed by the nodes that fired;
    it holds no node twice, only stored nodes, and every node that fired
    is the target of a stored connection. *)
Theorem propagateActivation_path_shape (startNodes : list string)
    (params : ActivationParams.t) (w w' : World) (path : list string) :
  path_of_distinct_nodes w startNodes ->
  propagateActivation startNodes params w = Some (path, w') ->
  exists fired,
    path = startNodes ++ fired /\
    NoDup path /\
    (forall k, In k path -> In k (JsMap.keys (network w'))) /\
    (forall k, In k fired -> is_target (network w) k).
Proof.
  intros Hseeds H. unfold propagateActivation in H.
  match type of H with
  | context [propagateLoop ?fuel ?p ?e ?w0 ?fr0] =>
      destruct (propagateLoop fuel p e w0 fr0) as [[w1 fr1]|] eqn:E;
      [|discriminate]
  end.
  injection H as <- <-.
  assert (Hok : front_ok w (mkFront startNodes startNodes startNodes))
    by (split; [reflexivity | exact Hseeds]).
  destruct (propagateLoop_front_ok _ _ _ _ _ _ _ Hok E) as (Hp & Hnd & Hin).
  destruct (propagateLoop_grows _ _ _ _ _ _ _ E) as (fired & Ef & Hf).
  exists fired. cbn [activatedPath] in Ef. rewrite Hp. repeat split.
  - now rewrite <- Hp.
  - exact Hnd.
  - exact Hin.
  - exact Hf.
Qed.

Lemma propagateActivation_path_shape_witness :
  exists path w' fired,
    propagateActivation ["a"%string] broad world_a_to_b = Some (path, w') /\
    path = ["a"%string] ++ fired /\ NoDup path.
Proof.
  destruct (propagateActivation_total ["a"%string] broad world_a_to_b)
    as (path & w' & H).
  destruct (propagateActivation_path_shape ["a"%string] broad world_a_to_b
              w' path) as (fired & Hp & Hnd & _).
  - split; [repeat constructor; simpl; tauto|].
    intros k [<- | []]. simpl. tauto.
  - exact H.
  - exists path, w', fired. auto.
Defined.

(** X11. A seed is never activated by the call it seeds: from distinct
    seeds, every stored seed ends [propagateActivation] with its potential
    multiplied by [params.decay] exactly once and with nothing else
    changed, its [lastFired] included. *)
Theorem propagateActivation_decays_seeds (startNodes : list string)
    (params : ActivationParams.t) (w w' : World) (path : list string)
    (k : string) :
  NoDup startNodes -> In k startNodes ->
  propagateActivation startNodes params w = Some (path, w') ->
  JsMap.get (network w') k
    = option_map (decayed params) (JsMap.get (network w) k).
Proof.
  intros Hnd Hin H. unfold propagateActivation in H.
  match type of H with
  | context [propagateLoop ?fuel ?p ?e ?w0 ?fr0] =>
      destruct (propagateLoop fuel p e w0 fr0) as [[w1 fr1]|] eqn:E;
      [|discriminate]
  end.
  injection H as _ <-.
  apply (propagateLoop_decays_once _ _ _ _ _ _ _ k) in E; [exact E | |].
  - cbn [visited]. now apply Set_has_In.
  - cbn [wavefront]. now apply NoDup_count_occ'.
Qed.

Lemma propagateActivation_decays_seeds_witness :
  exists path w',
    propagateActivation ["a"%string] broad world_a_to_b = Some (path, w') /\
    potentialOf w' "a" = 1 * 0.9.
Proof.
  destruct (propagateActivation_total ["a"%string] broad world_a_to_b)
    as (path & w' & H).
  exists path, w'. split; [exact H|].
  unfold potentialOf.
  rewrite (propagateActivation_decays_seeds ["a"%string] broad world_a_to_b
             w' path "a").
  - reflexivity.
  - repeat constructor. simpl. tauto.
  - simpl. tauto.
  - exact H.
Defined.

Lemma visit_unreached (params : ActivationParams.t) (edge : bool)
    (current : string) (w : World) (fr : Front) (k : string) :
  current <> k -> ~ is_target (network w) k ->
  let r := visit params edge current w fr in
  JsMap.get (network (fst r)) k = JsMap.get (network w) k /\
  count_occ string_dec (wavefront (snd r)) k
    = count_occ string_dec (wavefront fr) k.
Proof.
  intros Hne Hk. unfold visit, Date_now. cbv zeta.
  set (w1 := update current (decayed params) w).
  assert (G1 : JsMap.get (network (tick w1)) k = JsMap.get (network w) k)
    by (apply get_update_other; exact Hne).
  destruct (JsMap.get (network (tick w1)) current) as [cur|] eqn:E;
    [|cbn [fst snd]; auto].
  match goal with
  | |- context [if ?b then _ else _] => destruct b
  end; [cbn [fst snd]; auto|].
  assert (Hout : ~ In k (JsMap.keys (ActivationNode.connections cur))).
  { intros Hin. apply Hk.
    apply (is_target_activation_only (network w) (network (tick w1))).
    - apply activation_only_modify. intros n. repeat split.
    - exists current, cur. split; [now apply JsMapFacts.get_In | exact Hin]. }
  match goal with
  | |- context [fold_left ?f ?l (?a, ?b)] =>
      destruct (fold_spreadTo_aside params edge (clock w1 (ticks w1)) current
                                    l a b k (or_introl Hout)) as (G & _ & W)
  end.
  rewrite G, W. auto.
Qed.

Lemma propagateLoop_unreached (fuel : nat) (params : ActivationParams.t)
    (edge : bool) (w w' : World) (fr fr' : Front) (k : string) :
  ~ In k (wavefront fr) -> ~ is_target (network w) k ->
  propagateLoop fuel params edge w fr = Some (w', fr') ->
  JsMap.get (network w') k = JsMap.get (network w) k.
Proof.
  revert w fr. induction fuel as [|fuel IH]; intros w fr Hout Hk;
    cbn [propagateLoop]; destruct (wavefront fr) as [|current rest] eqn:Hw;
    try discriminate; try (now intros [= <- <-]).
  assert (Hne : current <> k) by (intros ->; apply Hout; now left).
  pose proof (visit_unreached params edge current w
                (mkFront (visited fr) rest (activatedPath fr)) k Hne Hk)
    as (G & W).
  pose proof (visit_frame params edge current w
                (mkFront (visited fr) rest (activatedPath fr))) as [Hframe _].
  destruct (visit params edge current w
              (mkFront (visited fr) rest (activatedPath fr))) as [w1 fr1].
  cbn [fst snd wavefront] in G, W, Hframe. intros H.
  rewrite (IH w1 fr1) with (3 := H); [exact G | |].
  - apply (count_occ_not_In string_dec). rewrite W.
    apply (count_occ_not_In string_dec). intros Hin. apply Hout. now right.
  - intros Ht. apply Hk. eapply is_target_activation_only; eassumption.
Qed.

(** X12. Activation only travels along connections: a node that is not a
    seed and to which no stored node has a connection is neither changed
    by [propagateActivation] nor on the path it returns. *)
Theorem propagateActivation_unreached (startNodes : list string)
    (params : ActivationParams.t) (w w' : World) (path : list string)
    (k : string) :
  ~ In k startNodes -> ~ is_target (network w) k ->
  propagateActivation startNodes params w = Some (path, w') ->
  JsMap.get (network w') k = JsMap.get (network w) k /\ ~ In k path.
Proof.
  intros Hseed Hk H. unfold propagateActivation in H.
  match type of H with
  | context [propagateLoop ?fuel ?p ?e ?w0 ?fr0] =>
      destruct (propagateLoop fuel p e w0 fr0) as [[w1 fr1]|] eqn:E;
      [|discriminate]
  end.
  injection H as <- <-. split.
  - eapply propagateLoop_unreached; [| |exact E]; assumption.
  - destruct (propagateLoop_grows _ _ _ _ _ _ _ E) as (fired & Ef & Hf).
    cbn [activatedPath] in Ef. rewrite Ef. intros Hin.
    apply in_app_or in Hin. destruct Hin as [Hin | Hin];
      [now apply Hseed | now apply Hk, Hf].
Qed.

Lemma propagateActivation_unreached_witness :
  exists path w',
    propagateActivation ["b"%string] broad world_a_to_b = Some (path, w') /\
    potentialOf w' "a" = 1 /\ ~ In "a"%string path.
Proof.
  destruct (propagateActivation_total ["b"%string] broad world_a_to_b)
    as (path & w' & H).
  destruct (propagateActivation_unreached ["b"%string] broad world_a_to_b
              w' path "a") as [Hget Hout].
  - simpl. intuition discriminate.
  - intros (r & n & Hin & Hx).
    destruct Hin as [Hin | [Hin | []]]; injection Hin as <- <-;
      simpl in Hx; intuition discriminate.
  - exact H.
  - exists path, w'. split; [exact H|]. split; [|exact Hout].
    unfold potentialOf. rewrite Hget. reflexivity.
Defined.

Lemma propagateLoop_no_connections (params : ActivationParams.t) (edge : bool)
    (l v p : list string) (fuel : nat) (w : World) :
  (List.length l <= fuel)%nat ->
  (forall r n, In r l -> JsMap.get (network w) r = Some n ->
               ActivationNode.connections n = []) ->
  propagateLoop fuel params edge w (mkFront v l p)
  = Some (decaySeeds params l w, mkFront v [] p).
Proof.
  revert fuel w. induction l as [|current rest IH]; intros fuel w Hfuel Hnone.
  - destruct fuel; reflexivity.
  - destruct fuel as [|fuel]; [simpl in Hfuel; lia|].
    cbn [propagateLoop wavefront visited activatedPath].
    assert (Hvisit : visit params edge current w (mkFront v rest p)
                     = (tick (update current (decayed params) w),
                        mkFront v rest p)).
    { unfold visit, Date_now.
      set (w1 := update current (decayed params) w).
      assert (G : JsMap.get (network (tick w1)) current
                  = option_map (decayed params) (JsMap.get (network w) current))
        by apply get_update_same.
      destruct (JsMap.get (network w) current) as [n|] eqn:E;
        rewrite G; simpl option_map; cbv iota beta; [|reflexivity].
      match goal with
      | |- context [if ?b then _ else _] => destruct b
      end; [reflexivity|].
      change (ActivationNode.connections (decayed params n))
        with (ActivationNode.connections n).
      rewrite (Hnone current n (or_introl eq_refl) E). reflexivity. }
    rewrite Hvisit. rewrite IH.
    + reflexivity.
    + simpl in Hfuel. lia.
    + intros r n Hin Hget. destruct (string_dec current r) as [<- | Hne].
      * change (network (tick (update current (decayed params) w)))
          with (network (update current (decayed params) w)) in Hget.
        rewrite get_update_same in Hget.
        destruct (JsMap.get (network w) current) as [n0|] eqn:E;
          [|discriminate].
        injection Hget as <-.
        exact (Hnone current n0 (or_introl eq_refl) E).
      * change (network (tick (update current (decayed params) w)))
          with (network (update current (decayed params) w)) in Hget.
        rewrite get_update_other in Hget by assumption.
        exact (Hnone r n (or_intror Hin) Hget).
Qed.

(** X13. Seeds without outgoing connections activate nothing:
    [propagateActivation] returns exactly the seeds, and all it does to the
    instance is to multiply the potential of each seed by [params.decay]
    and to read the clock once per seed; the other nodes, the coherence
    score and the chaos threshold stay as they were. *)
Theorem propagateActivation_no_connections (startNodes : list string)
    (params : ActivationParams.t) (w : World) :
  (forall r n, In r startNodes -> JsMap.get (network w) r = Some n ->
               ActivationNode.connections n = []) ->
  propagateActivation startNodes params w
  = Some (startNodes, decaySeeds params startNodes w).
Proof.
  intros Hnone. unfold propagateActivation.
  rewrite propagateLoop_no_connections; [reflexivity | lia | exact Hnone].
Qed.

Lemma propagateActivation_no_connections_witness :
  propagateActivation ["b"%string] broad world_a_to_b
  = Some (["b"%string], decaySeeds broad ["b"%string] world_a_to_b).
Proof.
  apply propagateActivation_no_connections.
  intros r n [<- | []] Hget. simpl in Hget. now injection Hget as <-.
Defined.

(** ** What plasticity touches *)

Lemma rewired_refl (n : ActivationNode.t) : rewired n n.
Proof.
  split; [now destruct n | exists []; now rewrite app_nil_r].
Qed.

Lemma rewired_trans (n1 n2 n3 : ActivationNode.t) :
  rewired n1 n2 -> rewired n2 n3 -> rewired n1 n3.
Proof.
  intros [E1 [a1 K1]] [E2 [a2 K2]]. split.
  - rewrite E2. rewrite E1. reflexivity.
  - exists (a1 ++ a2). now rewrite K2, K1, app_assoc.
Qed.

Lemma connections_only_refl (w : World) : connections_only w w.
Proof.
  repeat split; auto. intros k n Hget. exists n.
  split; [exact Hget | apply rewired_refl].
Qed.

Lemma connections_only_trans (w1 w2 w3 : World) :
  connections_only w1 w2 -> connections_only w2 w3 -> connections_only w1 w3.
Proof.
  intros (A1 & A2 & A3 & A4 & A5 & A6) (B1 & B2 & B3 & B4 & B5 & B6).
  repeat split; try congruence.
  intros k n Hget. destruct (A2 k n Hget) as (n2 & Hget2 & Hr2).
  destruct (B2 k n2 Hget2) as (n3 & Hget3 & Hr3).
  exists n3. split; [exact Hget3 | eapply rewired_trans; eassumption].
Qed.

Lemma connections_only_update (r : string)
    (f : ActivationNode.t -> ActivationNode.t) (w : World) :
  (forall n, rewired n (f n)) -> connections_only w (update r f w).
Proof.
  intros Hf. repeat split; auto.
  - simpl. apply JsMapFacts.keys_modify.
  - intros k n Hget. destruct (string_dec r k) as [<- | Hne].
    + rewrite get_update_same, Hget. simpl. eauto.
    + rewrite get_update_other by assumption. exists n.
      split; [exact Hget | apply rewired_refl].
Qed.

Lemma connections_only_tick (w : World) : connections_only w (tick w).
Proof.
  repeat split; auto. intros k n Hget. exists n.
  split; [exact Hget | apply rewired_refl].
Qed.

Lemma connections_only_setConnection (a b : string) (c : NodeConnection.t)
    (w : World) :
  connections_only w (setConnection a b c w).
Proof.
  apply connections_only_update. intros n. split; [reflexivity|]. simpl.
  destruct (in_dec string_dec b (JsMap.keys (ActivationNode.connections n)))
    as [Hin | Hout].
  - exists []. rewrite JsMapFacts.keys_set_in by assumption.
    now rewrite app_nil_r.
  - exists [b]. now apply JsMapFacts.keys_set_new.
Qed.

Lemma connections_only_getOrCreate (a b : string) (w : World) :
  connections_only w (snd (getOrCreate a b w)).
Proof.
  unfold getOrCreate, Date_now.
  destruct (connectionBetween (network w) a b); cbn [snd];
    [apply connections_only_refl|].
  eapply connections_only_trans;
    [apply connections_only_tick | apply connections_only_setConnection].
Qed.

Lemma connections_only_strengthenPair (a b : string) (w : World) :
  connections_only w (strengthenPair a b w).
Proof.
  unfold strengthenPair, Date_now.
  pose proof (connections_only_getOrCreate a b w) as H1.
  destruct (getOrCreate a b w) as [c w1]. cbn [snd] in H1.
  match goal with
  | |- context [getOrCreate b a ?w3] =>
      assert (H3 : connections_only w w3)
        by (eapply connections_only_trans; [exact H1|];
            eapply connections_only_trans;
            [apply connections_only_tick
            | apply connections_only_setConnection]);
      pose proof (connections_only_getOrCreate b a w3) as H4;
      destruct (getOrCreate b a w3) as [rc w4]
  end.
  cbn [snd] in H4.
  eapply connections_only_trans; [exact H3|].
  eapply connections_only_trans;
    [exact H4 | apply connections_only_setConnection].
Qed.

Lemma connections_only_hebbian (path : list string) (w : World) :
  connections_only w (hebbian path w).
Proof.
  revert w. induction path as [|a rest IH]; intros w;
    [apply connections_only_refl|].
  destruct rest as [|b rest']; [apply connections_only_refl|].
  change (hebbian (a :: b :: rest') w)
    with (hebbian (b :: rest') (strengthenPair a b w)).
  eapply connections_only_trans;
    [apply connections_only_strengthenPair | apply IH].
Qed.

Lemma connections_only_antiHebbian (path : list string) (w : World) :
  connections_only w (antiHebbian path w).
Proof.
  unfold antiHebbian. generalize path at 1. intros p.
  revert w. induction path as [|node l IH]; intros w; simpl;
    [apply connections_only_refl|].
  eapply connections_only_trans; [|apply IH].
  apply connections_only_update. intros n. split; [reflexivity|].
  exists []. simpl. now rewrite keys_weaken, app_nil_r.
Qed.

(** X14. [strengthenPath] rewires and does nothing else: the store keeps
    its nodes in their order, every node keeps all its fields but the
    connection map ([potential] and [lastFired] included), every
    connection map keeps its entries' keys in their order (no connection
    is ever removed), and the coherence score, the chaos threshold and the
    file are left alone. *)
Theorem strengthenPath_rewires_only (path : list string) (w : World) :
  connections_only w (strengthenPath path w).
Proof.
  unfold strengthenPath.
  eapply connections_only_trans;
    [apply connections_only_hebbian | apply connections_only_antiHebbian].
Qed.

Lemma connections_only_connected (w w' : World) (x y : string)
    (c : NodeConnection.t) :
  connections_only w w' ->
  connectionBetween (network w) x y = Some c ->
  exists c', connectionBetween (network w') x y = Some c'.
Proof.
  intros (_ & Hnodes & _). unfold connectionBetween.
  destruct (JsMap.get (network w) x) as [n|] eqn:E; [|discriminate].
  intros Hc. destruct (Hnodes x n E) as (n' & -> & _ & added & Hkeys).
  apply JsMapFacts.In_keys_get. rewrite Hkeys. apply in_or_app. left.
  eapply JsMapFacts.get_In_keys. exact Hc.
Qed.

Lemma connections_only_keys (w w' : World) :
  connections_only w w' -> JsMap.keys (network w') = JsMap.keys (network w).
Proof. now intros (H & _). Qed.






Lemma strengthenPair_connects (a b : string) (w : World) :
  In a (JsMap.keys (network w)) -> In b (JsMap.keys (network w)) ->
  (exists c, connectionBetween (network (strengthenPair a b w)) a b = Some c) /\
  (exists c, connectionBetween (network (strengthenPair a b w)) b a = Some c).
Proof.
  intros Ha Hb. unfold strengthenPair, Date_now.
  pose proof (connections_only_keys _ _ (connections_only_getOrCreate a b w))
    as K1.
  destruct (getOrCreate a b w) as [c w1]. cbn [snd] in K1.
  match goal with
  | |- context [getOrCreate b a ?x] => set (w3 := x)
  end.
  assert (K3 : JsMap.keys (network w3) = JsMap.keys (network w))
    by (unfold w3, setConnection; simpl;
        rewrite JsMapFacts.keys_modify; exact K1).
  assert (F3 : exists c3, connectionBetween (network w3) a b = Some c3)
    by (eexists; apply conn_setConnection_same; simpl; now rewrite K1).
  pose proof (connections_only_getOrCreate b a w3) as H4.
  destruct (getOrCreate b a w3) as [rc w4].
  cbn [snd] in H4. split.
  - destruct F3 as [c3 F3].
    destruct (connections_only_connected _ _ _ _ _ H4 F3) as [c4 F4].
    eapply connections_only_connected;
      [apply connections_only_setConnection | exact F4].
  - eexists. apply conn_setConnection_same.
    rewrite (connections_only_keys _ _ H4), K3. exact Hb.
Qed.

Lemma hebbian_connects (pre post : list string) (a b : string) (w : World) :
  In a (JsMap.keys (network w)) -> In b (JsMap.keys (network w)) ->
  (exists c, connectionBetween
               (network (hebbian (pre ++ a :: b :: post) w)) a b = Some c) /\
  (exists c, connectionBetween
               (network (hebbian (pre ++ a :: b :: post) w)) b a = Some c).
Proof.
  intros Ha Hb. rewrite hebbian_app.
  change (hebbian (a :: b :: post) (hebbian (pre ++ [a]) w))
    with (hebbian (b :: post) (strengthenPair a b (hebbian (pre ++ [a]) w))).
  set (w0 := hebbian (pre ++ [a]) w).
  assert (K0 : JsMap.keys (network w0) = JsMap.keys (network w))
    by apply connections_only_keys, connections_only_hebbian.
  destruct (strengthenPair_connects a b w0) as [[c1 H1] [c2 H2]];
    [now rewrite K0 | now rewrite K0 |].
  split; eapply connections_only_connected;
    try apply connections_only_hebbian; eassumption.
Qed.

(** X15. After [strengthenPath], any two stored nodes that follow one
    another on the path are connected in both directions, whatever the
    store held before. *)
Theorem strengthenPath_connects (pre post : list string) (a b : string)
    (w : World) :
  In a (JsMap.keys (network w)) -> In b (JsMap.keys (network w)) ->
  let w' := strengthenPath (pre ++ a :: b :: post) w in
  (exists c, connectionBetween (network w') a b = Some c) /\
  (exists c, connectionBetween (network w') b a = Some c).
Proof.
  intros Ha Hb w'. subst w'. unfold strengthenPath.
  destruct (hebbian_connects pre post a b w Ha Hb) as [[c1 H1] [c2 H2]].
  split; eapply connections_only_connected;
    try apply connections_only_antiHebbian; eassumption.
Qed.

Lemma strengthenPath_connects_witness :
  exists c, connectionBetween
              (network (strengthenPath ["a"; "b"]%string world_a_to_b))
              "b" "a" = Some c.
Proof.
  destruct (strengthenPath_connects [] [] "a" "b" world_a_to_b) as [_ H].
  - simpl. tauto.
  - simpl. tauto.
  - exact H.
Defined.

(** X16. After [strengthenPath] on a path without repeated nodes in which
    [a] is followed by [b], two stored nodes already connected both ways:
    with delta = forward.plasticityRate * a.potential * b.potential, the
    forward connection has weight tanh(weight + delta), a fresh
    [lastFired] and its plasticity rate, and the reverse connection has
    weight tanh(weight + 0.7 delta) with its own [lastFired] and
    plasticity rate untouched: the reverse update is scaled by the rate of
    the forward connection, not by its own. *)
Theorem strengthen_connected_pair (pre post : list string) (a b : string)
    (w : World) (forward reverse : NodeConnection.t) :
  NoDup (pre ++ a :: b :: post) ->
  In a (JsMap.keys (network w)) -> In b (JsMap.keys (network w)) ->
  connectionBetween (network w) a b = Some forward ->
  connectionBetween (network w) b a = Some reverse ->
  let delta :=
    NodeConnection.plasticityRate forward * potentialOf w a * potentialOf w b in
  let w' := strengthenPath (pre ++ a :: b :: post) w in
  (exists now,
     connectionBetween (network w') a b =
     Some (NodeConnection.mk (tanh (NodeConnection.weight forward + delta)) now
                             (NodeConnection.plasticityRate forward))) /\
  connectionBetween (network w') b a =
  Some (NodeConnection.mk (tanh (NodeConnection.weight reverse + delta * 0.7))
                          (NodeConnection.lastFired reverse)
                          (NodeConnection.plasticityRate reverse)).
Proof.
  intros Hnd Ha Hb Hab Hba delta w'. subst w'.
  assert (Hne : a <> b).
  { intros ->. apply NoDup_remove_2 in Hnd. apply Hnd.
    apply in_or_app. right. now left. }
  assert (Hb_pre : ~ In b (pre ++ [a])).
  { intros Hin. apply in_app_or in Hin.
    replace (pre ++ a :: b :: post) with ((pre ++ [a]) ++ b :: post) in Hnd
      by (rewrite <- app_assoc; reflexivity).
    apply NoDup_remove_2 in Hnd. apply Hnd. apply in_or_app. left.
    apply in_or_app. exact Hin. }
  assert (Ha_post : ~ In a (b :: post)).
  { intros Hin. apply NoDup_remove_2 in Hnd. apply Hnd.
    apply in_or_app. now right. }
  unfold strengthenPath.
  rewrite !antiHebbian_in_path
    by (apply in_or_app; right; simpl; tauto).
  rewrite hebbian_app.
  change (hebbian (a :: b :: post) (hebbian (pre ++ [a]) w))
    with (hebbian (b :: post) (strengthenPair a b (hebbian (pre ++ [a]) w))).
  rewrite !hebbian_untouched by tauto.
  set (w0 := hebbian (pre ++ [a]) w).
  assert (K0 : JsMap.keys (network w0) = JsMap.keys (network w))
    by apply keys_same_shell, same_shell_hebbian.
  destruct (strengthenPair_spec a b w0 Hne) as
    (f & r & now & Hf & Hr & Hfwd & Hrev);
    [now rewrite K0 | now rewrite K0 |].
  unfold w0 in Hf, Hr. rewrite hebbian_untouched in Hf, Hr by tauto.
  rewrite Hab in Hf. rewrite Hba in Hr. subst f r.
  unfold w0 in Hfwd, Hrev. rewrite !hebbian_potential in Hfwd, Hrev.
  fold delta in Hfwd, Hrev. fold w0 in Hfwd, Hrev.
  split; [exists now; exact Hfwd | exact Hrev].
Qed.

Lemma strengthen_connected_pair_witness :
  connectionBetween
    (network (strengthenPath ["a"; "b"]%string world_both_ways)) "b" "a"
  = Some (NodeConnection.mk (tanh (0.3 + 0.1 * 1 * 1 * 0.7)) 7 0.2).
Proof.
  destruct (strengthen_connected_pair [] [] "a" "b" world_both_ways
              (NodeConnection.mk 0.5 0 0.1) (NodeConnection.mk 0.3 7 0.2))
    as [_ H].
  - simpl. repeat constructor; simpl; intuition discriminate.
  - simpl. tauto.
  - simpl. tauto.
  - reflexivity.
  - reflexivity.
  - exact H.
Defined.

(** ** The metrics reported *)



Lemma ratio_in_unit (k n : nat) :
  (k <= n)%nat -> (0 < n)%nat -> 0 <= INR k / INR n <= 1.
Proof.
  intros Hle Hpos.
  assert (Hn : 0 < INR n) by now apply lt_0_INR.
  assert (Hk : 0 <= INR k) by apply pos_INR.
  assert (Hkn : INR k <= INR n) by now apply le_INR.
  split.
  - apply Rmult_le_pos; [exact Hk | left; now apply Rinv_0_lt_compat].
  - apply Rmult_le_reg_r with (INR n); [exact Hn|].
    unfold Rdiv. rewrite Rmult_assoc, Rinv_l, Rmult_1_r, Rmult_1_l by lra.
    exact Hkn.
Qed.







(** ** Thinking *)

Lemma narrativeOf_single (n : ActivationNode.t) :
  narrativeOf [n] =
  if hasContent n then contentOf n else "No semantic content available"%string.
Proof.
  unfold narrativeOf, semanticParts. simpl.
  destruct (hasContent n); reflexivity.
Qed.

Lemma strengthenPath_single (id : string) (w : World) :
  network (strengthenPath [id] w) =
  JsMap.modify (network w) id
    (fun n => ActivationNode.set_connections
                (map (weaken [id]) (ActivationNode.connections n)) n).
Proof. reflexivity. Qed.

Lemma propagateActivation_isolated (id : string) (params : ActivationParams.t)
    (w : World) (n : ActivationNode.t) :
  JsMap.get (network w) id = Some n -> ActivationNode.connections n = [] ->
  propagateActivation [id] params w
  = Some ([id], tick (update id (decayed params) w)).
Proof.
  intros Hget Hnone. unfold propagateActivation.
  rewrite propagateLoop_no_connections; [reflexivity | simpl; lia |].
  intros r n' [<- | []] Hget'. congruence.
Qed.

(** X18. A query that resonates with no stored node is itself stored:
    [think] creates a node for it (the generator's identifier taken to be
    unused), finds a path of that single node, which has coherence 1.0, and
    therefore asks the fast model, with the query text as the whole
    narrative (the placeholder when the text is empty).  Whether the model
    answers or fails, the store ends as the old store followed by the new
    node with potential 1.0 * 0.9, and the file is not written. *)
Theorem think_unmatched (respond : LLM) (input : string)
    (embedding : Float32Array) (w : World) :
  (forall k n, In (k, n) (network w) -> resonates embedding n = None) ->
  ~ In (nodeId w (ticks w)) (JsMap.keys (network w)) ->
  let id := nodeId w (ticks w) in
  let narrative :=
    if String.eqb input EmptyString
    then "No semantic content available"%string else input in
  exists w',
    think respond input embedding w
      = Some (generateResponse respond narrative fast, w') /\
    network w' =
      network w ++
      [(id, ActivationNode.set_potential (1.0 * 0.9)
              (createdNode id embedding (Some input)))] /\
    disk w' = disk w /\ writes w' = writes w.
Proof.
  intros Hnone Hfresh id narrative.
  set (created := createdNode id embedding (Some input)).
  set (w1 := tick (set_network (network w ++ [(id, created)]) w)).
  assert (H1 : findResonantNodes embedding (Some input) w = ([id], w1)).
  { rewrite findResonantNodes_miss
      by (now rewrite (resonantScan_none embedding (network w) Hnone)).
    rewrite (resonantScan_none embedding (network w) Hnone). cbn [fst].
    rewrite JsMapFacts.set_new by assumption. reflexivity. }
  assert (G1 : JsMap.get (network w1) id = Some created).
  { unfold w1. simpl. rewrite <- JsMapFacts.set_new by assumption.
    apply JsMapFacts.get_set_same. }
  set (w2 := tick (update id (decayed broad) w1)).
  assert (H2 : propagateActivation [id] broad w1 = Some ([id], w2))
    by (apply (propagateActivation_isolated id broad w1 created);
        [exact G1 | reflexivity]).
  assert (N2 : network w2 = network w ++ [(id, decayed broad created)]).
  { unfold w2, w1, update. simpl. now apply modify_app_new. }
  assert (G2 : JsMap.get (network w2) id = Some (decayed broad created)).
  { unfold w2. change (network (tick (update id (decayed broad) w1)))
      with (network (update id (decayed broad) w1)).
    now rewrite get_update_same, G1. }
  assert (Hpat : extractPattern [id] w2 =
                 (ActivationPattern.mk [id] 1.0
                    (calculateResonance [decayed broad created])
                    (fst (calculateStability [decayed broad created] w2))
                    narrative, tick w2)).
  { unfold extractPattern, nodesAt. cbn [flat_map]. rewrite G2.
    cbn [app]. rewrite narrativeOf_single.
    unfold calculateStability, Date_now. cbn [fst].
    unfold calculateCoherence. cbn [List.length Nat.ltb Nat.leb].
    f_equal. f_equal.
    unfold hasContent, contentOf, narrative. simpl.
    destruct (String.eqb input EmptyString); reflexivity. }
  assert (Hgt : gtb 1.0 0.7 = true) by (apply gtb_true; lra).
  set (w3 := tick w2) in *.
  assert (N3 : network (strengthenPath [id] w3)
               = network w ++ [(id, decayed broad created)]).
  { rewrite strengthenPath_single.
    change (network w3) with (network w2). rewrite N2.
    now rewrite modify_app_new by assumption. }
  unfold think. rewrite H1, H2, Hpat.
  cbn [ActivationPattern.coherence ActivationPattern.narrative].
  rewrite Hgt.
  destruct (generateResponse respond narrative fast) as [response | error].
  - exists (strengthenPath [id] w3). split; [reflexivity|].
    split; [exact N3|].
    destruct (same_shell_strengthenPath [id] w3) as (_ & Hd & Hw & _).
    rewrite Hd, Hw. split; reflexivity.
  - exists w3. split; [reflexivity|]. split; [exact N2|].
    split; reflexivity.
Qed.

Lemma think_unmatched_witness :
  exists w',
    think parrot "ice" [1; 0] freshWorld = Some (inl fast, w') /\
    JsMap.size (network w') = 1%nat.
Proof.
  destruct (think_unmatched parrot "ice" [1; 0] freshWorld)
    as (w' & H & Hnet & _).
  - intros k n [].
  - simpl. tauto.
  - exists w'. split; [exact H|]. rewrite Hnet. reflexivity.
Defined.

Lemma propagateActivation_shell (startNodes : list string)
    (params : ActivationParams.t) (path : list string) (w w' : World) :
  propagateActivation startNodes params w = Some (path, w') ->
  activation_only (network w) (network w') /\ same_shell w w'.
Proof.
  unfold propagateActivation. intros H.
  match type of H with
  | context [propagateLoop ?fuel ?p ?e ?w0 ?fr0] =>
      destruct (propagateLoop fuel p e w0 fr0) as [[w1 fr1]|] eqn:E;
      [|discriminate]
  end.
  injection H as _ <-. eapply propagateLoop_frame; eassumption.
Qed.

(** X19. [think] never writes the file and adds no node but the one the
    matcher may create.  When the completion service fails, the call ends
    before [strengthenPath]: compared with the store the matcher left, the
    nodes differ at most in [potential] and [lastFired], so no connection
    has been created or changed, while the matcher's and the propagation's
    effects stay. *)
Theorem think_frame (respond : LLM) (input : string)
    (embedding : Float32Array) (w w' : World) (result : string + string) :
  think respond input embedding w = Some (result, w') ->
  let w1 := snd (findResonantNodes embedding (Some input) w) in
  JsMap.keys (network w') = JsMap.keys (network w1) /\
  disk w' = disk w /\ writes w' = writes w /\
  (forall error, result = inr error ->
     activation_only (network w1) (network w')).
Proof.
  unfold think. intros H.
  destruct (findResonantNodes_writes embedding (Some input) w) as [Hw Hd].
  destruct (findResonantNodes embedding (Some input) w) as [res w1].
  cbn [snd] in *. cbv zeta.
  destruct (propagateActivation res broad w1) as [[p1 w2]|] eqn:E1;
    [|discriminate].
  destruct (propagateActivation_shell _ _ _ _ _ E1) as [A2 S2].
  assert (S3 : same_shell w1 (snd (extractPattern p1 w2)))
    by (eapply same_shell_trans; [exact S2 | apply same_shell_tick]).
  assert (A3 : activation_only (network w1)
                 (network (snd (extractPattern p1 w2)))) by exact A2.
  destruct (extractPattern p1 w2) as [pat w3]. cbn [snd] in S3, A3.
  assert (Hshell : forall w4, same_shell w1 w4 ->
            JsMap.keys (network w4) = JsMap.keys (network w1) /\
            disk w4 = disk w /\ writes w4 = writes w).
  { intros w4 (K & D & W & _). repeat split; congruence. }
  destruct (gtb (ActivationPattern.coherence pat) 0.7).
  - destruct (generateResponse respond (ActivationPattern.narrative pat) fast);
      injection H as <- <-.
    + destruct (Hshell (strengthenPath p1 w3)) as (K & D & W).
      * eapply same_shell_trans; [exact S3 | apply same_shell_strengthenPath].
      * repeat split; auto. intros error [=].
    + destruct (Hshell w3 S3) as (K & D & W). repeat split; auto.
  - destruct (propagateActivation res focused w3) as [[p2 w4]|] eqn:E2;
      [|discriminate].
    destruct (propagateActivation_shell _ _ _ _ _ E2) as [A4 S4].
    assert (S5 : same_shell w1 (snd (extractPattern p2 w4))).
    { eapply same_shell_trans; [exact S3|].
      eapply same_shell_trans; [exact S4 | apply same_shell_tick]. }
    assert (A5 : activation_only (network w1)
                   (network (snd (extractPattern p2 w4))))
      by (eapply activation_only_trans; [exact A3 | exact A4]).
    destruct (extractPattern p2 w4) as [pat2 w5]. cbn [snd] in S5, A5.
    destruct (generateResponse respond (ActivationPattern.narrative pat2)
                               reason);
      injection H as <- <-.
    + destruct (Hshell (strengthenPath p1 w5)) as (K & D & W).
      * eapply same_shell_trans; [exact S5 | apply same_shell_strengthenPath].
      * repeat split; auto. intros error [=].
    + destruct (Hshell w5 S5) as (K & D & W). repeat split; auto.
Qed.

Lemma think_frame_witness :
  exists result w',
    think parrot "ice" [1; 0] world_a_to_b = Some (result, w') /\
    writes w' = 0%nat.
Proof.
  destruct (think_total parrot "ice" [1; 0] world_a_to_b)
    as (result & w' & H).
  exists result, w'. split; [exact H|].
  destruct (think_frame parrot "ice" [1; 0] world_a_to_b w' result H)
    as (_ & _ & Hw & _).
  exact Hw.
Defined.

(** ** Saving and reloading again *)

Lemma reloaded_idem (n : ActivationNode.t) : reloaded (reloaded n) = reloaded n.
Proof. unfold reloaded. simpl. now rewrite dropEmpty_idem. Qed.

Lemma reloaded_same (n : ActivationNode.t) :
  ActivationNode.semanticContent n <> Some EmptyString -> reloaded n = n.
Proof.
  intros Hne. destruct n as [i p c d t r l e s]. unfold reloaded. simpl in *.
  f_equal. destruct s as [s|]; [|reflexivity]. simpl.
  destruct (String.eqb_spec s EmptyString) as [-> | _];
    [contradiction | reflexivity].
Qed.

Lemma wf_reloaded (net : Network) :
  wf_network net -> wf_network (map (fun '(k, n) => (k, reloaded n)) net).
Proof.
  intros [Hnd Hwf]. split.
  - now rewrite (keys_map_snd (fun _ n => reloaded n)).
  - intros k n' Hin. apply in_map_iff in Hin.
    destruct Hin as ([k0 n0] & [= <- <-] & Hin0).
    exact (Hwf k0 n0 Hin0).
Qed.

(** X20. Saving and reloading reaches a fixed point at once.  For a store
    whose ids are neither "__proto__" nor array indices (the ids
    [createNode] builds are neither), the store a reload gives back is
    given back unchanged by a further save and reload, and it is exactly
    the saved store when no node carries the empty string as semantic
    content.  The reloaded instance starts again with coherence score 0
    and chaos threshold 1.2: neither is persisted. *)
Theorem reload_is_stable (w : World) :
  wf_network (network w) -> plain_ids (network w) ->
  exists w1,
    reload w = Returns w1 /\
    coherenceScore w1 = 0 /\ chaosThreshold w1 = 1.2 /\
    (exists w2, reload w1 = Returns w2 /\ network w2 = network w1) /\
    ((forall k n, In (k, n) (network w) ->
        ActivationNode.semanticContent n <> Some EmptyString) ->
     network w1 = network w).
Proof.
  intros Hwf Hplain.
  destruct (reload_network w Hwf Hplain) as (w1 & Hre & Hnet).
  exists w1. split; [exact Hre|].
  assert (Hwf1 : wf_network (network w1))
    by (rewrite Hnet; now apply wf_reloaded).
  assert (Hplain1 : plain_ids (network w1)).
  { unfold plain_ids. rewrite Hnet.
    now rewrite (keys_map_snd (fun _ n => reloaded n)). }
  assert (Hmet : coherenceScore w1 = 0 /\ chaosThreshold w1 = 1.2).
  { revert Hre. unfold reload, initialize, loadNetwork, loadNetwork_try.
    cbn [disk saveNetwork newInstance existsSync network andThen try_catch].
    destruct (decodeInto JsMap.empty (encodeNetwork (network w)))
      as [net [e|]]; simpl; intros [= <-]; simpl; auto. }
  destruct Hmet as [Hcs Hct]. split; [exact Hcs|]. split; [exact Hct|]. split.
  - destruct (reload_network w1 Hwf1 Hplain1) as (w2 & Hre2 & Hnet2).
    exists w2. split; [exact Hre2|]. rewrite Hnet2, Hnet, map_map.
    apply map_ext. intros [k n]. now rewrite reloaded_idem.
  - intros Hne. rewrite Hnet. rewrite <- (map_id (network w)) at 2.
    apply map_ext_in. intros [k n] Hin. now rewrite (reloaded_same n (Hne k n Hin)).
Qed.

Lemma reload_is_stable_witness :
  exists w1, reload world_a_to_b = Returns w1 /\ network w1 = net_a_to_b.
Proof.
  destruct (reload_is_stable world_a_to_b wf_net_a_to_b plain_net_a_to_b)
    as (w1 & Hre & _ & _ & _ & Hsame).
  exists w1. split; [exact Hre|]. apply Hsame.
  intros k n [H | [H | []]]; injection H as <- <-; simpl; discriminate.
Defined.

Lemma decodeInto_until (good : list (string * NodeData.t)) (id : string)
    (rest : NetworkData) (acc : Network) :
  NoDup (JsMap.keys acc ++ JsMap.keys good) ->
  decodeInto acc (map (fun '(k, d) => (k, Shaped d)) good
                  ++ (id, Unbuildable) :: rest) =
  (acc ++ map (fun '(k, d) => (k, decodeNode k d)) good, Some TypeError).
Proof.
  revert acc. induction good as [|[k d] good IH]; intros acc Hnd; simpl.
  - now rewrite app_nil_r.
  - simpl in Hnd.
    assert (Hout : ~ In k (JsMap.keys acc)).
    { intros Hin. apply NoDup_remove_2 in Hnd. apply Hnd.
      apply in_or_app. now left. }
    rewrite JsMapFacts.set_new by assumption.
    rewrite IH.
    + rewrite <- app_assoc. reflexivity.
    + unfold JsMap.keys in *. rewrite map_app. simpl.
      rewrite <- app_assoc. exact Hnd.
Qed.

(** X21. Loading stops at the first entry of the file that cannot be
    built into a node, and the next save makes the loss permanent: from a
    file whose well-shaped entries [good] are followed by a malformed one,
    a fresh instance starts with the nodes of [good] only, and, when no id
    of [good] is "__proto__" or an array index, [saveNetwork] then writes
    a file with exactly those ids, whatever followed the malformed entry.
    An unparsable file is replaced by the empty document. *)
Theorem load_then_save_truncates (good : list (string * NodeData.t))
    (id : string) (rest : NetworkData) (text : string)
    (clk : nat -> number) (ids : nat -> string) :
  NoDup (JsMap.keys good) ->
  let data :=
    map (fun '(k, d) => (k, Shaped d)) good ++ (id, Unbuildable) :: rest in
  (exists w data',
     initialize (newInstance (Some (Document data)) clk ids) = Returns w /\
     JsMap.keys (network w) = JsMap.keys good /\
     disk (saveNetwork w) = Some (Document data') /\
     ((forall k, In k (JsMap.keys good) -> plain_id k) ->
      JsMap.keys data' = JsMap.keys good)) /\
  (exists w,
     initialize (newInstance (Some (Unparsable text)) clk ids) = Returns w /\
     disk (saveNetwork w) = Some (Document [])).
Proof.
  intros Hnd data. split.
  - unfold initialize, loadNetwork, loadNetwork_try.
    cbn [disk newInstance existsSync network andThen try_catch].
    unfold data. rewrite decodeInto_until by exact Hnd.
    cbn [app JsMap.empty andThen try_catch].
    eexists. eexists. split; [reflexivity|].
    assert (K : JsMap.keys (map (fun '(k, d) => (k, decodeNode k d)) good)
                = JsMap.keys good)
      by apply (keys_map_snd (fun k d => decodeNode k d)).
    split; [exact K|]. split; [reflexivity|]. intros Hplain.
    cbn [network set_network].
    rewrite encodeNetwork_map
      by (try unfold plain_ids; rewrite K; assumption).
    rewrite (keys_map_snd (fun _ n => Shaped (encodeNode n))). exact K.
  - eexists. split; reflexivity.
Qed.

Lemma load_then_save_truncates_witness :
  exists w data',
    initialize
      (newInstance
         (Some (Document
                  [("a"%string, Shaped (encodeNode (sampleNode "a" 1 [] [1; 0])));
                   ("x"%string, Unbuildable);
                   ("b"%string, Shaped (encodeNode (sampleNode "b" 1 [] [0; 1])))]))
         sampleClock sampleIds) = Returns w /\
    disk (saveNetwork w) = Some (Document data') /\
    JsMap.keys data' = ["a"%string].
Proof.
  destruct (load_then_save_truncates
              [("a"%string, encodeNode (sampleNode "a" 1 [] [1; 0]))]
              "x"
              [("b"%string, Shaped (encodeNode (sampleNode "b" 1 [] [0; 1])))]
              "" sampleClock sampleIds)
    as [(w & data' & Hinit & _ & Hdisk & Hkeys) _].
  - simpl. repeat constructor. simpl. tauto.
  - exists w, data'. split; [exact Hinit|]. split; [exact Hdisk|].
    apply Hkeys. intros k [<- | []]. split; [discriminate | reflexivity].
Defined.

(** ** Learning the same thing again *)

Lemma resonates_embedding (e : Float32Array) (n n' : ActivationNode.t) :
  ActivationNode.embedding n' = ActivationNode.embedding n ->
  resonates e n' = resonates e n.
Proof. intros H. unfold resonates. now rewrite H. Qed.

Lemma findResonantNodes_leaves_resonant (e : Float32Array)
    (text : option string) (w : World) :
  NoDup (JsMap.keys (network w)) -> 0 < sumSquares e ->
  exists k n s,
    JsMap.get (network (snd (findResonantNodes e text w))) k = Some n /\
    resonates e n = Some s.
Proof.
  intros Hnd Hpos.
  destruct (snd (resonantScan e (network w))) as [|k res] eqn:E.
  - rewrite findResonantNodes_miss by assumption. cbn [snd].
    exists (nodeId w (ticks w)),
           (createdNode (nodeId w (ticks w)) e text), 1.
    split; [apply JsMapFacts.get_set_same|].
    apply resonates_Some. exists e. repeat split; [|lra].
    now apply cosineSimilarity_of_self.
  - rewrite findResonantNodes_hit by (rewrite E; discriminate). cbn [snd].
    assert (Hin : In k (snd (resonantScan e (network w))))
      by (rewrite E; now left).
    apply resonantScan_refs in Hin. destruct Hin as (n & s & Hin & Hres).
    exists k, (rescored e n), s. split.
    + simpl. rewrite resonantScan_store.
      rewrite (get_map_snd (fun _ n => rescored e n)).
      now rewrite (JsMapFacts.In_get _ _ _ Hnd Hin).
    + rewrite <- Hres. apply resonates_embedding.
      unfold rescored. now destruct (resonates e n).
Qed.

(** X22. Learning is idempotent on the set of nodes: after a [learn] call
    with an embedding that is not all zeros, a further [learn] call with
    the same embedding, whatever its text, finds a resonant node and
    creates none. *)
Theorem learn_again_adds_no_node (first again : string) (e : Float32Array)
    (w : World) :
  NoDup (JsMap.keys (network w)) -> Exists (fun x => x <> 0) e ->
  JsMap.keys (network (learn again e (learn first e w)))
  = JsMap.keys (network (learn first e w)).
Proof.
  intros Hnd Hnz.
  destruct (findResonantNodes_leaves_resonant e (Some first) w Hnd
              (sumSquares_pos e Hnz)) as (k & n & s & Hget & Hres).
  assert (Hthere : exists n', In (k, n') (network (learn first e w)) /\
                              resonates e n' = Some s).
  { rewrite learn_unfold. cbv zeta.
    match goal with
    | |- context [strengthenPath ?p ?w1] =>
        destruct (kept_strengthenPath p w1) as (_ & _ & _ & Hkept)
    end.
    destruct (Hkept k n Hget) as (n' & Hget' & _ & Hemb & _).
    exists n'. split.
    - apply JsMapFacts.get_In.
      match goal with
      | |- context [if ?b then _ else _] => destruct b
      end; exact Hget'.
    - rewrite <- Hres. now apply resonates_embedding. }
  destruct Hthere as (n' & Hin & Hres').
  exact (learn_hit_keys again e (learn first e w) k n' s Hin Hres').
Qed.

Lemma learn_again_adds_no_node_witness :
  JsMap.keys (network (learn "ice" [1; 0] (learn "water" [1; 0] freshWorld)))
  = JsMap.keys (network (learn "water" [1; 0] freshWorld)).
Proof.
  apply learn_again_adds_no_node.
  - constructor.
  - apply Exists_cons_hd. lra.
Defined.

(** ** The command line entry *)

Lemma initialize_returns (d : option FileContent) (clk : nat -> number)
    (ids : nat -> string) :
  exists w, initialize (newInstance d clk ids) = Returns w /\
            disk w = d /\ writes w = 0%nat.
Proof.
  unfold initialize, loadNetwork, loadNetwork_try.
  destruct d as [[text | data]|]; simpl; eauto.
  destruct (decodeInto JsMap.empty data) as [net [e|]]; simpl; eauto.
Qed.

Lemma think_writes (respond : LLM) (input : string) (embedding : Float32Array)
    (w w' : World) (result : string + string) :
  think respond input embedding w = Some (result, w') ->
  disk w' = disk w /\ writes w' = writes w.
Proof.
  intros H.
  pose proof (preserved_think
                (fun w1 => disk w1 = disk w /\ writes w1 = writes w)) as K.
  cbv beta in K.
  eapply K; [ | | | | | exact H | split; reflexivity ].
  - intros e t w1 [Hd Hw].
    destruct (findResonantNodes_writes e t w1). split; congruence.
  - intros s p w1 w2 [Hd Hw] Hp.
    destruct (propagateActivation_shell _ _ _ _ _ Hp) as [_ (_ & D & W & _)].
    split; congruence.
  - intros s p w1 w2 [Hd Hw] Hp.
    destruct (propagateActivation_shell _ _ _ _ _ Hp) as [_ (_ & D & W & _)].
    split; congruence.
  - intros p w1 [Hd Hw].
    destruct (same_shell_strengthenPath p w1) as (_ & D & W & _).
    split; congruence.
  - intros w1 Hp. exact Hp.
Qed.

Lemma learn_writes (experience : string) (embedding : Float32Array)
    (w : World) :
  (writes w <= writes (learn experience embedding w) <= S (writes w))%nat.
Proof.
  rewrite learn_unfold. cbv zeta.
  destruct (learn_core_shell experience embedding w) as [Hw _].
  cbv zeta in Hw.
  match goal with
  | |- context [if ?b then _ else _] => destruct b
  end; simpl; lia.
Qed.

(** X23. [runCommand] writes the file exactly when it completes: it
    always settles; it is rejected only when the embedding or the
    completion service fails, and then the file is as it was found; and
    when it completes, for [learn], [think] or an unknown command alike,
    the file is the one [saveNetwork] writes for the store the command
    left, with an entry for every node but one stored under "__proto__",
    written once, or twice when [learn] itself saved. *)
Theorem runCommand_writes_iff_done (embed : Embedder) (respond : LLM)
    (command argument : string) (d : option FileContent)
    (clk : nat -> number) (ids : nat -> string) :
  exists settled,
    runCommand embed respond command argument d clk ids = Some settled /\
    match settled with
    | Resolves _ w =>
        (exists data,
           disk w = Some (Document data) /\
           data = encodeNetwork (network w) /\
           forall k, In k (JsMap.keys data) <->
                     In k (JsMap.keys (network w)) /\ k <> "__proto__"%string) /\
        (1 <= writes w <= 2)%nat
    | Rejects failure w =>
        disk w = d /\ writes w = 0%nat /\
        exists message, failure = ErrorMessage message
    end.
Proof.
  assert (Hfile : forall w,
            exists data,
              disk (saveNetwork w) = Some (Document data) /\
              data = encodeNetwork (network (saveNetwork w)) /\
              forall k, In k (JsMap.keys data) <->
                        In k (JsMap.keys (network (saveNetwork w))) /\
                        k <> "__proto__"%string).
  { intros w. eexists. split; [reflexivity|]. split; [reflexivity|].
    intros k. apply In_keys_encodeNetwork. }
  unfold runCommand.
  destruct (initialize_returns d clk ids) as (helen & -> & Hd & Hw).
  destruct (String.eqb command "learn").
  - unfold Helen.learn.
    destruct (embedText embed argument ForLearn) as [embedding | message].
    + eexists. split; [reflexivity|]. split; [apply Hfile|].
      pose proof (learn_writes argument embedding helen) as Hl.
      cbn [writes saveNetwork]. rewrite Hw in Hl. lia.
    + eexists. split; [reflexivity|]. cbv iota beta. eauto.
  - destruct (String.eqb command "think").
    + unfold Helen.think.
      destruct (embedText embed argument ForThink) as [embedding | message].
      * destruct (think_total respond argument embedding helen)
          as (result & w' & H).
        rewrite H. destruct (think_writes _ _ _ _ _ _ H) as [Hd' Hw'].
        destruct result as [response | message].
        -- eexists. split; [reflexivity|]. split; [apply Hfile|].
           cbn [writes saveNetwork]. lia.
        -- eexists. split; [reflexivity|].
           split; [congruence|]. split; [congruence | eauto].
      * eexists. split; [reflexivity|]. cbv iota beta. eauto.
    + eexists. split; [reflexivity|]. split; [apply Hfile|].
      cbn [writes saveNetwork]. lia.
Qed.

(** ** Strengthening saturates *)





(** ** The pattern of a path *)

Lemma nodesAt_length (net : Network) (path : list string) :
  (forall k, In k path -> In k (JsMap.keys net)) ->
  List.length (nodesAt net path) = List.length path.
Proof.
  induction path as [|r path IH]; intros Hin; [reflexivity|].
  unfold nodesAt in *. cbn [flat_map].
  destruct (JsMapFacts.In_keys_get _ _ (Hin r (or_introl eq_refl))) as [n ->].
  cbn [app List.length]. f_equal. apply IH. intros k Hk. apply Hin. now right.
Qed.

(** X25. [extractPattern] reads the clock once and changes nothing else.
    On a non-empty path of stored nodes its resonance is a number that is
    at most 1, its stability a number in [0, 1], and its coherence lies in
    [0, 1] when the weights lie in (-1, 1).  On the empty path the
    coherence is 1.0 while resonance and stability are not numbers (0/0),
    and the narrative is the placeholder. *)
Theorem extractPattern_ranges (path : list string) (w : World) :
  let pattern := fst (extractPattern path w) in
  snd (extractPattern path w) = tick w /\
  (path = [] ->
   ActivationPattern.coherence pattern = 1.0 /\
   ActivationPattern.resonance pattern = None /\
   ActivationPattern.stability pattern = None /\
   ActivationPattern.narrative pattern
     = "No semantic content available"%string) /\
  (path <> [] ->
   (forall k, In k path -> In k (JsMap.keys (network w))) ->
   (exists r, ActivationPattern.resonance pattern = Some r /\ r <= 1) /\
   (exists s, ActivationPattern.stability pattern = Some s /\ 0 <= s <= 1) /\
   (weights_bounded w -> 0 <= ActivationPattern.coherence pattern <= 1)).
Proof.
  cbv zeta. split; [reflexivity|]. split.
  - intros ->. repeat split.
  - intros Hne Hin.
    pose proof (nodesAt_length (network w) path Hin) as Hlen.
    unfold extractPattern, calculateStability, Date_now.
    cbn [fst ActivationPattern.resonance ActivationPattern.stability
         ActivationPattern.coherence].
    destruct (nodesAt (network w) path) as [|n nodes] eqn:E.
    { destruct path; [contradiction | discriminate]. }
    split; [|split].
    + eexists. split; [reflexivity|].
      match goal with
      | |- Rmin ?x ?y <= _ => pose proof (Rmin_r x y)
      end.
      lra.
    + eexists. split; [reflexivity|].
      apply ratio_in_unit; [apply filter_length_le | simpl; lia].
    + apply calculateCoherence_unit.
Qed.

Lemma extractPattern_ranges_witness :
  exists s,
    ActivationPattern.stability
      (fst (extractPattern ["a"; "b"]%string world_a_to_b)) = Some s /\
    0 <= s <= 1.
Proof.
  destruct (extractPattern_ranges ["a"; "b"]%string world_a_to_b)
    as (_ & _ & H).
  destruct H as (_ & Hs & _).
  - discriminate.
  - intros k [<- | [<- | []]]; simpl; tauto.
  - exact Hs.
Defined.

(** ** The graph stays closed *)

Lemma In_keys_set {V : Type} (m : JsMap.t V) (k t : string) (v : V) :
  In t (JsMap.keys (JsMap.set m k v)) -> In t (JsMap.keys m) \/ t = k.
Proof.
  destruct (in_dec string_dec k (JsMap.keys m)) as [Hin | Hout].
  - rewrite JsMapFacts.keys_set_in by assumption. auto.
  - rewrite JsMapFacts.keys_set_new by assumption. intros H.
    apply in_app_or in H. destruct H as [H | [<- | []]]; auto.
Qed.

Lemma In_keys_set_old {V : Type} (m : JsMap.t V) (k t : string) (v : V) :
  In t (JsMap.keys m) -> In t (JsMap.keys (JsMap.set m k v)).
Proof.
  intros Ht. destruct (in_dec string_dec k (JsMap.keys m)) as [Hin | Hout].
  - now rewrite JsMapFacts.keys_set_in.
  - rewrite JsMapFacts.keys_set_new by assumption. apply in_or_app. now left.
Qed.

Lemma closed_update (r : string) (f : ActivationNode.t -> ActivationNode.t)
    (w : World) :
  (forall n t, In t (JsMap.keys (ActivationNode.connections (f n))) ->
     In t (JsMap.keys (ActivationNode.connections n)) \/
     (In t (JsMap.keys (network w)) /\ t <> r)) ->
  closed w -> closed (update r f w).
Proof.
  intros Hf Hc k n' Hin t Ht. simpl in Hin |- *.
  rewrite JsMapFacts.keys_modify.
  apply In_modify in Hin. destruct Hin as [Hin | (n0 & Hin & -> & ->)].
  - exact (Hc k n' Hin t Ht).
  - destruct (Hf n0 t Ht) as [Hold | Hnew]; [|exact Hnew].
    exact (Hc r n0 Hin t Hold).
Qed.

Lemma closed_same_network (w w' : World) :
  network w' = network w -> closed w -> closed w'.
Proof. intros E Hc k n. rewrite E. apply Hc. Qed.

Lemma closed_setConnection (a b : string) (c : NodeConnection.t) (w : World) :
  In b (JsMap.keys (network w)) -> a <> b ->
  closed w -> closed (setConnection a b c w).
Proof.
  intros Hb Hne. apply closed_update. intros n t Ht. simpl in Ht.
  apply In_keys_set in Ht. destruct Ht as [Ht | ->]; [now left | right].
  split; [exact Hb | congruence].
Qed.

Lemma closed_getOrCreate (a b : string) (w : World) :
  In b (JsMap.keys (network w)) -> a <> b ->
  closed w -> closed (snd (getOrCreate a b w)).
Proof.
  intros Hb Hne Hc. unfold getOrCreate, Date_now.
  destruct (connectionBetween (network w) a b); cbn [snd]; [exact Hc|].
  apply closed_setConnection; assumption.
Qed.

Lemma closed_strengthenPair (a b : string) (w : World) :
  In a (JsMap.keys (network w)) -> In b (JsMap.keys (network w)) -> a <> b ->
  closed w -> closed (strengthenPair a b w).
Proof.
  intros Ha Hb Hne Hc. unfold strengthenPair, Date_now.
  pose proof (closed_getOrCreate a b w Hb Hne Hc) as H1.
  pose proof (connections_only_keys _ _ (connections_only_getOrCreate a b w))
    as K1.
  destruct (getOrCreate a b w) as [c w1]. cbn [snd] in H1, K1.
  match goal with
  | |- context [getOrCreate b a ?x] => set (w3 := x)
  end.
  assert (K3 : JsMap.keys (network w3) = JsMap.keys (network w))
    by (unfold w3, setConnection; simpl;
        rewrite JsMapFacts.keys_modify; exact K1).
  assert (H3 : closed w3).
  { unfold w3. apply closed_setConnection; [simpl; now rewrite K1 | exact Hne|].
    exact H1. }
  assert (Hne' : b <> a) by congruence.
  assert (Ha3 : In a (JsMap.keys (network w3))) by now rewrite K3.
  pose proof (closed_getOrCreate b a w3 Ha3 Hne' H3) as H4.
  pose proof (connections_only_keys _ _ (connections_only_getOrCreate b a w3))
    as K4.
  destruct (getOrCreate b a w3) as [rc w4]. cbn [snd] in H4, K4.
  apply closed_setConnection; [now rewrite K4 | exact Hne' | exact H4].
Qed.

Lemma path_of_distinct_nodes_keys (w w' : World) (path : list string) :
  JsMap.keys (network w') = JsMap.keys (network w) ->
  path_of_distinct_nodes w path -> path_of_distinct_nodes w' path.
Proof. intros K [Hnd Hin]. split; [exact Hnd | now rewrite K]. Qed.

Lemma closed_hebbian (path : list string) (w : World) :
  path_of_distinct_nodes w path -> closed w -> closed (hebbian path w).
Proof.
  revert w. induction path as [|a rest IH]; intros w [Hnd Hin] Hc; [exact Hc|].
  destruct rest as [|b rest']; [exact Hc|].
  change (hebbian (a :: b :: rest') w)
    with (hebbian (b :: rest') (strengthenPair a b w)).
  inversion Hnd as [|? ? Hout Hnd']; subst.
  apply IH.
  - apply (path_of_distinct_nodes_keys w).
    + apply connections_only_keys, connections_only_strengthenPair.
    + split; [exact Hnd' | intros k Hk; apply Hin; now right].
  - apply closed_strengthenPair; auto.
    + apply Hin. now left.
    + apply Hin. right. now left.
    + intros ->. apply Hout. now left.
Qed.

Lemma closed_antiHebbian (path : list string) (w : World) :
  closed w -> closed (antiHebbian path w).
Proof.
  unfold antiHebbian. generalize path at 1. intros p.
  revert w. induction path as [|node l IH]; intros w Hc; simpl; [exact Hc|].
  apply IH. apply closed_update; [|exact Hc].
  intros n t Ht. left. simpl in Ht. now rewrite keys_weaken in Ht.
Qed.

Lemma closed_strengthenPath (path : list string) (w : World) :
  path_of_distinct_nodes w path -> closed w -> closed (strengthenPath path w).
Proof.
  intros Hp Hc. unfold strengthenPath.
  now apply closed_antiHebbian, closed_hebbian.
Qed.

Lemma closed_activation_only (w w' : World) :
  activation_only (network w) (network w') -> closed w -> closed w'.
Proof.
  intros Hframe Hc k n' Hin t Ht.
  destruct (activation_only_In _ _ _ _ Hframe Hin) as (n & Hn & Hsame).
  destruct Hsame as (_ & Hconn & _). rewrite Hconn in Ht.
  rewrite (activation_only_keys _ _ Hframe). exact (Hc k n Hn t Ht).
Qed.

Lemma closed_findResonantNodes (embedding : Float32Array)
    (text : option string) (w : World) :
  closed w -> closed (snd (findResonantNodes embedding text w)).
Proof.
  intros Hc.
  assert (Hscan : closed
                    (set_network (fst (resonantScan embedding (network w))) w)).
  { intros k n' Hin t Ht. simpl in Hin |- *. rewrite resonantScan_store in *.
    rewrite (keys_map_snd (fun _ n => rescored embedding n)).
    apply in_map_iff in Hin. destruct Hin as ([k0 n0] & [= <- <-] & Hin0).
    apply (Hc k0 n0 Hin0 t).
    unfold rescored in Ht. destruct (resonates embedding n0); exact Ht. }
  destruct (snd (resonantScan embedding (network w))) eqn:E.
  - rewrite findResonantNodes_miss by assumption. cbn [snd].
    intros k n' Hin t Ht. simpl in Hin |- *.
    apply In_set in Hin. destruct Hin as [Hin | [_ ->]].
    + destruct (Hscan k n' Hin t Ht) as [H1 H2].
      split; [now apply In_keys_set_old | exact H2].
    + simpl in Ht. contradiction.
  - rewrite findResonantNodes_hit by (rewrite E; discriminate). exact Hscan.
Qed.

Lemma sound_findResonantNodes (embedding : Float32Array)
    (text : option string) (w : World) :
  sound w -> sound (snd (findResonantNodes embedding text w)).
Proof.
  intros [Hwf Hc].
  split; [now apply wf_findResonantNodes | now apply closed_findResonantNodes].
Qed.

Lemma sound_propagateActivation (startNodes : list string)
    (params : ActivationParams.t) (path : list string) (w w' : World) :
  sound w -> propagateActivation startNodes params w = Some (path, w') ->
  sound w'.
Proof.
  intros [Hwf Hc] H.
  destruct (propagateActivation_shell _ _ _ _ _ H) as [Hframe _].
  split; [eapply wf_activation_only | eapply closed_activation_only];
    eassumption.
Qed.

Lemma sound_strengthenPath (path : list string) (w : World) :
  path_of_distinct_nodes w path -> sound w -> sound (strengthenPath path w).
Proof.
  intros Hp [Hwf Hc].
  split; [now apply wf_strengthenPath | now apply closed_strengthenPath].
Qed.

Lemma sound_learn (experience : string) (embedding : Float32Array)
    (w : World) :
  sound w -> sound (learn experience embedding w).
Proof.
  intros Hs. rewrite learn_unfold. cbv zeta.
  assert (H : sound (strengthenPath
                       (fst (findResonantNodes embedding (Some experience) w))
                       (snd (findResonantNodes embedding (Some experience) w)))).
  { apply sound_strengthenPath; [|now apply sound_findResonantNodes].
    apply findResonantNodes_path. apply Hs. }
  match goal with
  | |- context [if ?b then _ else _] => destruct b
  end; exact H.
Qed.

Lemma sound_think (respond : LLM) (input : string) (embedding : Float32Array)
    (w w' : World) (result : string + string) :
  think respond input embedding w = Some (result, w') -> sound w -> sound w'.
Proof.
  unfold think. intros H Hs.
  pose proof (sound_findResonantNodes embedding (Some input) w Hs) as H1.
  pose proof (findResonantNodes_path embedding (Some input) w
                (proj1 (proj1 Hs))) as P1.
  destruct (findResonantNodes embedding (Some input) w) as [res w1].
  cbn [fst snd] in H1, P1.
  destruct (propagateActivation res broad w1) as [[p1 w2]|] eqn:E1;
    [|discriminate].
  pose proof (sound_propagateActivation _ _ _ _ _ H1 E1) as H2.
  pose proof (propagateActivation_path _ _ _ _ _ P1 E1) as P2.
  change (extractPattern p1 w2)
    with (fst (extractPattern p1 w2), tick w2) in H.
  cbv iota beta in H.
  destruct (gtb (ActivationPattern.coherence (fst (extractPattern p1 w2))) 0.7).
  - destruct (generateResponse respond _ fast); injection H as _ <-.
    + apply sound_strengthenPath; [exact P2 | exact H2].
    + exact H2.
  - destruct (propagateActivation res focused (tick w2)) as [[p2 w4]|] eqn:E2;
      [|discriminate].
    assert (H3 : sound (tick w2)) by exact H2.
    pose proof (sound_propagateActivation _ _ _ _ _ H3 E2) as H4.
    destruct (propagateActivation_shell _ _ _ _ _ E2) as [_ S4].
    assert (P4 : path_of_distinct_nodes w4 p1).
    { apply (path_of_distinct_nodes_keys w2); [|exact P2].
      exact (keys_same_shell _ _ S4). }
    change (extractPattern p2 w4)
      with (fst (extractPattern p2 w4), tick w4) in H.
    cbv iota beta in H.
    destruct (generateResponse respond _ reason); injection H as _ <-.
    + apply sound_strengthenPath; [exact P4 | exact H4].
    + exact H4.
Qed.

Lemma sound_apiStep (w w' : World) : apiStep w w' -> sound w -> sound w'.
Proof.
  intros [experience embedding | respond input embedding result w1 H | |] Hs.
  - now apply sound_learn.
  - eapply sound_think; eassumption.
  - exact Hs.
  - destruct (getMetrics_world w) as [-> | ->]; exact Hs.
Qed.

(** X26. From a well-formed store in which every connection leads to a
    stored node other than its source (the empty store of a fresh instance
    is one), any sequence of [learn], [think], [saveNetwork] and
    [getMetrics] calls leads to such a store: ids stay unique, every node
    stays under its own id with one connection per neighbour, no
    connection is left dangling and no node gets connected to itself. *)
Theorem api_keeps_graph_sound (w0 w : World) :
  sound w0 -> apiRun w0 w -> sound w.
Proof.
  intros Hs Hrun. induction Hrun as [|w1 w2 _ IH Hstep]; [exact Hs|].
  eapply sound_apiStep; eassumption.
Qed.

Lemma sound_world_both_ways : sound world_both_ways.
Proof.
  split; [split|].
  - simpl. repeat constructor; simpl; intuition discriminate.
  - intros k n [H | [H | []]]; injection H as <- <-; simpl; split; auto;
      repeat constructor; simpl; tauto.
  - intros k n [H | [H | []]]; injection H as <- <-;
      intros t [<- | []]; simpl; split; (tauto || discriminate).
Qed.

(** From two nodes connected both ways: a [learn] call whose text
    resonates with "a", then a [think] call whose query resonates with "a"
    and fires "b", so that connections are decayed and strengthened on the
    way. *)
Lemma api_keeps_graph_sound_witness :
  exists result w,
    think parrot "q" [1; 0] world_relearned = Some (result, w) /\ sound w.
Proof.
  destruct (think_total parrot "q" [1; 0] world_relearned)
    as (result & w & H).
  exists result, w. split; [exact H|].
  apply (api_keeps_graph_sound world_both_ways).
  - exact sound_world_both_ways.
  - eapply api_snoc;
      [eapply api_snoc; [apply api_nil | apply api_learn]
      | eapply api_think; exact H].
Defined.

(** ** What firing leaves behind *)

(** One iteration either leaves the collections alone, or appends the
    neighbour to the three of them, having raised it above the threshold
    and stamped it. *)
Lemma spreadTo_front (params : ActivationParams.t) (edge : bool) (now : number)
    (current : string) (w : World) (fr : Front)
    (entry : string * NodeConnection.t) :
  let r := spreadTo params edge now current (w, fr) entry in
  snd r = fr \/
  (snd r = mkFront (visited fr ++ [fst entry]) (wavefront fr ++ [fst entry])
                   (activatedPath fr ++ [fst entry]) /\
   Set_has (visited fr) (fst entry) = false /\
   exists n', JsMap.get (network (fst r)) (fst entry) = Some n' /\
              ActivationParams.threshold params < ActivationNode.potential n' /\
              ActivationNode.lastFired n' = now).
Proof.
  cbv zeta. unfold spreadTo. destruct entry as [connectedId connection].
  cbn [fst].
  destruct (Set_has (visited fr) connectedId) eqn:Hv; [now left|].
  destruct (JsMap.get (network w) connectedId) as [connectedNode|] eqn:Eb;
    [|now left].
  destruct (JsMap.get (network w) current) as [cur|]; [|now left].
  match goal with
  | |- context [if gtb ?p ?t then _ else _] =>
      destruct (gtb p t) eqn:G; [apply gtb_true in G|]
  end; cbn [fst snd]; [right | now left].
  split; [reflexivity|]. split; [reflexivity|].
  rewrite network_updateCoherenceMetrics.
  rewrite get_update_same, get_update_same, Eb. simpl.
  eexists. split; [reflexivity|]. split; [exact G | reflexivity].
Qed.

Lemma spreadTo_sane (params : ActivationParams.t) (edge : bool) (now : number)
    (current : string) (w : World) (fr : Front)
    (entry : string * NodeConnection.t) :
  front_sane fr ->
  front_sane (snd (spreadTo params edge now current (w, fr) entry)).
Proof.
  intros [Hp Hw].
  destruct (spreadTo_front params edge now current w fr entry)
    as [-> | (-> & _)]; [now split|].
  split; cbn [activatedPath visited wavefront]; [now rewrite Hp|].
  intros x Hx. rewrite Set_has_app. apply in_app_or in Hx.
  destruct Hx as [Hx | [<- | []]].
  - now rewrite (Hw x Hx).
  - rewrite String.eqb_refl. apply orb_true_r.
Qed.

Lemma fold_spreadTo_sane (params : ActivationParams.t) (edge : bool)
    (now : number) (current : string)
    (entries : list (string * NodeConnection.t)) (w : World) (fr : Front) :
  front_sane fr ->
  front_sane
    (snd (fold_left (spreadTo params edge now current) entries (w, fr))).
Proof.
  revert w fr.
  induction entries as [|entry entries IH]; intros w fr Hs; cbn [fold_left];
    [exact Hs|].
  pose proof (spreadTo_sane params edge now current w fr entry Hs) as H1.
  destruct (spreadTo params edge now current (w, fr) entry) as [w1 fr1].
  now apply IH.
Qed.

Lemma visit_sane (params : ActivationParams.t) (edge : bool)
    (current : string) (w : World) (fr : Front) :
  front_sane fr -> front_sane (snd (visit params edge current w fr)).
Proof.
  intros Hs. unfold visit, Date_now.
  set (w1 := update current (decayed params) w).
  destruct (JsMap.get (network (tick w1)) current) as [cur|]; [|exact Hs].
  match goal with
  | |- context [if ?b then _ else _] => destruct b
  end; [exact Hs|].
  now apply fold_spreadTo_sane.
Qed.

Lemma front_sane_pop (fr : Front) (current : string) (rest : list string) :
  wavefront fr = current :: rest -> front_sane fr ->
  front_sane (mkFront (visited fr) rest (activatedPath fr)).
Proof.
  intros Hw [Hp Hin]. split; [exact Hp|].
  intros x Hx. apply Hin. rewrite Hw. now right.
Qed.

Lemma propagateLoop_sane (fuel : nat) (params : ActivationParams.t)
    (edge : bool) (w w' : World) (fr fr' : Front) :
  front_sane fr ->
  propagateLoop fuel params edge w fr = Some (w', fr') -> front_sane fr'.
Proof.
  revert w fr. induction fuel as [|fuel IH]; intros w fr Hs;
    cbn [propagateLoop]; destruct (wavefront fr) as [|current rest] eqn:Hw;
    try discriminate; try (now intros [= <- <-]).
  pose proof (visit_sane params edge current w _
                (front_sane_pop fr current rest Hw Hs)) as H1.
  destruct (visit params edge current w
              (mkFront (visited fr) rest (activatedPath fr))) as [w1 fr1].
  now apply IH.
Qed.

Lemma not_waiting (fr : Front) (k : string) :
  front_sane fr -> Set_has (visited fr) k = false ->
  count_occ string_dec (wavefront fr) k = 0%nat.
Proof.
  intros [_ Hin] Hv. apply count_occ_not_In. intros Hk.
  rewrite (Hin k Hk) in Hv. discriminate.
Qed.

(** The iterations over the connections of one node: a node that they
    mark visited has been raised above the threshold, stamped, and waits
    once in the wavefront. *)
Lemma fold_spreadTo_fires (params : ActivationParams.t) (edge : bool)
    (now : number) (current : string)
    (entries : list (string * NodeConnection.t)) (w : World) (fr : Front)
    (k : string) :
  front_sane fr -> Set_has (visited fr) k = false ->
  let r := fold_left (spreadTo params edge now current) entries (w, fr) in
  Set_has (visited (snd r)) k = true ->
  exists n', JsMap.get (network (fst r)) k = Some n' /\
             ActivationParams.threshold params < ActivationNode.potential n' /\
             ActivationNode.lastFired n' = now /\
             count_occ string_dec (wavefront (snd r)) k = 1%nat.
Proof.
  revert w fr.
  induction entries as [|entry entries IH]; intros w fr Hs Hv; cbn [fold_left].
  - cbn [snd]. congruence.
  - pose proof (spreadTo_front params edge now current w fr entry) as Hfront.
    pose proof (spreadTo_sane params edge now current w fr entry Hs) as Hs1.
    destruct (spreadTo params edge now current (w, fr) entry) as [w1 fr1].
    cbv zeta in Hfront. cbn [fst snd] in Hfront, Hs1.
    destruct (Set_has (visited fr1) k) eqn:Hv1.
    + intros _.
      destruct Hfront as [-> | (E1 & Hnew & n' & Hget & Hthr & Hlf)];
        [congruence|].
      assert (Hk : fst entry = k).
      { rewrite E1 in Hv1. cbn [visited] in Hv1.
        rewrite Set_has_app, Hv in Hv1. cbn [orb] in Hv1.
        apply String.eqb_eq in Hv1. congruence. }
      rewrite Hk in *.
      assert (Hcount : count_occ string_dec (wavefront fr1) k = 1%nat).
      { rewrite E1. cbn [wavefront]. rewrite count_occ_app.
        rewrite (not_waiting fr k Hs Hv). simpl.
        destruct (string_dec k k); [reflexivity | contradiction]. }
      destruct (fold_spreadTo_aside params edge now current entries w1 fr1 k
                  (or_intror Hv1)) as (G & _ & W).
      cbv zeta in G, W. exists n'. rewrite G, W. auto.
    + apply IH; assumption.
Qed.

Lemma visit_fires (params : ActivationParams.t) (edge : bool)
    (current : string) (w : World) (fr : Front) (k : string) :
  front_sane fr -> Set_has (visited fr) k = false ->
  let r := visit params edge current w fr in
  Set_has (visited (snd r)) k = true ->
  exists n', JsMap.get (network (fst r)) k = Some n' /\
             ActivationParams.threshold params < ActivationNode.potential n' /\
             ActivationNode.lastFired n' = clock w (ticks w) /\
             count_occ string_dec (wavefront (snd r)) k = 1%nat.
Proof.
  intros Hs Hv. unfold visit, Date_now. cbv zeta.
  set (w1 := update current (decayed params) w).
  destruct (JsMap.get (network (tick w1)) current) as [cur|];
    [|cbn [snd]; congruence].
  match goal with
  | |- context [if ?b then _ else _] => destruct b
  end; [cbn [snd]; congruence|].
  apply (fold_spreadTo_fires params edge (clock w1 (ticks w1)) current);
    assumption.
Qed.

Lemma propagateLoop_fired (fuel : nat) (params : ActivationParams.t)
    (edge : bool) (w w' : World) (fr fr' : Front) (k : string) :
  front_sane fr -> Set_has (visited fr) k = false ->
  propagateLoop fuel params edge w fr = Some (w', fr') ->
  Set_has (visited fr') k = true ->
  exists n0 t,
    (ticks w <= t)%nat /\
    JsMap.get (network w') k = Some (decayed params n0) /\
    ActivationParams.threshold params < ActivationNode.potential n0 /\
    ActivationNode.lastFired n0 = clock w t.
Proof.
  revert w fr. induction fuel as [|fuel IH]; intros w fr Hs Hv;
    cbn [propagateLoop]; destruct (wavefront fr) as [|current rest] eqn:Hw;
    try discriminate; try (intros [= <- <-]; congruence).
  pose proof (front_sane_pop fr current rest Hw Hs) as Hs0.
  pose proof (visit_sane params edge current w _ Hs0) as Hs1.
  pose proof (visit_fires params edge current w _ k Hs0 Hv) as Hfire.
  pose proof (kept_visit params edge current w
                (mkFront (visited fr) rest (activatedPath fr)))
    as (_ & Hticks & _).
  pose proof (visit_frame params edge current w
                (mkFront (visited fr) rest (activatedPath fr)))
    as [_ (_ & _ & _ & Hclock & _)].
  destruct (visit params edge current w
              (mkFront (visited fr) rest (activatedPath fr))) as [w1 fr1].
  cbv zeta in Hfire. cbn [fst snd] in Hs1, Hfire, Hticks, Hclock.
  intros H Hend.
  destruct (Set_has (visited fr1) k) eqn:Hv1.
  - destruct (Hfire eq_refl) as (n' & Hget & Hthr & Hlf & Hcount).
    exists n', (ticks w). split; [lia|].
    rewrite (propagateLoop_decays_once _ _ _ _ _ _ _ k Hv1 Hcount H), Hget.
    auto.
  - destruct (IH w1 fr1 Hs1 Hv1 H Hend) as (n0 & t & Ht & Hget & Hthr & Hlf).
    exists n0, t. rewrite <- Hclock. repeat split; auto. lia.
Qed.

(** X27. Every node that fires, that is every node of the returned path
    that is not a seed, crossed the threshold and was then decayed once:
    it ends [propagateActivation] with [lastFired] set to a reading of the
    clock taken during the call and, for a positive decay, with a
    potential above [params.threshold] times [params.decay]. *)
Theorem propagateActivation_fired (startNodes : list string)
    (params : ActivationParams.t) (w w' : World) (path : list string)
    (k : string) :
  propagateActivation startNodes params w = Some (path, w') ->
  In k path -> ~ In k startNodes ->
  exists n' t,
    JsMap.get (network w') k = Some n' /\
    (ticks w <= t)%nat /\ ActivationNode.lastFired n' = clock w t /\
    (0 < ActivationParams.decay params ->
     ActivationParams.threshold params * ActivationParams.decay params
     < ActivationNode.potential n').
Proof.
  intros H Hin Hseed. unfold propagateActivation in H.
  match type of H with
  | context [propagateLoop ?fuel ?p ?e ?w0 ?fr0] =>
      destruct (propagateLoop fuel p e w0 fr0) as [[w1 fr1]|] eqn:E;
      [|discriminate]
  end.
  injection H as <- <-.
  assert (Hs : front_sane (mkFront startNodes startNodes startNodes)).
  { split; [reflexivity|]. intros x Hx. now apply Set_has_In. }
  destruct (propagateLoop_sane _ _ _ _ _ _ _ Hs E) as [Hp _].
  assert (Hv0 : Set_has startNodes k = false).
  { destruct (Set_has startNodes k) eqn:Hv; [|reflexivity].
    apply Set_has_In in Hv. contradiction. }
  assert (Hend : Set_has (visited fr1) k = true)
    by (apply Set_has_In; now rewrite <- Hp).
  destruct (propagateLoop_fired _ _ _ _ _ _ _ k Hs Hv0 E Hend)
    as (n0 & t & Ht & Hget & Hthr & Hlf).
  exists (decayed params n0), t. repeat split; auto.
  intros Hdecay. simpl. now apply Rmult_lt_compat_r.
Qed.

Lemma propagateLoop_visited (fuel : nat) (params : ActivationParams.t)
    (edge : bool) (w w' : World) (fr fr' : Front) (k : string) :
  Set_has (visited fr) k = true ->
  propagateLoop fuel params edge w fr = Some (w', fr') ->
  Set_has (visited fr') k = true.
Proof.
  revert w fr. induction fuel as [|fuel IH]; intros w fr Hk;
    cbn [propagateLoop]; destruct (wavefront fr) as [|current rest];
    try discriminate; try (now intros [= <- <-]).
  pose proof (visit_keeps params edge current w
                (mkFront (visited fr) rest (activatedPath fr)) k Hk)
    as (_ & V & _).
  destruct (visit params edge current w
              (mkFront (visited fr) rest (activatedPath fr))) as [w1 fr1].
  cbn [snd] in V. now apply IH.
Qed.

(** A neighbour of the seed that the seed raises above the threshold is on
    the path. *)
Lemma propagate_edge_on_path (a b : string) (nA nB : ActivationNode.t)
    (c : NodeConnection.t) (params : ActivationParams.t) (w w' : World)
    (path : list string) :
  a <> b ->
  JsMap.get (network w) a = Some nA -> JsMap.get (network w) b = Some nB ->
  NoDup (JsMap.keys (ActivationNode.connections nA)) ->
  JsMap.get (ActivationNode.connections nA) b = Some c ->
  ltb (clock w (ticks w) - ActivationNode.lastFired nA)
      (ActivationNode.refractoryPeriod nA) = false ->
  gtb (ActivationNode.potential nB
       + (ActivationNode.potential nA * ActivationParams.decay params
          * NodeConnection.weight c * ActivationParams.spread params
          + (if isEdgeOfChaos w
             then alpha * tanh (ActivationNode.potential nA
                                * ActivationParams.decay params
                                * NodeConnection.weight c
                                * ActivationParams.spread params)
             else 0)))
      (ActivationParams.threshold params) = true ->
  propagateActivation [a] params w = Some (path, w') ->
  In b path.
Proof.
  intros Hab HA HB Hkeys Hedge Hready Hfire H.
  unfold propagateActivation in H.
  match type of H with
  | context [propagateLoop ?fuel ?p ?e ?w0 ?fr0] =>
      destruct (propagateLoop fuel p e w0 fr0) as [[w1 fr1]|] eqn:E;
      [|discriminate]
  end.
  injection H as <- _.
  assert (Hs : front_sane (mkFront [a] [a] [a])).
  { split; [reflexivity|]. intros x Hx. now apply Set_has_In. }
  destruct (propagateLoop_sane _ _ _ _ _ _ _ Hs E) as [Hp _].
  rewrite Hp. apply Set_has_In.
  change (List.length [a] + JsMap.size (network w))%nat
    with (S (JsMap.size (network w))) in E.
  cbn [propagateLoop wavefront visited activatedPath] in E.
  destruct (visit_seed_fires a b nA nB c params w Hab HA HB Hkeys Hedge Hready
              Hfire) as (_ & V & _).
  destruct (visit params (isEdgeOfChaos w) a w (mkFront [a] [] [a]))
    as [w5 fr5].
  cbn [snd] in V. eapply propagateLoop_visited; eassumption.
Qed.

Lemma propagateActivation_fired_witness :
  exists path w' n',
    propagateActivation ["a"%string] broad world_strengthened = Some (path, w')
    /\ JsMap.get (network w') "b" = Some n'
    /\ 0.3 * 0.9 < ActivationNode.potential n'.
Proof.
  destruct (propagateActivation_total ["a"%string] broad world_strengthened)
    as (path & w' & H).
  destruct (propagateActivation_fired ["a"%string] broad world_strengthened
              w' path "b" H) as (n' & t & Hget & _ & _ & Hpot).
  - apply (propagate_edge_on_path "a" "b"
             (sampleNode "a" 1
                [("b"%string,
                  NodeConnection.mk (tanh (0.1 + 0.1 * 1 * 1)) (sampleClock 1)
                                    0.1)]
                [1; 0])
             (sampleNode "b" 1
                [("a"%string,
                  NodeConnection.mk (tanh (0.1 + 0.1 * 1 * 1 * 0.7))
                                    (sampleClock 2) 0.1)]
                [0; 1])
             (NodeConnection.mk (tanh (0.1 + 0.1 * 1 * 1)) (sampleClock 1) 0.1)
             broad world_strengthened w' path).
    + discriminate.
    + rewrite network_world_strengthened. reflexivity.
    + rewrite network_world_strengthened. reflexivity.
    + simpl. repeat constructor. simpl. tauto.
    + reflexivity.
    + exact ready_world_strengthened.
    + simpl. apply gtb_true.
      rewrite (isEdgeOfChaos_initial world_strengthened eq_refl).
      assert (0 <= tanh (0.1 + 0.1 * 1 * 1)) by (apply tanh_nonneg; lra).
      assert (0 <= tanh (1 * 0.9 * tanh (0.1 + 0.1 * 1 * 1) * 0.8))
        by (apply tanh_nonneg; lra).
      unfold alpha. lra.
    + exact H.
  - simpl. intuition discriminate.
  - exists path, w', n'. split; [exact H|]. split; [exact Hget|].
    apply Hpot. simpl. lra.
Defined.

Lemma below_threshold_set (threshold p : number) (n0 n : ActivationNode.t) :
  below_threshold threshold n0 n -> p <= threshold ->
  below_threshold threshold n0 (ActivationNode.set_potential p n).
Proof.
  intros Hb Hp. right. split; [|exact Hp].
  destruct Hb as [-> | [-> _]]; reflexivity.
Qed.

Lemma spreadTo_quiet (params : ActivationParams.t) (edge : bool) (now : number)
    (current : string) (w : World) (fr : Front)
    (entry : string * NodeConnection.t) (k : string)
    (n0 n : ActivationNode.t) :
  JsMap.get (network w) k = Some n ->
  below_threshold (ActivationParams.threshold params) n0 n ->
  let r := spreadTo params edge now current (w, fr) entry in
  Set_has (visited (snd r)) k = false ->
  exists n', JsMap.get (network (fst r)) k = Some n' /\
             below_threshold (ActivationParams.threshold params) n0 n'.
Proof.
  intros Hget Hb. cbv zeta. unfold spreadTo.
  destruct entry as [connectedId connection].
  destruct (Set_has (visited fr) connectedId) eqn:Hv; [cbn [fst]; eauto|].
  destruct (JsMap.get (network w) connectedId) as [connectedNode|] eqn:Eb;
    [|cbn [fst]; eauto].
  destruct (JsMap.get (network w) current) as [cur|]; [|cbn [fst]; eauto].
  match goal with
  | |- context [if gtb ?p ?t then _ else _] =>
      destruct (gtb p t) eqn:G; [|apply gtb_false in G]
  end; cbn [fst snd visited].
  - rewrite Set_has_app. intros Hend. apply orb_false_elim in Hend.
    destruct Hend as [_ Hne]. apply String.eqb_neq in Hne.
    rewrite network_updateCoherenceMetrics.
    rewrite !get_update_other by congruence. eauto.
  - intros _. destruct (string_dec connectedId k) as [-> | Hne].
    + rewrite get_update_same, Hget. simpl. eexists. split; [reflexivity|].
      rewrite Hget in Eb. injection Eb as <-.
      now apply below_threshold_set.
    + rewrite get_update_other by assumption. eauto.
Qed.

Lemma fold_spreadTo_quiet (params : ActivationParams.t) (edge : bool)
    (now : number) (current : string)
    (entries : list (string * NodeConnection.t)) (w : World) (fr : Front)
    (k : string) (n0 n : ActivationNode.t) :
  JsMap.get (network w) k = Some n ->
  below_threshold (ActivationParams.threshold params) n0 n ->
  let r := fold_left (spreadTo params edge now current) entries (w, fr) in
  Set_has (visited (snd r)) k = false ->
  exists n', JsMap.get (network (fst r)) k = Some n' /\
             below_threshold (ActivationParams.threshold params) n0 n'.
Proof.
  revert w fr n.
  induction entries as [|entry entries IH]; intros w fr n Hget Hb;
    cbn [fold_left]; [cbn [fst]; eauto|].
  pose proof (spreadTo_quiet params edge now current w fr entry k n0 n Hget Hb)
    as H1.
  destruct (spreadTo params edge now current (w, fr) entry) as [w1 fr1].
  cbv zeta in H1. cbn [fst snd] in H1. cbv zeta. intros Hend.
  destruct (Set_has (visited fr1) k) eqn:Hv1.
  - destruct (fold_spreadTo_keeps params edge now current entries w1 fr1 k Hv1)
      as (_ & V & _).
    cbv zeta in V. congruence.
  - destruct (H1 eq_refl) as (n1 & Hget1 & Hb1).
    exact (IH w1 fr1 n1 Hget1 Hb1 Hend).
Qed.

Lemma visit_quiet (params : ActivationParams.t) (edge : bool)
    (current : string) (w : World) (fr : Front) (k : string)
    (n0 n : ActivationNode.t) :
  current <> k ->
  JsMap.get (network w) k = Some n ->
  below_threshold (ActivationParams.threshold params) n0 n ->
  let r := visit params edge current w fr in
  Set_has (visited (snd r)) k = false ->
  exists n', JsMap.get (network (fst r)) k = Some n' /\
             below_threshold (ActivationParams.threshold params) n0 n'.
Proof.
  intros Hne Hget Hb. unfold visit, Date_now. cbv zeta.
  set (w1 := update current (decayed params) w).
  assert (G1 : JsMap.get (network (tick w1)) k = Some n)
    by (rewrite <- Hget; apply get_update_other; exact Hne).
  destruct (JsMap.get (network (tick w1)) current) as [cur|];
    [|cbn [fst]; eauto].
  match goal with
  | |- context [if ?b then _ else _] => destruct b
  end; [cbn [fst]; eauto|].
  now apply (fold_spreadTo_quiet params edge (clock w1 (ticks w1)) current
               (ActivationNode.connections cur) (tick w1) fr k n0 n).
Qed.

Lemma propagateLoop_quiet (fuel : nat) (params : ActivationParams.t)
    (edge : bool) (w w' : World) (fr fr' : Front) (k : string)
    (n0 n : ActivationNode.t) :
  front_sane fr ->
  JsMap.get (network w) k = Some n ->
  below_threshold (ActivationParams.threshold params) n0 n ->
  propagateLoop fuel params edge w fr = Some (w', fr') ->
  Set_has (visited fr') k = false ->
  exists n', JsMap.get (network w') k = Some n' /\
             below_threshold (ActivationParams.threshold params) n0 n'.
Proof.
  revert w fr n. induction fuel as [|fuel IH]; intros w fr n Hs Hget Hb;
    cbn [propagateLoop]; destruct (wavefront fr) as [|current rest] eqn:Hw;
    try discriminate; try (intros [= <- <-]; eauto).
  pose proof (front_sane_pop fr current rest Hw Hs) as Hs0.
  pose proof (visit_sane params edge current w _ Hs0) as Hs1.
  pose proof (visit_quiet params edge current w
                (mkFront (visited fr) rest (activatedPath fr)) k n0 n) as Hq.
  pose proof (visit_keeps params edge current w
                (mkFront (visited fr) rest (activatedPath fr)) k) as Hkeep.
  destruct (visit params edge current w
              (mkFront (visited fr) rest (activatedPath fr))) as [w1 fr1].
  cbv zeta in Hq, Hkeep. cbn [fst snd visited] in Hs1, Hq, Hkeep.
  intros H Hend.
  assert (Hv1 : Set_has (visited fr1) k = false).
  { destruct (Set_has (visited fr1) k) eqn:Hv1; [|reflexivity].
    rewrite (propagateLoop_visited _ _ _ _ _ _ _ k Hv1 H) in Hend.
    discriminate. }
  assert (Hv : Set_has (visited fr) k = false).
  { destruct (Set_has (visited fr) k) eqn:Hv; [|reflexivity].
    destruct (Hkeep eq_refl) as (_ & V & _). congruence. }
  assert (Hne : current <> k).
  { intros ->. destruct Hs as [_ Hin].
    rewrite (Hin k) in Hv; [discriminate | rewrite Hw; now left]. }
  destruct (Hq Hne Hget Hb Hv1) as (n1 & Hget1 & Hb1).
  exact (IH w1 fr1 n1 Hs1 Hget1 Hb1 H Hend).
Qed.

(** X28. A node that is not on the returned path did not fire: it ends
    [propagateActivation] either exactly as it was, or with nothing but
    its potential changed, to a value that is not above
    [params.threshold]; its [lastFired] is as before. *)
Theorem propagateActivation_not_fired (startNodes : list string)
    (params : ActivationParams.t) (w w' : World) (path : list string)
    (k : string) (n : ActivationNode.t) :
  propagateActivation startNodes params w = Some (path, w') ->
  ~ In k path -> JsMap.get (network w) k = Some n ->
  exists n',
    JsMap.get (network w') k = Some n' /\
    below_threshold (ActivationParams.threshold params) n n' /\
    ActivationNode.lastFired n' = ActivationNode.lastFired n.
Proof.
  intros H Hout Hget. unfold propagateActivation in H.
  match type of H with
  | context [propagateLoop ?fuel ?p ?e ?w0 ?fr0] =>
      destruct (propagateLoop fuel p e w0 fr0) as [[w1 fr1]|] eqn:E;
      [|discriminate]
  end.
  injection H as <- <-.
  assert (Hs : front_sane (mkFront startNodes startNodes startNodes)).
  { split; [reflexivity|]. intros x Hx. now apply Set_has_In. }
  destruct (propagateLoop_sane _ _ _ _ _ _ _ Hs E) as [Hp _].
  assert (Hend : Set_has (visited fr1) k = false).
  { destruct (Set_has (visited fr1) k) eqn:Hv; [|reflexivity].
    apply Set_has_In in Hv. rewrite <- Hp in Hv. contradiction. }
  destruct (propagateLoop_quiet _ _ _ _ _ _ _ k n n Hs Hget (or_introl eq_refl)
              E Hend) as (n' & Hget' & Hb).
  exists n'. split; [exact Hget'|]. split; [exact Hb|].
  destruct Hb as [-> | [-> _]]; reflexivity.
Qed.

Lemma propagateActivation_not_fired_witness :
  exists path w' n',
    propagateActivation ["b"%string] broad world_a_to_b = Some (path, w') /\
    JsMap.get (network w') "a" = Some n' /\
    ActivationNode.lastFired n' = 0.
Proof.
  destruct (propagateActivation_total ["b"%string] broad world_a_to_b)
    as (path & w' & H).
  assert (Hpath : path = ["b"%string]).
  { rewrite propagateActivation_isolated
      with (n := sampleNode "b" 1 [] [0; 1]) in H; [|reflexivity..].
    now injection H as <- _. }
  destruct (propagateActivation_not_fired ["b"%string] broad world_a_to_b w'
              path "a"
              (sampleNode "a" 1 [("b"%string, NodeConnection.mk 0.5 0 0.1)]
                          [1; 0]) H)
    as (n' & Hget & _ & Hlf).
  - rewrite Hpath. simpl. intuition discriminate.
  - reflexivity.
  - exists path, w', n'. split; [exact H|]. split; [exact Hget | exact Hlf].
Defined.

(** ** One node at most per call *)

Lemma findResonantNodes_grows (embedding : Float32Array)
    (text : option string) (w : World) :
  exists added,
    JsMap.keys (network (snd (findResonantNodes embedding text w)))
    = JsMap.keys (network w) ++ added /\
    (List.length added <= 1)%nat.
Proof.
  assert (K : JsMap.keys (fst (resonantScan embedding (network w)))
              = JsMap.keys (network w)).
  { rewrite resonantScan_store.
    apply (keys_map_snd (fun _ n => rescored embedding n)). }
  destruct (snd (resonantScan embedding (network w))) eqn:E.
  - rewrite findResonantNodes_miss by assumption. cbn [snd]. simpl.
    destruct (in_dec string_dec (nodeId w (ticks w))
                (JsMap.keys (fst (resonantScan embedding (network w)))))
      as [Hin | Hout].
    + exists []. rewrite JsMapFacts.keys_set_in by assumption.
      rewrite K, app_nil_r. split; [reflexivity | simpl; lia].
    + exists [nodeId w (ticks w)].
      rewrite JsMapFacts.keys_set_new by assumption.
      rewrite K. split; [reflexivity | simpl; lia].
  - rewrite findResonantNodes_hit by (rewrite E; discriminate). cbn [snd].
    exists []. simpl. rewrite K, app_nil_r. split; [reflexivity | simpl; lia].
Qed.

Lemma think_kept (respond : LLM) (input : string) (embedding : Float32Array)
    (w w' : World) (result : string + string) :
  think respond input embedding w = Some (result, w') ->
  kept (snd (findResonantNodes embedding (Some input) w)) w'.
Proof.
  unfold think. intros H.
  destruct (findResonantNodes embedding (Some input) w) as [res w1].
  cbn [snd].
  destruct (propagateActivation res broad w1) as [[p1 w2]|] eqn:E1;
    [|discriminate].
  assert (K3 : kept w1 (tick w2))
    by (eapply kept_trans;
        [eapply kept_propagateActivation; exact E1 | apply kept_tick]).
  change (extractPattern p1 w2)
    with (fst (extractPattern p1 w2), tick w2) in H.
  cbv iota beta in H.
  destruct (gtb (ActivationPattern.coherence (fst (extractPattern p1 w2))) 0.7).
  - destruct (generateResponse respond _ fast); injection H as _ <-.
    + eapply kept_trans; [exact K3 | apply kept_strengthenPath].
    + exact K3.
  - destruct (propagateActivation res focused (tick w2)) as [[p2 w4]|] eqn:E2;
      [|discriminate].
    assert (K5 : kept w1 (tick w4)).
    { eapply kept_trans; [exact K3|].
      eapply kept_trans;
        [eapply kept_propagateActivation; exact E2 | apply kept_tick]. }
    change (extractPattern p2 w4)
      with (fst (extractPattern p2 w4), tick w4) in H.
    cbv iota beta in H.
    destruct (generateResponse respond _ reason); injection H as _ <-.
    + eapply kept_trans; [exact K5 | apply kept_strengthenPath].
    + exact K5.
Qed.

(** X29. Each call of [learn], [think], [saveNetwork] or [getMetrics]
    leaves the ids of the store in place and in order and adds at most one
    id after them, whatever identifiers the generator yields; so
    [getNetworkSize] never decreases and grows by one at most per call. *)
Theorem api_call_adds_at_most_one_node (w w' : World) :
  apiStep w w' ->
  (exists added,
     JsMap.keys (network w') = JsMap.keys (network w) ++ added /\
     (List.length added <= 1)%nat) /\
  (getNetworkSize w <= getNetworkSize w' <= getNetworkSize w + 1)%nat.
Proof.
  intros Hstep.
  assert (Hkeys : exists added,
             JsMap.keys (network w') = JsMap.keys (network w) ++ added /\
             (List.length added <= 1)%nat);
    [|split; [exact Hkeys|];
      destruct Hkeys as (added & E & Hlen);
      unfold getNetworkSize; rewrite !size_keys, E, length_app; lia].
  revert Hstep.
  assert (Hsame : forall w1, JsMap.keys (network w1) = JsMap.keys (network w) ->
            exists added,
              JsMap.keys (network w1) = JsMap.keys (network w) ++ added /\
              (List.length added <= 1)%nat).
  { intros w1 E. exists []. rewrite E, app_nil_r.
    split; [reflexivity | simpl; lia]. }
  intros [experience embedding | respond input embedding result w1 H | |].
  - destruct (findResonantNodes_grows embedding (Some experience) w)
      as (added & E & Hlen).
    exists added. split; [|exact Hlen]. rewrite <- E.
    rewrite learn_unfold. cbv zeta.
    match goal with
    | |- context [strengthenPath ?p ?w1] =>
        destruct (kept_strengthenPath p w1) as (_ & _ & K & _)
    end.
    match goal with
    | |- context [if ?b then _ else _] => destruct b
    end; exact K.
  - destruct (findResonantNodes_grows embedding (Some input) w)
      as (added & E & Hlen).
    exists added. split; [|exact Hlen]. rewrite <- E.
    destruct (think_kept _ _ _ _ _ _ H) as (_ & _ & K & _). exact K.
  - apply Hsame. reflexivity.
  - apply Hsame. destruct (getMetrics_world w) as [-> | ->]; reflexivity.
Qed.

Lemma api_call_adds_at_most_one_node_witness :
  (getNetworkSize (learn "water" [1; 0]%R freshWorld) <= 1)%nat.
Proof.
  destruct (api_call_adds_at_most_one_node freshWorld
              (learn "water" [1; 0] freshWorld)) as [_ [_ H]].
  - apply api_learn.
  - exact H.
Defined.

(** ** A neighbour listed twice in the file *)

Lemma get_fold_set_other (entries : list (string * NodeConnection.t))
    (acc : JsMap.t NodeConnection.t) (k : string) :
  ~ In k (JsMap.keys entries) ->
  JsMap.get (fold_left (fun m '(k', c) => JsMap.set m k' c) entries acc) k
  = JsMap.get acc k.
Proof.
  revert acc. induction entries as [|[k' c'] entries IH]; intros acc Hout;
    simpl; [reflexivity|].
  rewrite IH by (intros Hin; apply Hout; simpl; now right).
  apply JsMapFacts.get_set_other. intros ->. apply Hout. simpl. now left.
Qed.

(** X30. A loaded node has one connection per neighbour: when the file
    lists a neighbour more than once among the connections of a node, the
    connection listed last is the one the node is built with. *)
Theorem load_keeps_last_connection (id : string) (nodeData : NodeData.t)
    (pre post : list (string * NodeConnection.t)) (k : string)
    (c : NodeConnection.t) :
  NodeData.connections nodeData = pre ++ (k, c) :: post ->
  ~ In k (JsMap.keys post) ->
  JsMap.get (ActivationNode.connections (decodeNode id nodeData)) k = Some c /\
  NoDup (JsMap.keys (ActivationNode.connections (decodeNode id nodeData))).
Proof.
  intros E Hout. cbn [decodeNode ActivationNode.connections]. split.
  - rewrite E. unfold Map_of. rewrite fold_left_app. cbn [fold_left].
    rewrite get_fold_set_other by assumption.
    apply JsMapFacts.get_set_same.
  - apply NoDup_Map_of.
Qed.

Lemma load_keeps_last_connection_witness :
  JsMap.get
    (ActivationNode.connections
       (decodeNode "a"
          (NodeData.mk 1 0.9 0.5 100 0
             [("b"%string, NodeConnection.mk 0.5 0 0.1);
              ("b"%string, NodeConnection.mk 0.2 3 0.1)]
             None None))) "b"
  = Some (NodeConnection.mk 0.2 3 0.1).
Proof.
  apply (load_keeps_last_connection "a"
           (NodeData.mk 1 0.9 0.5 100 0
              [("b"%string, NodeConnection.mk 0.5 0 0.1);
               ("b"%string, NodeConnection.mk 0.2 3 0.1)]
              None None)
           [("b"%string, NodeConnection.mk 0.5 0 0.1)] []).
  - reflexivity.
  - simpl. tauto.
Defined.
